(** * RDP-Timeline: the timeline and session-reconstruction engine

    A shallow embedding of [src/timeline.py] (class [RDPTimelineBuilder])
    and the properties of its four stages: timestamp normaliser, timeline
    sorter, session builder and grace correlator; with it the code around
    the engine: the log reader of [src/parser.py], the loader of
    [src/loader.py] and the session features of [src/ml_anomaly.py].

    Event records are Python dictionaries that the builder mutates in
    place and that several lists refer to at once.  They live in a heap
    (a list of records); the raw event list, the timeline and the member
    lists of the sessions hold references (positions in the heap). *)

From stdpp Require Import base option list strings gmap sorting.
From Stdlib Require Import ZArith Lia Ascii.

Local Open Scope Z_scope.

(** ** Exceptions and results *)

(** The two exceptions the datetime operations of the engine can raise. *)
Inductive exn := TypeError | OverflowError.

Inductive result (A : Type) :=
| Ok (a : A)
| Raise (e : exn).
Arguments Ok {A} a.
Arguments Raise {A} e.

Definition bind {A B} (m : result A) (k : A → result B) : result B :=
  match m with
  | Ok a => k a
  | Raise e => Raise e
  end.

Notation "'let!' x := m 'in' k" := (bind m (λ x, k))
  (at level 10, x name, m at level 100, k at level 200).

Global Instance exn_eq_dec : EqDecision exn.
Proof. solve_decision. Defined.

(** A [for] loop whose body either finishes an iteration or raises before
    it has changed anything: the loop stops at the first exception and
    keeps the state reached so far. *)
Fixpoint for_each {S X} (body : X → S → result S) (xs : list X) (s : S)
  : S * option exn :=
  match xs with
  | [] => (s, None)
  | x :: xs' =>
      match body x s with
      | Ok s' => for_each body xs' s'
      | Raise e => (s, Some e)
      end
  end.

(** ** datetime and timedelta *)

Module datetime.

(** A [timedelta] is a number of microseconds. *)
Definition timedelta := Z.

Definition minutes (n : Z) : timedelta := n * 60000000.

(** A [datetime] is its wall-clock reading, in microseconds since
    0001-01-01T00:00:00, and its UTC offset in microseconds; a naive
    datetime has no offset. *)
Record t := mk { wall : Z; utcoffset : option Z }.

(** [datetime.min] is naive. *)
Definition min : t := mk 0 None.

(** 9999-12-31T23:59:59.999999, the wall-clock reading of [datetime.max]:
    day 3652059 of the proleptic calendar is the last one. *)
Definition max_wall : Z := 3652059 * 86400000000 - 1.

Definition aware (d : t) : bool :=
  match utcoffset d with Some _ => true | None => false end.

(** The position of a datetime on the time line of its kind: the UTC
    instant of an aware datetime, the wall-clock of a naive one. *)
Definition instant (d : t) : Z :=
  match utcoffset d with Some off => wall d - off | None => wall d end.

(** [a - b] on two datetimes. *)
Definition sub (a b : t) : result timedelta :=
  match utcoffset a, utcoffset b with
  | None, None => Ok (wall a - wall b)
  | Some oa, Some ob => Ok ((wall a - oa) - (wall b - ob))
  | _, _ => Raise TypeError
  end.

(** [a < b] and [a <= b]. *)
Definition lt (a b : t) : result bool :=
  match utcoffset a, utcoffset b with
  | None, None => Ok (wall a <? wall b)
  | Some oa, Some ob => Ok (wall a - oa <? wall b - ob)
  | _, _ => Raise TypeError
  end.

Definition le (a b : t) : result bool :=
  match utcoffset a, utcoffset b with
  | None, None => Ok (wall a <=? wall b)
  | Some oa, Some ob => Ok (wall a - oa <=? wall b - ob)
  | _, _ => Raise TypeError
  end.

(** [d + delta]: the wall clock moves, the offset stays, and a result
    outside the years 1 to 9999 raises. *)
Definition add_delta (d : t) (delta : timedelta) : result t :=
  let w := wall d + delta in
  if (0 <=? w) && (w <=? max_wall) then Ok (mk w (utcoffset d))
  else Raise OverflowError.

Definition sub_delta (d : t) (delta : timedelta) : result t :=
  add_delta d (- delta).

End datetime.

Abbreviation datetime := datetime.t.
Abbreviation timedelta := datetime.timedelta.

(** ** Constants of the module *)

Definition GRACE_BEFORE : timedelta := datetime.minutes 5.
Definition GRACE_AFTER : timedelta := datetime.minutes 15.
Definition INACTIVITY_TIMEOUT : timedelta := datetime.minutes 60.

(** ** Event and session records *)

Abbreviation ref := nat.

(** An event dictionary.  [timestamp] is the raw string, absent when the
    key is missing or holds [None]; [_correlation] is absent until the
    session builder or the grace correlator sets it.  A key of [details]
    whose value is [None] behaves as a missing one in every lookup the
    builder makes, so [details] maps keys to strings. *)
Record event := Event {
  event_id : string;
  event_name : string;
  timestamp : option string;
  parsed_time : option datetime;
  source : string;
  details : gmap string string;
  _correlation : option string
}.

Definition set_parsed_time (v : option datetime) (e : event) : event :=
  Event (event_id e) (event_name e) (timestamp e) v (source e) (details e)
        (_correlation e).

Definition set_correlation (v : string) (e : event) : event :=
  Event (event_id e) (event_name e) (timestamp e) (parsed_time e) (source e)
        (details e) (Some v).

Abbreviation heap := (list event).

Record session := Session {
  start_time : datetime;
  end_time : option datetime;
  start_reason : string;
  end_reason : option string;
  user : option string;
  source_ip : option string;
  events : list ref
}.

(** The object itself: [self.raw_events], [self.timeline], [self.sessions]. *)
Record RDPTimelineBuilder := Builder {
  raw_events : list ref;
  timeline : list ref;
  sessions : list session
}.

(** [RDPTimelineBuilder(events)] on a list of distinct dictionaries: the
    heap holds them and [raw_events] refers to them in order. *)
Definition init (evs : list event) : heap * RDPTimelineBuilder :=
  (evs, Builder (seq 0 (length evs)) [] []).

(** ** Timestamp normaliser and timeline sorter *)

(** [str.replace("Z", "+00:00")]. *)
Fixpoint replace_Z (s : string) : string :=
  match s with
  | EmptyString => EmptyString
  | String c s' =>
      if Ascii.eqb c "Z"%char then ("+00:00" +:+ replace_Z s')%string
      else String c (replace_Z s')
  end.

(** [sorted(l, key=key)]: a stable sort that only uses [<] on the keys and
    raises when a comparison does.  The insertion sort below stands for
    the sort of the interpreter; [sorted_unique] and [sorted_Ok_one_kind]
    show that any other stable sort returns the same list and raises on
    the same inputs. *)
Section sorted.
Context {A : Type} (key : A → datetime).

Fixpoint insert_sorted (x : A) (l : list A) : result (list A) :=
  match l with
  | [] => Ok [x]
  | y :: l' =>
      let! b := datetime.lt (key y) (key x) in
      if b then (let! l'' := insert_sorted x l' in Ok (y :: l''))
      else Ok (x :: y :: l')
  end.

Fixpoint sorted (l : list A) : result (list A) :=
  match l with
  | [] => Ok []
  | x :: l' => let! s := sorted l' in insert_sorted x s
  end.
End sorted.

Section Timeline.

(** [datetime.datetime.fromisoformat], a function of the standard
    library: [None] stands for the [ValueError] it raises. *)
Variable fromisoformat : string → option datetime.

(** [ts.replace] on a missing timestamp raises, which the bare [except]
    turns into [None] as well. *)
Definition _parse_timestamp (ts : option string) : option datetime :=
  match ts with
  | None => None
  | Some s => fromisoformat (replace_Z s)
  end.

(** The first loop of [build_timeline], one event.  (Every reference the
    builder holds is one of the heap; the case of a reference outside it
    is there for totality, here and in the other loops.) *)
Definition normalise_event (h : heap) (r : ref) : heap :=
  match h !! r with
  | Some e =>
      match parsed_time e with
      | None => <[r := set_parsed_time (_parse_timestamp (timestamp e)) e]> h
      | Some _ => h
      end
  | None => h
  end.

Definition normalise (h : heap) (raw : list ref) : heap :=
  foldl normalise_event h raw.

(** [x.get("parsed_time") or datetime.datetime.min]. *)
Definition sort_key (h : heap) (r : ref) : datetime :=
  match h !! r with
  | Some e => default datetime.min (parsed_time e)
  | None => datetime.min
  end.

(** [build_timeline]: the events are normalised in place whether or not
    the sort then raises; [self.timeline] is assigned only if it does
    not. *)
Definition build_timeline (w : heap * RDPTimelineBuilder)
  : (heap * RDPTimelineBuilder) * result (list ref) :=
  let '(h, self) := w in
  let h' := normalise h (raw_events self) in
  match sorted (sort_key h') (raw_events self) with
  | Ok tl => ((h', Builder (raw_events self) tl (sessions self)), Ok tl)
  | Raise e => ((h', self), Raise e)
  end.

End Timeline.

(** ** Session builder *)

(** Truthiness of the value of [details.get(k)], and Python's [or]. *)
Definition truthy (v : option string) : bool :=
  match v with
  | Some s => negb (String.eqb s "")
  | None => false
  end.

Definition py_or (a b : option string) : option string :=
  if truthy a then a else b.

Definition extract_user (d : gmap string string) : option string :=
  py_or (py_or (py_or (py_or (d !! "TargetUserName") (d !! "SubjectUserName"))
                      (d !! "User"))
               (d !! "AccountName"))
        (d !! "Param1").

Definition extract_ip (d : gmap string string) : option string :=
  py_or (py_or (py_or (py_or (d !! "IpAddress") (d !! "ClientAddress"))
                      (d !! "SourceNetworkAddress"))
               (d !! "Address"))
        (d !! "Param3").

(** The local variables of the loop of [build_sessions], the heap and
    [self.sessions]. *)
Record loop_state := LoopState {
  current_session : option session;
  last_event_time : option datetime;
  st_heap : heap;
  st_sessions : list session
}.

(** [s["end_time"] = t; s["end_reason"] = why]. *)
Definition close (t : option datetime) (why : string) (s : session) : session :=
  Session (start_time s) t (start_reason s) (Some why) (user s) (source_ip s)
          (events s).

(** [s["events"].append(ev)]. *)
Definition append_event (r : ref) (s : session) : session :=
  Session (start_time s) (end_time s) (start_reason s) (end_reason s) (user s)
          (source_ip s) (events s ++ [r]).

(** [ev["_correlation"] = v]. *)
Definition tag (r : ref) (v : string) (h : heap) : heap :=
  alter (set_correlation v) r h.

(** Lines 77 to 83: the inactivity check, the only place of the loop that
    can raise. *)
Definition inactivity_check (t : datetime) (st : loop_state) : result loop_state :=
  match current_session st, last_event_time st with
  | Some s, Some l =>
      let! gap := datetime.sub t l in
      if INACTIVITY_TIMEOUT <? gap then
        Ok (LoopState None (last_event_time st) (st_heap st)
              (st_sessions st ++ [close (Some l) "inactivity_timeout" s]))
      else Ok st
  | _, _ => Ok st
  end.

(** Lines 85 to 117: the event is interpreted. *)
Definition interpret (r : ref) (e : event) (t : datetime) (st : loop_state)
  : loop_state :=
  if String.eqb (event_id e) "21" then
    LoopState
      (Some (Session t None "lsm_session_start" None
               (extract_user (details e)) (extract_ip (details e)) [r]))
      (Some t)
      (tag r "in_session" (st_heap st))
      (match current_session st with
       | Some s => st_sessions st ++ [close (Some t) "overlapping_session_start" s]
       | None => st_sessions st
       end)
  else
    match current_session st with
    | Some s =>
        let s' := append_event r s in
        if String.eqb (event_id e) "24" || String.eqb (event_id e) "4634" then
          LoopState None (Some t) (tag r "in_session" (st_heap st))
            (st_sessions st ++ [close (Some t) "explicit_logoff" s'])
        else
          LoopState (Some s') (Some t) (tag r "in_session" (st_heap st))
            (st_sessions st)
    | None => LoopState None (Some t) (st_heap st) (st_sessions st)
    end.

(** One iteration of the loop.  An event without parsed time is skipped. *)
Definition session_step (r : ref) (st : loop_state) : result loop_state :=
  match st_heap st !! r with
  | Some e =>
      match parsed_time e with
      | Some t => let! st1 := inactivity_check t st in Ok (interpret r e t st1)
      | None => Ok st
      end
  | None => Ok st
  end.

(** Lines 119 to 123. *)
Definition close_at_log_end (st : loop_state) : list session :=
  match current_session st with
  | Some s =>
      st_sessions st ++ [close (last_event_time st) "session_open_at_log_end" s]
  | None => st_sessions st
  end.

(** ** Grace correlator *)

Definition dfir_ids : gset string :=
  {[ "4720"; "4722"; "4724"; "4728"; "4732"; "4698"; "7045"; "1102" ]}.

Definition is_dfir (h : heap) (r : ref) : bool :=
  match h !! r with
  | Some e => bool_decide (event_id e ∈ dfir_ids)
  | None => false
  end.

(** Lines 141 to 144: both bounds are computed, then [start <= t <= end]. *)
Definition in_window (s : session) (t : datetime) : result bool :=
  let! start := datetime.sub_delta (start_time s) GRACE_BEFORE in
  let! end_ := datetime.add_delta (default (start_time s) (end_time s))
                 GRACE_AFTER in
  let! b := datetime.le start t in
  if b then datetime.le t end_ else Ok false.

Definition grace_label (s : session) (t : datetime) : result string :=
  let! b := datetime.lt t (start_time s) in
  Ok (if b then "grace_before" else "grace_after")%string.

(** The inner loop over [self.sessions], left at the first match. *)
Fixpoint attach_first (r : ref) (t : datetime) (h : heap) (ss : list session)
  : result (heap * list session) :=
  match ss with
  | [] => Ok (h, [])
  | s :: rest =>
      let! b := in_window s t in
      if b then
        let! lbl := grace_label s t in
        Ok (tag r lbl h, append_event r s :: rest)
      else
        let! hs := attach_first r t h rest in
        Ok (hs.1, s :: hs.2)
  end.

(** One iteration of the outer loop over [dfir_events]. *)
Definition grace_event (r : ref) (hs : heap * list session)
  : result (heap * list session) :=
  match hs.1 !! r with
  | Some e =>
      match parsed_time e with
      | Some t => attach_first r t hs.1 hs.2
      | None => Ok hs
      end
  | None => Ok hs
  end.

Definition dfir_events (h : heap) (tl : list ref) : list ref :=
  filter (λ r, is_dfir h r = true) tl.

Definition grace_pass (h : heap) (tl : list ref) (ss : list session)
  : (heap * list session) * option exn :=
  for_each grace_event (dfir_events h tl) (h, ss).

(** ** [build_sessions] *)

(** The loop of the session builder from a state on. *)
Definition session_loop (tl : list ref) (st : loop_state)
  : loop_state * option exn :=
  for_each session_step tl st.

Definition initial_state (h : heap) (ss : list session) : loop_state :=
  LoopState None None h ss.

(** [build_sessions]: an exception leaves the method with the heap and
    [self.sessions] as they are at that point. *)
Definition build_sessions (w : heap * RDPTimelineBuilder)
  : (heap * RDPTimelineBuilder) * result (list session) :=
  let '(h, self) := w in
  let upd h' ss := (h', Builder (raw_events self) (timeline self) ss) in
  match session_loop (timeline self) (initial_state h (sessions self)) with
  | (st, Some e) => (upd (st_heap st) (st_sessions st), Raise e)
  | (st, None) =>
      match grace_pass (st_heap st) (timeline self) (close_at_log_end st) with
      | ((h', ss), Some e) => (upd h' ss, Raise e)
      | ((h', ss), None) => (upd h' ss, Ok ss)
      end
  end.

Definition get_sessions (self : RDPTimelineBuilder) : list session :=
  sessions self.

(** The two calls a caller makes, one after the other. *)
Definition run (fromisoformat : string → option datetime) (evs : list event)
  : (heap * RDPTimelineBuilder) * result (list session) :=
  match build_timeline fromisoformat (init evs) with
  | (w, Ok _) => build_sessions w
  | (w, Raise e) => (w, Raise e)
  end.

(** ** Sample data *)

Module sample.

(** 2026-01-01T00:00:00 is 739616 days after [datetime.min];
    [at_minute n] is n minutes past that midnight, UTC. *)
Definition midnight : Z := 739616 * 86400000000.

Definition at_minute (n : Z) : datetime :=
  datetime.mk (midnight + datetime.minutes n) (Some 0).

Definition naive_at_minute (n : Z) : datetime :=
  datetime.mk (midnight + datetime.minutes n) None.

(** An event as the log reader hands it over, its time already parsed. *)
Definition ev (id : string) (t : option datetime) : event :=
  Event id "" None t "Security" ∅ None.

(** A parser that accepts nothing; the samples carry their parsed
    times, so it is never asked about one of them. *)
Definition no_parse : string → option datetime := λ _, None.

(** Scenario A with a privileged-group add inside the session:
    [21@00:00, 4732@00:03, 24@00:10]. *)
Definition group_add_in_session : list event :=
  [ev "21" (Some (at_minute 0)); ev "4732" (Some (at_minute 3));
   ev "24" (Some (at_minute 10))].

(** A service installation in a second session that starts a minute
    after the first one ended: [21@00:00, 24@00:01, 21@00:02, 7045@00:03]. *)
Definition service_in_second_session : list event :=
  [ev "21" (Some (at_minute 0)); ev "24" (Some (at_minute 1));
   ev "21" (Some (at_minute 2)); ev "7045" (Some (at_minute 3))].

(** A session start with a UTC timestamp and a logon whose record has
    no timestamp at all. *)
Definition utc_and_missing : list event :=
  [Event "21" "RDP Session Connect" (Some "2026-01-01T00:00:00Z")
     (Some (at_minute 0)) "LSM" ∅ None;
   Event "4624" "Successful Logon" None None "Security" ∅ None].

(** Scenario B: [21@00:00, 4624@00:01], then the next event at 02:00. *)
Definition scenario_B : list event :=
  [ev "21" (Some (at_minute 0)); ev "4624" (Some (at_minute 1));
   ev "4624" (Some (at_minute 120))].

(** Scenario C: [21@00:00] then [21@00:05]. *)
Definition scenario_C : list event :=
  [ev "21" (Some (at_minute 0)); ev "21" (Some (at_minute 5))].

(** A start marker without timestamp. *)
Definition start_without_time : list event := [ev "21" None].

(** A session from 0001-01-01T00:00 to 00:01 and an account creation
    at 00:02. *)
Definition session_at_min : list event :=
  [ev "21" (Some datetime.min);
   ev "24" (Some (datetime.mk (datetime.minutes 1) None));
   ev "4720" (Some (datetime.mk (datetime.minutes 2) None))].

(** Naive times out of order and two records without time:
    [24@00:10, 4624@?, 21@00:00, 4624@?]. *)
Definition naive_out_of_order : list event :=
  [ev "24" (Some (naive_at_minute 10)); ev "4624" None;
   ev "21" (Some (naive_at_minute 0)); ev "4624" None].

(** A privileged-group add three minutes before a session:
    [4732@00:07, 21@00:10, 24@00:20]. *)
Definition group_add_before_session : list event :=
  [ev "4732" (Some (at_minute 7)); ev "21" (Some (at_minute 10));
   ev "24" (Some (at_minute 20))].

(** A builder whose timeline is the events in the order given. *)
Definition in_order (evs : list event) : heap * RDPTimelineBuilder :=
  (evs, Builder (seq 0 (length evs)) (seq 0 (length evs)) []).

End sample.

(** * The collaborators of the engine *)

(** ** The log reader ([src/parser.py]) *)

(** The XML namespace of the event log. *)
Definition NS : string := "{http://schemas.microsoft.com/win/2004/08/events/event}".

(** [RDP_RELEVANT_EVENTS]: the event ids the reader keeps, with their
    names. *)
Definition RDP_RELEVANT_EVENTS : gmap string string :=
  list_to_map
    [("4624", "Successful Logon"); ("4625", "Failed Logon"); ("4634", "Logoff");
     ("1149", "RDP Authentication Successful"); ("21", "RDP Session Connect");
     ("22", "Shell Start"); ("24", "Session Disconnect");
     ("4720", "User Account Created"); ("4722", "User Account Enabled");
     ("4723", "Password Change Attempt"); ("4724", "Password Reset Attempt");
     ("4725", "User Account Disabled");
     ("4732", "User Added To Privileged Group");
     ("4728", "User Added To Security Group");
     ("7045", "New Service Installed"); ("4698", "Scheduled Task Created");
     ("1102", "Security Logs Cleared");
     ("129", "Scheduled Task Registered (TaskScheduler)")]%string.

(** [xml.etree.ElementTree] as the reader uses it. *)
Module ET.

(** An element of a parsed XML document as the reader uses it: tag,
    attributes, text (absent when the element has none) and children. *)
#[warnings="-register-all"]
Inductive element :=
  Element (tag : string) (attrib : gmap string string) (text : option string)
          (children : list element).

Definition tag (el : element) : string := let 'Element t _ _ _ := el in t.
Definition attrib (el : element) : gmap string string :=
  let 'Element _ a _ _ := el in a.
Definition text (el : element) : option string := let 'Element _ _ x _ := el in x.
Definition children (el : element) : list element :=
  let 'Element _ _ _ c := el in c.

(** [el.find(path)] for a path that is one tag: the first child with that
    tag. *)
Definition find (el : element) (path : string) : option element :=
  head (filter (λ c, tag c = path) (children el)).

(** [el.iter()]: the element and its descendants in document order. *)
Fixpoint iter (el : element) : list element :=
  match el with
  | Element _ _ _ cs =>
      el :: (fix iter_all (l : list element) : list element :=
               match l with
               | [] => []
               | c :: l' => iter c ++ iter_all l'
               end) cs
  end.

End ET.

(** [s.replace(NS, "")]: the occurrences of [NS] are dropped, from the
    left, one after the other; [skip] counts the characters of an
    occurrence still to drop. *)
Fixpoint remove_NS_from (skip : nat) (s : string) : string :=
  match s with
  | EmptyString => EmptyString
  | String c s' =>
      match skip with
      | S k => remove_NS_from k s'
      | O =>
          if String.prefix NS s then remove_NS_from (String.length NS - 1) s'
          else String c (remove_NS_from 0 s')
      end
  end.

Definition remove_NS (s : string) : string := remove_NS_from 0 s.

(** [details[k] = v], where [v] may be [None]: a key that holds [None]
    is, for every reader of [details], a key that is not there. *)
Definition set_detail (k : string) (v : option string)
    (d : gmap string string) : gmap string string :=
  match v with
  | Some x => <[k := x]> d
  | None => delete k d
  end.

(** What the reader makes of one record: it skips it, keeps an event, or
    fails with the [AttributeError] of [None.strip()]. *)
Inductive outcome :=
| Skipped
| Kept (e : event)
| NoEventIdText.

Section Parser.

(** [datetime.datetime.fromisoformat] and [str.strip], functions of the
    standard library. *)
Variable fromisoformat : string → option datetime.
Variable strip : string → string.

(** [_convert_time]: an absent or empty timestamp and ["N/A"] are not
    parsed at all. *)
Definition _convert_time (ts : option string) : option datetime :=
  match ts with
  | None => None
  | Some s =>
      if String.eqb s "" || String.eqb s "N/A" then None
      else fromisoformat (replace_Z s)
  end.

(** The fields of [EventData]: one per child, under its [Name]. *)
Definition event_data_details (ed : ET.element) : gmap string string :=
  foldl (λ d c, set_detail (default ""%string (ET.attrib c !! "Name"%string)) (ET.text c) d)
        ∅ (ET.children ed).

(** The fields of [UserData], added to those there are: one per element
    with text, under its tag without the namespace. *)
Definition user_data_details (ud : ET.element) (d0 : gmap string string)
  : gmap string string :=
  foldl (λ d el,
           if truthy (ET.text el) && negb (String.eqb (ET.tag el) "")
           then set_detail (remove_NS (ET.tag el)) (ET.text el) d
           else d)
        d0 (ET.iter ud).

(** The body of the loop of [parse_evtx] on a record whose XML parses. *)
Definition parse_record (source_name : string) (root : ET.element) : outcome :=
  match ET.find root (NS +:+ "System") with
  | None => Skipped
  | Some system =>
      match ET.find system (NS +:+ "EventID") with
      | None => Skipped
      | Some eid_node =>
          match ET.text eid_node with
          | None => NoEventIdText
          | Some txt =>
              let event_id := strip txt in
              match RDP_RELEVANT_EVENTS !! event_id with
              | None => Skipped
              | Some name =>
                  let timestamp :=
                    match ET.find system (NS +:+ "TimeCreated") with
                    | Some time_node => ET.attrib time_node !! "SystemTime"%string
                    | None => Some "N/A"%string
                    end in
                  let d1 :=
                    match ET.find root (NS +:+ "EventData") with
                    | Some ed => event_data_details ed
                    | None => ∅
                    end in
                  let d2 :=
                    match ET.find root (NS +:+ "UserData") with
                    | Some ud => user_data_details ud d1
                    | None => d1
                    end in
                  Kept (Event event_id name timestamp (_convert_time timestamp)
                          source_name d2 None)
              end
          end
      end
  end.

(** [parse_evtx] on the records of a log, a record whose XML does not
    parse being [None]: the events are appended to [self.events]; the
    method stops at a record that makes it fail, with the events kept so
    far in [self.events]. *)
Fixpoint parse_evtx (source_name : string) (records : list (option ET.element))
    (events : list event) : list event * bool :=
  match records with
  | [] => (events, true)
  | None :: rest => parse_evtx source_name rest events
  | Some root :: rest =>
      match parse_record source_name root with
      | Skipped => parse_evtx source_name rest events
      | Kept e => parse_evtx source_name rest (events ++ [e])
      | NoEventIdText => (events, false)
      end
  end.

End Parser.

(** ** The loader ([src/loader.py]) *)

Module loader.


(** The five paths of a [LogLoader], and of the dictionary [load_logs]
    returns. *)
Record logs := Logs {
  security : option string;
  ts : option string;
  lsm : option string;
  system : option string;
  tasks : option string
}.

(** [s.endswith(suffix)]. *)
Definition endswith (s suffix : string) : bool :=
  bool_decide (String.list_ascii_of_string suffix `suffix_of` String.list_ascii_of_string s).

Section Loader.

(** [os.path.exists], the state of the file system, and [str.lower]. *)
Variable exists_ : string → bool.
Variable lower : string → string.



End Loader.

End loader.

(** ** The session features ([src/ml_anomaly.py]) *)

(** The member events are records of [event], dictionaries with the keys
    the log reader writes: on them the subscripts [e["event_id"]] and
    [e["details"]] of [_extract_features] find their key. *)

Module ml.

(** [e["event_id"] in ids], for the event a member refers to. *)
Definition has_id (h : heap) (ids : list string) (r : ref) : bool :=
  match h !! r with
  | Some e => bool_decide (event_id e ∈ ids)
  | None => false
  end.

(** [sum(1 for e in events if e["event_id"] in ids)]. *)
Definition count_ids (h : heap) (ids : list string) (evs : list ref) : nat :=
  length (filter (λ r, has_id h ids r) evs).

(** [a or s], [s] a string that is not empty. *)
Definition or_else (a : option string) (s : string) : string :=
  match a with
  | Some x => if truthy a then x else s
  | None => s
  end.

Definition task_name (d : gmap string string) : string :=
  or_else (py_or (py_or (d !! "TaskName") (d !! "Task")) (d !! "Name"))%string
          "UnknownTask".

Definition service_name (d : gmap string string) : string :=
  or_else (py_or (d !! "ServiceName") (d !! "Service"))%string "UnknownService".

(** The body of the loop that fills [unique_tasks] and
    [unique_services]. *)
Definition collect (h : heap) (acc : gset string * gset string) (r : ref)
  : gset string * gset string :=
  match h !! r with
  | Some e =>
      if bool_decide (event_id e ∈ ["4698"; "129"]%string)
      then ({[ task_name (details e) ]} ∪ acc.1, acc.2)
      else if String.eqb (event_id e) "7045"
      then (acc.1, {[ service_name (details e) ]} ∪ acc.2)
      else acc
  | None => acc
  end.

(** [d.hour]. *)
Definition hour (d : datetime) : Z := (datetime.wall d / 3600000000) mod 24.

Definition flag (b : bool) : nat := if b then 1%nat else 0%nat.

Section Features.

(** Python's floating-point numbers and [timedelta.total_seconds], a
    method of the standard library: the number of seconds of the
    timedelta as a float. *)
Variable float : Type.
Variable total_seconds : timedelta → float.

(** The list [_extract_features] returns, by the names of
    [feature_names].  [duration] is [None] when the feature stays at its
    initial 0. *)
Record features := Features {
  duration : option float;
  failed_logons : nat;
  successful_logons : nat;
  unique_tasks : nat;
  unique_services : nat;
  admin_added : nat;
  user_created : nat;
  logs_cleared : nat;
  total_events : nat;
  off_hours : nat;
  ip_present : nat;
  user_present : nat
}.

(** [_extract_features]: with the event keys there, the subtraction of
    the two times is the one step that can raise. *)
Definition _extract_features (h : heap) (s : session) : result features :=
  let evs := events s in
  let! duration :=
    match end_time s with
    | Some e =>
        let! d := datetime.sub e (start_time s) in Ok (Some (total_seconds d))
    | None => Ok None
    end in
  let failed := count_ids h ["4625"]%string evs in
  let success := count_ids h ["4624"; "1149"]%string evs in
  let sets := foldl (collect h) (∅, ∅) evs in
  let admin_add := count_ids h ["4732"]%string evs in
  let user_create := count_ids h ["4720"]%string evs in
  let cleared := count_ids h ["1102"]%string evs in
  let off := flag ((hour (start_time s) <? 7) || (21 <? hour (start_time s))) in
  Ok (Features duration failed success (size sets.1) (size sets.2)
        admin_add user_create cleared (length evs) off
        (flag (truthy (source_ip s))) (flag (truthy (user s)))).

End Features.

Arguments Features {float}.
Arguments duration {float}.
Arguments failed_logons {float}.
Arguments successful_logons {float}.
Arguments unique_tasks {float}.
Arguments unique_services {float}.
Arguments admin_added {float}.
Arguments user_created {float}.
Arguments logs_cleared {float}.
Arguments total_events {float}.
Arguments off_hours {float}.
Arguments ip_present {float}.
Arguments user_present {float}.
Arguments _extract_features {float}.

End ml.

(** * Vocabulary of the properties *)

Global Instance result_eq_dec {A} `{EqDecision A} : EqDecision (result A).
Proof. solve_decision. Defined.

Global Instance datetime_eq_dec : EqDecision datetime.
Proof. solve_decision. Defined.

(** ** Order *)

(** The order the sort establishes: [key a <= key b] holds. *)
Definition key_le {A} (key : A → datetime) (a b : A) : Prop :=
  datetime.le (key a) (key b) = Ok true.

(** [l'] keeps the records of [l] none of which is before another in the
    order they have in [l]. *)
Definition keeps_order {A} (key : A → datetime) (l l' : list A) : Prop :=
  ∀ (P : A → Prop) (dec : ∀ a, Decision (P a)),
    (∀ a b, P a → P b → datetime.lt (key a) (key b) = Ok false) →
    filter P l' = filter P l.

(** The timeline is in order when the key of each event is [<=] the key of
    every later one; all the keys are then of one kind. *)
Definition sorted_timeline (h : heap) (tl : list ref) : Prop :=
  StronglySorted (key_le (sort_key h)) tl.

Global Instance sorted_timeline_dec h tl : Decision (sorted_timeline h tl).
Proof.
  unfold sorted_timeline.
  assert (RelDecision (key_le (sort_key h))) by (intros a b; unfold key_le; apply _).
  apply _.
Defined.

(** Nothing is left to parse in an event: its time is there, or its
    timestamp does not parse. *)
Definition settled (fromisoformat : string → option datetime)
    (h : heap) (r : ref) : Prop :=
  ∀ e, h !! r = Some e → parsed_time e = None →
       _parse_timestamp fromisoformat (timestamp e) = None.

(** ** Events *)

(** Two states of one event dictionary that differ at most in the
    correlation tag. *)
Definition same_but_tag (e e' : event) : Prop :=
  event_id e' = event_id e ∧ event_name e' = event_name e ∧
  timestamp e' = timestamp e ∧ parsed_time e' = parsed_time e ∧
  source e' = source e ∧ details e' = details e.

Definition retagged (h h' : heap) : Prop := Forall2 same_but_tag h h'.

Global Instance same_but_tag_dec e e' : Decision (same_but_tag e e').
Proof. unfold same_but_tag. apply _. Defined.

Global Instance retagged_dec h h' : Decision (retagged h h').
Proof. unfold retagged. apply _. Defined.

(** The event has a parsed time. *)
Definition timed (h : heap) (r : ref) : Prop :=
  ∃ e t, h !! r = Some e ∧ parsed_time e = Some t.

(** The parsed time of the event, if it has one, satisfies [Q]. *)
Definition timed_in (Q : datetime → Prop) (h : heap) (r : ref) : Prop :=
  ∀ e t, h !! r = Some e → parsed_time e = Some t → Q t.

(** ** Sessions *)

Definition end_reasons : list string :=
  ["explicit_logoff"; "overlapping_session_start"; "inactivity_timeout";
   "session_open_at_log_end"]%string.

(** A session is closed and well formed. *)
Definition closed_session (s : session) : Prop :=
  (∃ e, end_time s = Some e ∧ datetime.le (start_time s) e = Ok true) ∧
  (∃ why, end_reason s = Some why ∧ why ∈ end_reasons).

(** [s'] is [s] with events appended that all satisfy [P], and nothing
    else changed. *)
Definition extends_by (P : ref → Prop) (s s' : session) : Prop :=
  start_time s' = start_time s ∧ end_time s' = end_time s ∧
  start_reason s' = start_reason s ∧ end_reason s' = end_reason s ∧
  user s' = user s ∧ source_ip s' = source_ip s ∧
  ∃ added, events s' = events s ++ added ∧ Forall P added.

(** The member lists of the sessions, one after the other. *)
Definition members (ss : list session) : list ref := concat (map events ss).

(** The start time and the end time of the session satisfy [Q]. *)
Definition session_in (Q : datetime → Prop) (s : session) : Prop :=
  Q (start_time s) ∧ ∀ e, end_time s = Some e → Q e.

(** ** States of the loop of the session builder *)

(** The sessions opened so far, the open one last. *)
Definition opened (st : loop_state) : list session :=
  st_sessions st ++ option_list (current_session st).

(** The invariant of the loop on a sorted timeline, [rest] being the
    events still to come: they are in order and not before the last event
    seen, the open session started no later than that event, and the
    sessions closed so far are well formed. *)
Definition loop_inv (rest : list ref) (st : loop_state) : Prop :=
  sorted_timeline (st_heap st) rest ∧
  (∀ l, last_event_time st = Some l →
        Forall (λ r, datetime.le l (sort_key (st_heap st) r) = Ok true) rest) ∧
  (∀ s, current_session st = Some s →
        ∃ l, last_event_time st = Some l ∧ datetime.le (start_time s) l = Ok true) ∧
  Forall closed_session (st_sessions st).

(** The times of the sessions opened so far and the last event time
    satisfy [Q]. *)
Definition state_in (Q : datetime → Prop) (st : loop_state) : Prop :=
  Forall (session_in Q) (opened st) ∧ ∀ l, last_event_time st = Some l → Q l.

(** ** Windows *)

(** The window of the contract, on the time line of the event. *)
Definition window_contains (t : datetime) (s : session) : Prop :=
  datetime.instant (start_time s) - GRACE_BEFORE ≤ datetime.instant t ∧
  datetime.instant t ≤
    datetime.instant (default (start_time s) (end_time s)) + GRACE_AFTER.

Global Instance window_contains_dec t s : Decision (window_contains t s).
Proof. unfold window_contains. apply _. Defined.

(** Both bounds of the window are datetimes. *)
Definition window_representable (s : session) : Prop :=
  0 ≤ datetime.wall (start_time s) - GRACE_BEFORE ≤ datetime.max_wall ∧
  0 ≤ datetime.wall (default (start_time s) (end_time s)) + GRACE_AFTER
    ≤ datetime.max_wall.

(** The times of the session are of the kind of [t], naive or aware. *)
Definition same_kind (t : datetime) (s : session) : Prop :=
  datetime.aware (start_time s) = datetime.aware t ∧
  datetime.aware (default (start_time s) (end_time s)) = datetime.aware t.

(** The sessions the inner loop looks at: those up to the first whose
    window contains [t]. *)
Definition scanned (t : datetime) (ss : list session) : list session :=
  match list_find (window_contains t) ss with
  | Some (i, _) => take (S i) ss
  | None => ss
  end.

(** The label of an event at [t] attached to [s]: [grace_before] exactly
    when [t] is before the start of the session. *)
Definition label_of (t : datetime) (s : session) : string :=
  if bool_decide (datetime.instant t < datetime.instant (start_time s))
  then "grace_before" else "grace_after".

(** The times of kind [k], naive or aware. *)
Definition of_kind (k : bool) (t : datetime) : Prop := datetime.aware t = k.

(** The times far enough from both ends of the calendar for the bounds of
    a window around them to be datetimes. *)
Definition in_grace_range (t : datetime) : Prop :=
  GRACE_BEFORE ≤ datetime.wall t ∧ datetime.wall t + GRACE_AFTER ≤ datetime.max_wall.

Global Instance in_grace_range_dec t : Decision (in_grace_range t).
Proof. unfold in_grace_range. apply _. Defined.

(** ** Vocabulary of the further properties *)

(** What the first loop of [build_timeline] makes of an event: a parsed
    time that is there stays, a missing one is parsed from the raw
    timestamp. *)
Definition normalised_event (fromisoformat : string → option datetime)
    (e : event) : event :=
  match parsed_time e with
  | Some _ => e
  | None => set_parsed_time (_parse_timestamp fromisoformat (timestamp e)) e
  end.

(** The sort keys of the records are all aware or all naive. *)
Definition one_kind (h : heap) (l : list ref) : Prop :=
  Forall (λ r, datetime.aware (sort_key h r) = true) l ∨
  Forall (λ r, datetime.aware (sort_key h r) = false) l.

Global Instance one_kind_dec h l : Decision (one_kind h l).
Proof. unfold one_kind. apply _. Defined.

(** The parsed time of an event, if the event is there and has one. *)
Definition time_of (h : heap) (r : ref) : option datetime :=
  h !! r ≫= parsed_time.

(** How often a record is in a list. *)
Definition occurrences (x : ref) (l : list ref) : nat :=
  length (filter (λ y, y = x) l).

(** The event carries one of the three correlation tags. *)
Definition tagged (h : heap) (r : ref) : Prop :=
  ∃ e, h !! r = Some e ∧
       (_correlation e = Some "in_session"%string ∨
        _correlation e = Some "grace_before"%string ∨
        _correlation e = Some "grace_after"%string).

Global Instance tagged_dec h r : Decision (tagged h r).
Proof.
  unfold tagged. destruct (h !! r) as [e|].
  - destruct (decide (_correlation e = Some "in_session"%string ∨
                      _correlation e = Some "grace_before"%string ∨
                      _correlation e = Some "grace_after"%string)) as [H|H].
    + left. by exists e.
    + right. by intros (? & [= <-] & ?).
  - right. by intros (? & ? & ?).
Defined.

(** The members carry a tag and the other events are as they were in
    [h0]. *)
Definition tags_follow_members (h0 h : heap) (mem : list ref) : Prop :=
  ∀ r, (r ∈ mem → tagged h r) ∧ (r ∉ mem → h !! r = h0 !! r).

(** What a session shows of the start marker that opened it: the start
    time, the start reason, the user and the address taken from the
    marker, and the first member. *)
Definition session_sig (s : session)
  : datetime * string * option string * option string * option ref :=
  (start_time s, start_reason s, user s, source_ip s, head (events s)).

(** The same five for a start marker with parsed time, nothing for any
    other event. *)
Definition marker_sig (h : heap) (r : ref)
  : option (datetime * string * option string * option string * option ref) :=
  match h !! r with
  | Some e =>
      match parsed_time e with
      | Some t =>
          if String.eqb (event_id e) "21"
          then Some (t, "lsm_session_start"%string, extract_user (details e),
                     extract_ip (details e), Some r)
          else None
      | None => None
      end
  | None => None
  end.

(** [s] has ended no later than [s'] starts. *)
Definition ends_before (s s' : session) : Prop :=
  ∃ e, end_time s = Some e ∧ datetime.le e (start_time s') = Ok true.

(** [y] has ended by [l]. *)
Definition ended_by (l : datetime) (y : session) : Prop :=
  ∃ e, end_time y = Some e ∧ datetime.le e l = Ok true.

(** What the loop of the session builder keeps true of the sessions it
    has closed: each has ended before the next starts, before the open
    one starts and by the last event time. *)
Definition seq_inv (st : loop_state) : Prop :=
  StronglySorted ends_before (st_sessions st) ∧
  (∀ c, current_session st = Some c →
        Forall (λ y, ends_before y c) (st_sessions st)) ∧
  (∀ l, last_event_time st = Some l → Forall (ended_by l) (st_sessions st)) ∧
  (last_event_time st = None → st_sessions st = []).

Global Instance of_kind_dec k t : Decision (of_kind k t).
Proof. unfold of_kind. apply _. Defined.

Global Instance timed_in_dec (Q : datetime → Prop) `{!∀ t, Decision (Q t)} h r :
  Decision (timed_in Q h r).
Proof.
  unfold timed_in. destruct (h !! r) as [e|].
  - destruct (parsed_time e) as [t|] eqn:Hp.
    + destruct (decide (Q t)) as [Hq|Hq].
      * left. intros e' t' [= <-]. rewrite Hp. intros [= <-]. exact Hq.
      * right. intros Hall. exact (Hq (Hall e t eq_refl Hp)).
    + left. intros e' t' [= <-]. rewrite Hp. intros Hn. discriminate Hn.
  - left. intros e' t' Hn. discriminate Hn.
Defined.

(** Further sample data. *)
Module more_samples.
Import sample.

(** Scenario A: [21@00:00, 4624@00:01, 24@00:10]. *)
Definition scenario_A : list event :=
  [ev "21" (Some (at_minute 0)); ev "4624" (Some (at_minute 1));
   ev "24" (Some (at_minute 10))].

(** A start marker that names its user and address, and a logon:
    [21@00:00, 4624@00:01], left open at log end. *)
Definition named_session : list event :=
  [Event "21" "RDP Session Connect" None (Some (at_minute 0)) "LSM"
     {[ "User" := "CORP\\alice"; "Address" := "10.0.0.7" ]}%string None;
   ev "4624" (Some (at_minute 1))].

(** Two sessions, one after the other:
    [21@00:00, 24@00:10, 21@00:30, 4634@00:40]. *)
Definition two_sessions : list event :=
  [ev "21" (Some (at_minute 0)); ev "24" (Some (at_minute 10));
   ev "21" (Some (at_minute 30)); ev "4634" (Some (at_minute 40))].

(** An account creation an hour before a first session, a log clearing
    ten minutes after it, and a second session that starts ten minutes
    before the end of the calendar:
    [4720@00:00, 21@01:00, 24@01:10, 1102@01:20, 21@9999-12-31T23:50]. *)
Definition session_near_max : list event :=
  [ev "4720" (Some (at_minute 0)); ev "21" (Some (at_minute 60));
   ev "24" (Some (at_minute 70)); ev "1102" (Some (at_minute 80));
   ev "21" (Some (datetime.mk (datetime.max_wall + 1 - datetime.minutes 10)
                    (Some 0)))].

(** Naive times out of order: [21@00:10, 4624@00:00]. *)
Definition unsorted_naive : list event :=
  [ev "21" (Some (naive_at_minute 10)); ev "4624" (Some (naive_at_minute 0))].

End more_samples.

(** ** Vocabulary of the properties of the collaborators *)

(** An event as [parse_evtx] builds it for the log [source_name]: id and
    name are an entry of the table, the parsed time is what
    [_convert_time] makes of the raw timestamp, and there is no
    correlation tag. *)
Definition as_read (fromisoformat : string → option datetime)
    (source_name : string) (e : event) : Prop :=
  RDP_RELEVANT_EVENTS !! event_id e = Some (event_name e) ∧
  parsed_time e = _convert_time fromisoformat (timestamp e) ∧
  source e = source_name ∧
  _correlation e = None.

(** [self.events] of a reader after [parse_evtx] has been called on each
    of the logs, in turn; a call that fails leaves what it had
    appended. *)
Definition read_logs (fromisoformat : string → option datetime)
    (strip : string → string)
    (logs : list (string * list (option ET.element))) : list event :=
  foldl (λ evs log, (parse_evtx fromisoformat strip log.1 log.2 evs).1) [] logs.

(** The key of a child of [EventData]. *)
Definition data_name (c : ET.element) : string :=
  default ""%string (ET.attrib c !! "Name"%string).

(** The ids the session builder and the grace pass react to. *)
Definition engine_ids : gset string :=
  {[ "21"; "24"; "4634" ]}%string ∪ dfir_ids.


(** The path passes [validate_file]. *)
Definition valid_path (exists_ : string → bool) (lower : string → string)
    (p : string) : Prop :=
  exists_ p = true ∧ loader.endswith (lower p) ".evtx" = true.

Module reader_samples.
Import sample.

(** A parser that knows two timestamps. *)
Definition parse_known (s : string) : option datetime :=
  if String.eqb s "2026-01-01T00:00:00+00:00" then Some (at_minute 0)
  else if String.eqb s "2026-01-01T00:10:00+00:00" then Some (at_minute 10)
  else None.

Definition el (t : string) (a : gmap string string) (x : option string)
    (cs : list ET.element) : ET.element :=
  ET.Element (NS +:+ t) a x cs.

Definition data (kv : string * string) : ET.element :=
  el "Data" {[ "Name"%string := kv.1 ]} (Some kv.2) [].

(** [<Event><System><EventID>id</EventID><TimeCreated SystemTime=time/>
    </System><EventData>...</EventData></Event>]. *)
Definition record (id : option string) (time : string)
    (fields : list (string * string)) : ET.element :=
  el "Event" ∅ None
    [el "System" ∅ None
       [el "EventID" ∅ id [];
        el "TimeCreated" {[ "SystemTime"%string := time ]} None []];
     el "EventData" ∅ None (data <$> fields)].

(** A log-on at 00:00, a record that does not parse, a process creation
    (4688, not relevant) and a disconnect at 00:10. *)
Definition lsm_log : list (option ET.element) :=
  [Some (record (Some "21") "2026-01-01T00:00:00Z"
           [("User", "CORP\\alice"); ("Address", "10.0.0.7")]);
   None;
   Some (record (Some "4688") "2026-01-01T00:05:00Z" []);
   Some (record (Some "24") "2026-01-01T00:10:00Z" [("User", "CORP\\alice")])]%string.

End reader_samples.



Global Instance valid_path_dec exists_ lower p :
  Decision (valid_path exists_ lower p).
Proof. unfold valid_path. apply _. Defined.

(** * Properties *)

(** ** Results and loops *)

Lemma bind_Ok {A B} (m : result A) (k : A → result B) (b : B) :
  bind m k = Ok b ↔ ∃ a, m = Ok a ∧ k a = Ok b.
Proof.
  destruct m; simpl; split.
  - eauto.
  - by intros (? & [= <-] & ?).
  - done.
  - by intros (? & ? & ?).
Qed.

Lemma for_each_app {S X} (body : X → S → result S) xs ys s :
  for_each body (xs ++ ys) s =
  match for_each body xs s with
  | (s', None) => for_each body ys s'
  | (s', Some e) => (s', Some e)
  end.
Proof.
  revert s. induction xs as [|x xs IH]; intros s; simpl; [done|].
  destruct (body x s); [apply IH | done].
Qed.

(** A property of the state that every completed iteration preserves
    holds of the state the loop stops in, exception or not. *)
Lemma for_each_preserves {S X} (body : X → S → result S) (P : S → Prop) xs :
  (∀ x s s', x ∈ xs → P s → body x s = Ok s' → P s') →
  ∀ s, P s → P (for_each body xs s).1.
Proof.
  induction xs as [|x xs IH]; intros Hstep s Hs; simpl; [done|].
  destruct (body x s) eqn:Hb; [|done].
  apply IH.
  - intros y ?? Hy. apply Hstep. by apply list_elem_of_further.
  - eapply Hstep; [|done..]. apply list_elem_of_here.
Qed.

(** An invariant that may mention the iterations still to come, and
    under which no iteration raises. *)
Lemma for_each_invariant {S X} (body : X → S → result S)
    (I : list X → S → Prop) :
  (∀ x xs s, I (x :: xs) s → ∃ s', body x s = Ok s' ∧ I xs s') →
  ∀ xs ys s, I (xs ++ ys) s → ∃ s', for_each body xs s = (s', None) ∧ I ys s'.
Proof.
  intros Hstep. induction xs as [|x xs IH]; intros ys s Hs; simpl; [eauto|].
  destruct (Hstep _ _ _ Hs) as (s' & -> & Hs'). eauto.
Qed.

(** ** Small checks of the embedding *)

Example replace_Z_utc :
  replace_Z "2026-01-01T00:11:56.007219Z" = "2026-01-01T00:11:56.007219+00:00"%string.
Proof. reflexivity. Qed.

(** The first candidate key that holds a non-empty value wins. *)
Example extract_user_priority :
  extract_user {[ "TargetUserName" := ""; "User" := "alice"; "Param1" := "bob" ]}%string
    = Some "alice"%string.
Proof. reflexivity. Qed.

(** When no candidate is truthy the chain yields the value of the last
    one, which may be the empty string. *)
Example extract_ip_last_operand :
  extract_ip {[ "IpAddress" := ""; "Param3" := "" ]}%string = Some ""%string ∧
  extract_ip {[ "IpAddress" := "" ]}%string = None.
Proof. split; reflexivity. Qed.

(** Subtracting five minutes from [datetime.min] is out of range, and a
    naive and an aware datetime do not compare. *)
Example datetime_edges :
  datetime.sub_delta datetime.min GRACE_BEFORE = Raise OverflowError ∧
  datetime.lt datetime.min (sample.at_minute 0) = Raise TypeError ∧
  datetime.le (sample.at_minute 0) (datetime.mk (sample.midnight + 3600000000) (Some 3600000000))
    = Ok true.
Proof. repeat split. Qed.

(** ** datetime *)

Module datetime_facts.
Import datetime.

Lemma lt_spec a b :
  aware a = aware b → lt a b = Ok (instant a <? instant b).
Proof. unfold aware, lt, instant. by destruct (utcoffset a), (utcoffset b). Qed.

Lemma le_spec a b :
  aware a = aware b → le a b = Ok (instant a <=? instant b).
Proof. unfold aware, le, instant. by destruct (utcoffset a), (utcoffset b). Qed.

Lemma sub_spec a b :
  aware a = aware b → sub a b = Ok (instant a - instant b).
Proof. unfold aware, sub, instant. by destruct (utcoffset a), (utcoffset b). Qed.

Lemma lt_Ok a b v : lt a b = Ok v → aware a = aware b.
Proof. unfold aware, lt. by destruct (utcoffset a), (utcoffset b). Qed.

Lemma le_Ok a b v : le a b = Ok v → aware a = aware b.
Proof. unfold aware, le. by destruct (utcoffset a), (utcoffset b). Qed.

Lemma lt_Raise a b e : lt a b = Raise e → e = TypeError ∧ aware a ≠ aware b.
Proof.
  unfold aware, lt. destruct (utcoffset a), (utcoffset b); naive_solver.
Qed.

(** [a <= b] holds: both are of one kind and in that order. *)
Lemma le_true a b :
  le a b = Ok true ↔ aware a = aware b ∧ instant a ≤ instant b.
Proof.
  split.
  - intros H. pose proof (le_Ok _ _ _ H) as Hk. split; [done|].
    rewrite le_spec in H by done. injection H as H. lia.
  - intros [Hk H]. rewrite le_spec by done. f_equal. lia.
Qed.

Lemma le_refl a : le a a = Ok true.
Proof. apply le_true. split; [done | lia]. Qed.

Lemma le_trans a b c : le a b = Ok true → le b c = Ok true → le a c = Ok true.
Proof. rewrite !le_true. intros [-> ?] [-> ?]. split; [done | lia]. Qed.

Lemma lt_false_le a b : lt a b = Ok false → le b a = Ok true.
Proof.
  intros H. pose proof (lt_Ok _ _ _ H) as Hk. apply le_true.
  rewrite lt_spec in H by done. injection H as H. split; [done | lia].
Qed.

Lemma lt_true_le a b : lt a b = Ok true → le a b = Ok true.
Proof.
  intros H. pose proof (lt_Ok _ _ _ H) as Hk. apply le_true.
  rewrite lt_spec in H by done. injection H as H. split; [done | lia].
Qed.

Lemma le_true_lt a b : le a b = Ok true → lt b a = Ok false.
Proof.
  rewrite le_true. intros [Hk H]. rewrite lt_spec by done. f_equal. lia.
Qed.

End datetime_facts.

(** ** The sort *)

Section sorted_facts.
Context {A : Type} (key : A → datetime).

Abbreviation key_le := (key_le key).
Abbreviation keeps_order := (keeps_order key).

Local Instance key_le_trans : Transitive key_le.
Proof. intros a b c. apply datetime_facts.le_trans. Qed.

Lemma StronglySorted_lookup_lt l i j x y :
  StronglySorted key_le l → l !! i = Some x → l !! j = Some y → (i < j)%nat →
  key_le x y.
Proof.
  intros Hl. revert i j. induction Hl as [|z l Hl IH Hz]; intros i j; [done|].
  destruct i as [|i], j as [|j]; simpl; try lia.
  - intros [= ->] Hy _. rewrite Forall_forall in Hz.
    apply Hz. by eapply list_elem_of_lookup_2.
  - intros ???. apply (IH i j); auto with lia.
Qed.

Lemma insert_sorted_perm x l l' : insert_sorted key x l = Ok l' → l' ≡ₚ x :: l.
Proof.
  revert l'. induction l as [|y l IH]; simpl; intros l' Hs.
  - by injection Hs as <-.
  - apply bind_Ok in Hs as ([] & _ & Hi).
    + apply bind_Ok in Hi as (l'' & Hl'' & [= <-]).
      rewrite (IH _ Hl''). apply Permutation_swap.
    + by injection Hi as <-.
Qed.

Lemma sorted_perm l l' : sorted key l = Ok l' → l' ≡ₚ l.
Proof.
  revert l'. induction l as [|x l IH]; simpl; intros l' Hs.
  - by injection Hs as <-.
  - apply bind_Ok in Hs as (s & Hs' & Hi).
    rewrite (insert_sorted_perm _ _ _ Hi). by rewrite (IH _ Hs').
Qed.

Lemma insert_sorted_sorted x l l' :
  StronglySorted key_le l → insert_sorted key x l = Ok l' →
  StronglySorted key_le l'.
Proof.
  revert l'. induction l as [|y l IH]; simpl; intros l' Hl Hs.
  - injection Hs as <-. repeat constructor.
  - apply StronglySorted_inv in Hl as [Hl Hy].
    apply bind_Ok in Hs as ([] & Hlt & Hi).
    + apply bind_Ok in Hi as (l'' & Hl'' & [= <-]).
      constructor; [by eapply IH|].
      rewrite (insert_sorted_perm _ _ _ Hl''). constructor; [|done].
      by apply datetime_facts.lt_true_le.
    + injection Hi as <-.
      assert (key_le x y) by by apply datetime_facts.lt_false_le.
      constructor; [by constructor|]. constructor; [done|].
      eapply Forall_impl; [exact Hy|]. intros z Hz. by etrans.
Qed.

Lemma sorted_sorted l l' : sorted key l = Ok l' → StronglySorted key_le l'.
Proof.
  revert l'. induction l as [|x l IH]; simpl; intros l' Hs.
  - injection Hs as <-. constructor.
  - apply bind_Ok in Hs as (s & Hs' & Hi). eapply insert_sorted_sorted; eauto.
Qed.

(** Records none of which is before another keep their order. *)
Lemma insert_sorted_stable (P : A → Prop) `{!∀ a, Decision (P a)} x l l' :
  (∀ a b, P a → P b → datetime.lt (key a) (key b) = Ok false) →
  insert_sorted key x l = Ok l' → filter P l' = filter P (x :: l).
Proof.
  intros HP. revert l'. induction l as [|y l IH]; simpl; intros l' Hs.
  - by injection Hs as <-.
  - apply bind_Ok in Hs as ([] & Hlt & Hi); [|by injection Hi as <-].
    apply bind_Ok in Hi as (l'' & Hl'' & [= <-]).
    rewrite filter_cons, (IH _ Hl''), !filter_cons.
    destruct (decide (P y)) as [Hy|]; [|done].
    destruct (decide (P x)) as [Hx|]; [|done].
    specialize (HP y x Hy Hx). congruence.
Qed.

Lemma sorted_stable (P : A → Prop) `{!∀ a, Decision (P a)} l l' :
  (∀ a b, P a → P b → datetime.lt (key a) (key b) = Ok false) →
  sorted key l = Ok l' → filter P l' = filter P l.
Proof.
  intros HP. revert l'. induction l as [|x l IH]; simpl; intros l' Hs.
  - by injection Hs as <-.
  - apply bind_Ok in Hs as (s & Hs' & Hi).
    rewrite (insert_sorted_stable P _ _ _ HP Hi), !filter_cons.
    by rewrite (IH _ Hs').
Qed.

(** A sorted list is a fixed point. *)
Lemma sorted_fixed l : StronglySorted key_le l → sorted key l = Ok l.
Proof.
  induction 1 as [|x l Hl IH Hx]; simpl; [done|].
  rewrite IH; simpl. destruct l as [|y l]; simpl; [done|].
  apply Forall_cons in Hx as [Hxy _].
  by rewrite (datetime_facts.le_true_lt _ _ Hxy).
Qed.

(** The sort returns when the keys are all of one kind. *)
Lemma insert_sorted_returns x l :
  Forall (λ y, datetime.aware (key y) = datetime.aware (key x)) l →
  ∃ l', insert_sorted key x l = Ok l'.
Proof.
  induction 1 as [|y l Hy _ [l' IH]]; simpl; [eauto|].
  rewrite datetime_facts.lt_spec by done; simpl.
  case_match; [|eauto]. rewrite IH; simpl. eauto.
Qed.

Lemma insert_sorted_Raise x l e : insert_sorted key x l = Raise e → e = TypeError.
Proof.
  induction l as [|y l IH]; simpl; [done|].
  destruct (datetime.lt (key y) (key x)) as [[]|e'] eqn:Hlt; simpl.
  - destruct (insert_sorted key x l); simpl; [done|]. intros [= <-]. by apply IH.
  - done.
  - intros [= <-]. by apply datetime_facts.lt_Raise in Hlt as [-> _].
Qed.

Lemma sorted_Raise l e : sorted key l = Raise e → e = TypeError.
Proof.
  induction l as [|x l IH]; simpl; [done|].
  destruct (sorted key l) as [s|e'] eqn:Hs'; simpl.
  - apply insert_sorted_Raise.
  - intros [= <-]. by apply IH.
Qed.

Lemma sorted_returns l k :
  Forall (λ y, datetime.aware (key y) = k) l → ∃ l', sorted key l = Ok l'.
Proof.
  induction 1 as [|x l Hx Hl [s IH]]; simpl; [eauto|].
  rewrite IH; simpl. apply insert_sorted_returns.
  rewrite (sorted_perm _ _ IH).
  eapply Forall_impl; [exact Hl|]. simpl. congruence.
Qed.

(** It raises as soon as two of them are of different kinds. *)
Lemma sorted_Ok_one_kind l l' x y i j :
  sorted key l = Ok l' → l !! i = Some x → l !! j = Some y → i ≠ j →
  datetime.aware (key x) = datetime.aware (key y).
Proof.
  intros Hok Hx Hy Hij.
  pose proof (sorted_sorted _ _ Hok) as Hs.
  pose proof (sorted_perm _ _ Hok) as Hp.
  symmetry in Hp. apply Permutation_inj in Hp as (_ & f & Hf & Hl).
  rewrite Hl in Hx, Hy.
  assert (f i ≠ f j) as Hne by (intros ?; apply Hij; by apply Hf).
  destruct (decide (f i < f j)%nat).
  - eapply datetime_facts.le_Ok.
    eapply (StronglySorted_lookup_lt l' (f i) (f j)); eauto.
  - symmetry. eapply datetime_facts.le_Ok.
    eapply (StronglySorted_lookup_lt l' (f j) (f i)); eauto. lia.
Qed.

Lemma stable_sort_unique l1 l2 :
  l1 ≡ₚ l2 → StronglySorted key_le l1 → StronglySorted key_le l2 →
  keeps_order l1 l2 → l1 = l2.
Proof.
  revert l2. induction l1 as [|x1 t1 IH]; intros l2 Hp Hs1 Hs2 Hk.
  - by apply Permutation_nil_l in Hp.
  - destruct l2 as [|x2 t2]; [by apply Permutation_nil_r in Hp|].
    apply StronglySorted_inv in Hs1 as [Hs1 Hx1].
    apply StronglySorted_inv in Hs2 as [Hs2 Hx2].
    rewrite Forall_forall in Hx1, Hx2.
    assert (key_le x1 x2) as H12.
    { assert (x2 ∈ x1 :: t1) as [->|Hin]%elem_of_cons
        by (rewrite Hp; apply list_elem_of_here);
        [apply datetime_facts.le_refl | by apply Hx1]. }
    assert (key_le x2 x1) as H21.
    { assert (x1 ∈ x2 :: t2) as [->|Hin]%elem_of_cons
        by (rewrite <- Hp; apply list_elem_of_here);
        [apply datetime_facts.le_refl | by apply Hx2]. }
    set (P := λ a, key_le a x1 ∧ key_le x1 a).
    assert (∀ a, Decision (P a)) as dec
      by (intros a; unfold P, key_le; apply _).
    assert (∀ a b, P a → P b → datetime.lt (key a) (key b) = Ok false) as HP.
    { intros a b [_ Ha] [Hb _]. apply datetime_facts.le_true_lt.
      change (key_le b a). by etrans. }
    pose proof (Hk P dec HP) as Hf. rewrite !filter_cons in Hf.
    destruct (decide (P x1)) as [_|[]];
      [|split; apply datetime_facts.le_refl].
    destruct (decide (P x2)) as [_|[]]; [|by split].
    injection Hf as <- _. f_equal.
    apply IH; [by eapply Permutation_cons_inv | done | done |].
    intros Q decQ HQ. specialize (Hk Q decQ HQ). rewrite !filter_cons in Hk.
    destruct (decide (Q x2)); [by injection Hk | done].
Qed.

Lemma sorted_unique l l1 l2 :
  sorted key l = Ok l1 →
  l2 ≡ₚ l → StronglySorted key_le l2 → keeps_order l l2 → l2 = l1.
Proof.
  intros Hok Hp Hs Hk. symmetry. apply stable_sort_unique.
  - by rewrite (sorted_perm _ _ Hok).
  - by eapply sorted_sorted.
  - done.
  - intros P dec HP. rewrite (Hk P dec HP). symmetry. by eapply sorted_stable.
Qed.

End sorted_facts.

(** ** The heap *)

Global Instance same_but_tag_refl : Reflexive same_but_tag.
Proof. by intros e. Qed.

Global Instance same_but_tag_trans : Transitive same_but_tag.
Proof. unfold same_but_tag. intros e1 e2 e3 ??. intuition congruence. Qed.

Global Instance retagged_refl : Reflexive retagged.
Proof. intros h. unfold retagged. reflexivity. Qed.

Global Instance retagged_trans : Transitive retagged.
Proof. intros h1 h2 h3. unfold retagged. intros ??. by etrans. Qed.

Lemma tag_retagged r v h : retagged h (tag r v h).
Proof.
  apply Forall2_lookup. intros i. unfold tag. rewrite list_lookup_alter.
  case_decide; subst; destruct (h !! i); simpl; by constructor.
Qed.

Lemma retagged_lookup h h' r e :
  retagged h h' → h !! r = Some e → ∃ e', h' !! r = Some e' ∧ same_but_tag e e'.
Proof. intros Hh He. by eapply Forall2_lookup_l. Qed.

Lemma retagged_lookup_r h h' r e' :
  retagged h h' → h' !! r = Some e' → ∃ e, h !! r = Some e ∧ same_but_tag e e'.
Proof. intros Hh He. by eapply Forall2_lookup_r. Qed.

Lemma retagged_sort_key h h' r : retagged h h' → sort_key h' r = sort_key h r.
Proof.
  intros Hh. unfold sort_key. destruct (h !! r) as [e|] eqn:He.
  - destruct (retagged_lookup _ _ _ _ Hh He) as (e' & -> & Hee).
    by rewrite (proj1 (proj2 (proj2 (proj2 Hee)))).
  - destruct (h' !! r) as [e'|] eqn:He'; [|done].
    destruct (retagged_lookup_r _ _ _ _ Hh He') as (e & ? & _). congruence.
Qed.

Lemma retagged_is_dfir h h' r : retagged h h' → is_dfir h' r = is_dfir h r.
Proof.
  intros Hh. unfold is_dfir. destruct (h !! r) as [e|] eqn:He.
  - destruct (retagged_lookup _ _ _ _ Hh He) as (e' & -> & Hee).
    by rewrite (proj1 Hee).
  - destruct (h' !! r) as [e'|] eqn:He'; [|done].
    destruct (retagged_lookup_r _ _ _ _ Hh He') as (e & ? & _). congruence.
Qed.

Lemma dfir_events_retagged h h' tl :
  retagged h h' → dfir_events h' tl = dfir_events h tl.
Proof.
  intros Hh. unfold dfir_events. apply list_filter_iff. intros r.
  by rewrite (retagged_is_dfir _ _ _ Hh).
Qed.

Lemma sorted_timeline_retagged h h' tl :
  retagged h h' → sorted_timeline h tl → sorted_timeline h' tl.
Proof.
  intros Hh. unfold sorted_timeline, key_le.
  induction 1 as [|r tl _ IH Hr]; constructor; [done|].
  eapply Forall_impl; [exact Hr|]. simpl. intros r'.
  by rewrite !(retagged_sort_key _ _ _ Hh).
Qed.

(** ** The timestamp normaliser and the sorter *)

Section Timeline_facts.
Variable fromisoformat : string → option datetime.

Abbreviation normalise_event := (normalise_event fromisoformat).
Abbreviation normalise := (normalise fromisoformat).
Abbreviation build_timeline := (build_timeline fromisoformat).
Abbreviation settled := (settled fromisoformat).

Lemma normalise_event_settled_id h r : settled h r → normalise_event h r = h.
Proof.
  intros Hs. unfold normalise_event.
  destruct (h !! r) as [e|] eqn:He; [|done].
  destruct (parsed_time e) eqn:Hp; [done|].
  rewrite (Hs e He Hp). apply list_insert_id. rewrite He. f_equal.
  destruct e; simpl in *; by subst.
Qed.

Lemma normalise_event_settles h r : settled (normalise_event h r) r.
Proof.
  unfold normalise_event. intros e'.
  destruct (h !! r) as [e|] eqn:He; [|congruence].
  destruct (parsed_time e) eqn:Hp.
  - intros ??. simplify_eq.
  - rewrite list_lookup_insert_eq by by eapply lookup_lt_Some.
    intros [= <-]. simpl. auto.
Qed.

Lemma normalise_event_keeps_settled h r r' :
  settled h r' → settled (normalise_event h r) r'.
Proof.
  intros Hs. destruct (decide (r = r')) as [<-|Hne];
    [apply normalise_event_settles|].
  unfold normalise_event.
  destruct (h !! r) as [e|] eqn:He; [|done].
  destruct (parsed_time e) eqn:Hp; [done|].
  intros e'. rewrite list_lookup_insert_ne by done. apply Hs.
Qed.

Lemma normalise_keeps_settled h raw r :
  settled h r → settled (normalise h raw) r.
Proof.
  revert h. induction raw as [|x raw IH]; intros h Hs; simpl; [done|].
  by apply IH, normalise_event_keeps_settled.
Qed.

Lemma normalise_settles h raw : Forall (settled (normalise h raw)) raw.
Proof.
  revert h. induction raw as [|x raw IH]; intros h; simpl; constructor.
  - apply normalise_keeps_settled, normalise_event_settles.
  - apply IH.
Qed.

Lemma normalise_settled_id h raw : Forall (settled h) raw → normalise h raw = h.
Proof.
  induction 1 as [|x raw Hx _ IH]; simpl; [done|].
  by rewrite normalise_event_settled_id.
Qed.

(** What the sorter returns: the same records, in order of their keys,
    an event without time counting as [datetime.min]. *)
Lemma build_timeline_sorted h self w tl :
  build_timeline (h, self) = (w, Ok tl) →
  w = (normalise h (raw_events self),
       Builder (raw_events self) tl (sessions self)) ∧
  tl ≡ₚ raw_events self ∧ sorted_timeline w.1 tl.
Proof.
  unfold build_timeline.
  destruct (sorted _ _) as [tl'|] eqn:Hs; [|done].
  intros [= <- <-]. split; [done|]. split.
  - by eapply sorted_perm.
  - by eapply sorted_sorted.
Qed.

End Timeline_facts.

(** ** The session builder *)

Lemma sort_key_timed h r e t :
  h !! r = Some e → parsed_time e = Some t → sort_key h r = t.
Proof. unfold sort_key. by intros -> ->. Qed.

Lemma inactivity_check_Ok t st st1 :
  inactivity_check t st = Ok st1 →
  st_heap st1 = st_heap st ∧ last_event_time st1 = last_event_time st ∧
  ((current_session st1 = current_session st ∧ st_sessions st1 = st_sessions st)
   ∨ (∃ s l gap, current_session st = Some s ∧ last_event_time st = Some l ∧
        datetime.sub t l = Ok gap ∧ INACTIVITY_TIMEOUT < gap ∧
        current_session st1 = None ∧
        st_sessions st1 = st_sessions st ++ [close (Some l) "inactivity_timeout" s])).
Proof.
  unfold inactivity_check.
  destruct (current_session st) as [s|] eqn:Hc; [|intros [= <-]; auto].
  destruct (last_event_time st) as [l|] eqn:Hl; [|intros [= <-]; auto].
  intros Hb. apply bind_Ok in Hb as (gap & Hgap & Hb).
  destruct (INACTIVITY_TIMEOUT <? gap) eqn:Hlt; injection Hb as <-; simpl.
  - split; [done|]. split; [done|]. right. exists s, l, gap.
    apply Z.ltb_lt in Hlt. by rewrite Hgap.
  - rewrite Hc, Hl. auto.
Qed.

Lemma interpret_retagged r e t st :
  retagged (st_heap st) (st_heap (interpret r e t st)).
Proof.
  unfold interpret. repeat case_match; simpl; (reflexivity || apply tag_retagged).
Qed.

Lemma interpret_last r e t st : last_event_time (interpret r e t st) = Some t.
Proof. unfold interpret. by repeat case_match. Qed.

Lemma interpret_prefix r e t st :
  st_sessions st `prefix_of` st_sessions (interpret r e t st).
Proof.
  unfold interpret. repeat case_match; simpl; (reflexivity || by apply prefix_app_r).
Qed.

Lemma session_step_retagged r st st' :
  session_step r st = Ok st' → retagged (st_heap st) (st_heap st').
Proof.
  unfold session_step. destruct (st_heap st !! r) as [e|]; [|by intros [= <-]].
  destruct (parsed_time e) as [t|]; [|by intros [= <-]].
  intros Hb. apply bind_Ok in Hb as (st1 & H1 & [= <-]).
  apply inactivity_check_Ok in H1 as (<- & _). apply interpret_retagged.
Qed.

Lemma session_step_prefix r st st' :
  session_step r st = Ok st' → st_sessions st `prefix_of` st_sessions st'.
Proof.
  unfold session_step. destruct (st_heap st !! r) as [e|]; [|by intros [= <-]].
  destruct (parsed_time e) as [t|]; [|by intros [= <-]].
  intros Hb. apply bind_Ok in Hb as (st1 & H1 & [= <-]).
  etrans; [|apply interpret_prefix].
  apply inactivity_check_Ok in H1 as (_ & _ & [[_ ->]|(? & ? & ? & _ & _ & _ & _ & _ & ->)]);
    [done | by apply prefix_app_r].
Qed.

Lemma session_loop_retagged tl st :
  retagged (st_heap st) (st_heap (session_loop tl st).1).
Proof.
  unfold session_loop.
  apply (for_each_preserves session_step (λ st', retagged (st_heap st) (st_heap st')));
    [|done].
  intros r s s' _ Hs Hstep. etrans; [exact Hs|]. by eapply session_step_retagged.
Qed.

Lemma session_loop_prefix tl st :
  st_sessions st `prefix_of` st_sessions (session_loop tl st).1.
Proof.
  unfold session_loop.
  apply (for_each_preserves session_step
           (λ st', st_sessions st `prefix_of` st_sessions st')); [|done].
  intros r s s' _ Hs Hstep. etrans; [exact Hs|]. by eapply session_step_prefix.
Qed.

Lemma closed_session_close s t why :
  datetime.le (start_time s) t = Ok true → why ∈ end_reasons →
  closed_session (close (Some t) why s).
Proof. intros ??. split; simpl; eauto. Qed.

Lemma loop_inv_initial h tl ss :
  sorted_timeline h tl → Forall closed_session ss →
  loop_inv tl (initial_state h ss).
Proof. intros ??. by repeat split. Qed.

Lemma loop_inv_step r rest st :
  loop_inv (r :: rest) st →
  ∃ st', session_step r st = Ok st' ∧ loop_inv rest st'.
Proof.
  intros (Hsort & Hlast & Hcur & Hout).
  apply StronglySorted_inv in Hsort as [Hsort Hr].
  assert (loop_inv rest st) as Hskip.
  { split; [done|]. split; [|done].
    intros l Hl. specialize (Hlast l Hl). by apply Forall_cons in Hlast as [_ ?]. }
  unfold session_step.
  destruct (st_heap st !! r) as [e|] eqn:He; [|eauto].
  destruct (parsed_time e) as [t|] eqn:Ht; [|eauto].
  pose proof (sort_key_timed _ _ _ _ He Ht) as Hkey.
  (* the inactivity check does not raise and keeps the invariant *)
  assert (∃ st1, inactivity_check t st = Ok st1 ∧
            st_heap st1 = st_heap st ∧
            Forall closed_session (st_sessions st1) ∧
            (∀ s, current_session st1 = Some s →
                  datetime.le (start_time s) t = Ok true)) as (st1 & -> & Hh1 & Hout1 & Hcur1).
  { unfold inactivity_check.
    destruct (current_session st) as [s|] eqn:Hc;
      [|exists st; rewrite Hc; by repeat split].
    destruct (Hcur s eq_refl) as (l & Hl & Hsl). rewrite Hl.
    specialize (Hlast l Hl). apply Forall_cons in Hlast as [Hlt _].
    rewrite Hkey in Hlt.
    rewrite datetime_facts.sub_spec
      by (symmetry; by eapply datetime_facts.le_Ok).
    simpl. case_match; eexists; (split; [done|]); simpl.
    - split; [done|]. split; [|done].
      apply Forall_app. split; [done|]. constructor; [|done].
      apply closed_session_close; [done|]. unfold end_reasons. set_solver.
    - rewrite Hc. split; [done|]. split; [done|]. intros ? [= <-].
      by eapply datetime_facts.le_trans. }
  simpl. eexists. split; [done|].
  assert (retagged (st_heap st) (st_heap (interpret r e t st1))) as Hre.
  { rewrite <- Hh1. apply interpret_retagged. }
  split; [by eapply sorted_timeline_retagged|].
  split.
  { intros l. rewrite interpret_last. intros [= <-].
    eapply Forall_impl; [exact Hr|]. simpl. intros r'. unfold key_le.
    by rewrite Hkey, (retagged_sort_key _ _ _ Hre). }
  unfold interpret.
  repeat case_match; simpl; (split; [intros s' Hs'; simplify_eq/=; eauto using datetime_facts.le_refl|]);
    rewrite ?Forall_app; repeat split; try done;
    constructor; try done;
    (apply closed_session_close; [simpl; eauto | unfold end_reasons; set_solver]).
Qed.

(** On a sorted timeline the loop of the session builder does not raise. *)
Lemma session_loop_sorted pre rest st :
  loop_inv (pre ++ rest) st →
  ∃ st', session_loop pre st = (st', None) ∧ loop_inv rest st'.
Proof. apply (for_each_invariant session_step loop_inv). apply loop_inv_step. Qed.

(** ** The grace correlator *)

Global Instance extends_by_refl P : Reflexive (extends_by P).
Proof. intros s. repeat split. exists []. by rewrite app_nil_r. Qed.

Global Instance extends_by_trans P : Transitive (extends_by P).
Proof.
  intros s1 s2 s3 (? & ? & ? & ? & ? & ? & a1 & E1 & F1)
    (? & ? & ? & ? & ? & ? & a2 & E2 & F2).
  repeat split; try congruence.
  exists (a1 ++ a2). rewrite E2, E1, app_assoc, Forall_app. done.
Qed.

Lemma extends_by_append P r s : P r → extends_by P s (append_event r s).
Proof. intros ?. repeat split. exists [r]. by rewrite Forall_singleton. Qed.

Lemma extends_by_impl (P Q : ref → Prop) s s' :
  (∀ r, P r → Q r) → extends_by P s s' → extends_by Q s s'.
Proof.
  intros HPQ (? & ? & ? & ? & ? & ? & a & ? & Ha). repeat split; try done.
  exists a. split; [done|]. by eapply Forall_impl.
Qed.

Lemma timed_retagged h h' r : retagged h h' → timed h' r → timed h r.
Proof.
  intros Hh (e' & t & He' & Ht).
  destruct (retagged_lookup_r _ _ _ _ Hh He') as (e & He & Hee).
  exists e, t. split; [done|]. rewrite <- Ht. symmetry. apply Hee.
Qed.

Lemma attach_first_Ok r t h ss h' ss' :
  attach_first r t h ss = Ok (h', ss') →
  retagged h h' ∧ Forall2 (extends_by (λ r', r' = r)) ss ss'.
Proof.
  revert h' ss'. induction ss as [|s rest IH]; simpl; intros h' ss' Hb.
  - injection Hb as <- <-. split; [reflexivity | constructor].
  - apply bind_Ok in Hb as ([] & _ & Hb).
    + apply bind_Ok in Hb as (lbl & _ & [= <- <-]). split; [apply tag_retagged|].
      constructor; [by apply extends_by_append | reflexivity].
    + apply bind_Ok in Hb as ([h1 ss1] & H1 & [= <- <-]).
      destruct (IH _ _ H1). split; [done|]. constructor; [reflexivity | done].
Qed.

Lemma grace_event_Ok r h ss h' ss' :
  grace_event r (h, ss) = Ok (h', ss') →
  retagged h h' ∧ Forall2 (extends_by (timed h)) ss ss'.
Proof.
  unfold grace_event; simpl.
  destruct (h !! r) as [e|] eqn:He;
    [|intros [= <- <-]; split; reflexivity].
  destruct (parsed_time e) as [t|] eqn:Ht;
    [|intros [= <- <-]; split; reflexivity].
  intros Hb. apply attach_first_Ok in Hb as [? Hss]. split; [done|].
  eapply Forall2_impl; [exact Hss|]. intros s s'. apply extends_by_impl.
  intros ? ->. by exists e, t.
Qed.

(** The frame of the grace pass, whether it finishes or raises. *)
Lemma grace_pass_frame h tl ss :
  retagged h (grace_pass h tl ss).1.1 ∧
  Forall2 (extends_by (timed h)) ss (grace_pass h tl ss).1.2.
Proof.
  unfold grace_pass.
  apply (for_each_preserves grace_event
           (λ hs, retagged h hs.1 ∧ Forall2 (extends_by (timed h)) ss hs.2));
    [|split; reflexivity].
  intros r [h1 ss1] [h2 ss2] _ [Hh Hss] Hstep; simpl in *.
  apply grace_event_Ok in Hstep as [Hh' Hss']. split; [by etrans|].
  etrans; [exact Hss|]. eapply Forall2_impl; [exact Hss'|].
  intros s s'. apply extends_by_impl. intros r'. by apply timed_retagged.
Qed.

Lemma add_delta_in_range d delta :
  0 ≤ datetime.wall d + delta ≤ datetime.max_wall →
  datetime.add_delta d delta =
    Ok (datetime.mk (datetime.wall d + delta) (datetime.utcoffset d)).
Proof.
  intros [H1 H2]. unfold datetime.add_delta.
  apply Z.leb_le in H1, H2. by rewrite H1, H2.
Qed.

Lemma in_window_spec s t :
  same_kind t s → window_representable s →
  in_window s t = Ok (bool_decide (window_contains t s)).
Proof.
  intros [Hk1 Hk2] [Hr1 Hr2]. unfold in_window, datetime.sub_delta.
  rewrite !add_delta_in_range by (unfold GRACE_BEFORE in *; lia). simpl.
  set (lo := datetime.mk _ _). set (hi := datetime.mk _ _).
  assert (datetime.aware lo = datetime.aware t) as Hlo by done.
  assert (datetime.aware hi = datetime.aware t) as Hhi by done.
  assert (datetime.instant lo = datetime.instant (start_time s) - GRACE_BEFORE)
    as Elo.
  { unfold lo, datetime.instant; simpl.
    destruct (datetime.utcoffset (start_time s)); lia. }
  assert (datetime.instant hi =
          datetime.instant (default (start_time s) (end_time s)) + GRACE_AFTER)
    as Ehi.
  { unfold hi, datetime.instant; simpl.
    destruct (datetime.utcoffset (default (start_time s) (end_time s))); lia. }
  rewrite datetime_facts.le_spec by done. simpl.
  destruct (Z.leb_spec (datetime.instant lo) (datetime.instant t)).
  - rewrite datetime_facts.le_spec by done. f_equal.
    destruct (Z.leb_spec (datetime.instant t) (datetime.instant hi)).
    + symmetry. apply bool_decide_eq_true. unfold window_contains. lia.
    + symmetry. apply bool_decide_eq_false. unfold window_contains. lia.
  - f_equal. symmetry. apply bool_decide_eq_false. unfold window_contains. lia.
Qed.

Lemma grace_label_spec s t :
  same_kind t s → grace_label s t = Ok (label_of t s).
Proof.
  intros [Hk _]. unfold grace_label, label_of.
  rewrite datetime_facts.lt_spec by done. simpl. f_equal.
  destruct (Z.ltb_spec (datetime.instant t) (datetime.instant (start_time s)));
    [by rewrite bool_decide_eq_true_2 | by rewrite bool_decide_eq_false_2 by lia].
Qed.

(** The inner loop attaches the event to the first session whose window
    contains its time, and to that one only. *)
Lemma attach_first_spec r t h ss :
  Forall (λ s, same_kind t s ∧ window_representable s) (scanned t ss) →
  attach_first r t h ss =
  Ok (match list_find (window_contains t) ss with
      | Some (i, s) => (tag r (label_of t s) h, <[i := append_event r s]> ss)
      | None => (h, ss)
      end).
Proof.
  unfold scanned. induction ss as [|s rest IH]; simpl; [done|].
  destruct (decide (window_contains t s)) as [Hw|Hw]; simpl.
  - rewrite take_0. intros [[Hk Hr] _]%Forall_cons.
    rewrite in_window_spec, bool_decide_eq_true_2 by done. simpl.
    by rewrite grace_label_spec.
  - destruct (list_find (window_contains t) rest) as [[i s']|] eqn:Hf; simpl.
    + intros [[Hk Hr] Hrest]%Forall_cons.
      rewrite in_window_spec, bool_decide_eq_false_2 by done. simpl.
      by rewrite (IH Hrest).
    + intros [[Hk Hr] Hrest]%Forall_cons.
      rewrite in_window_spec, bool_decide_eq_false_2 by done. simpl.
      by rewrite (IH Hrest).
Qed.

(** *** What a pass that returns has done *)

Lemma add_delta_Ok d delta d' :
  datetime.add_delta d delta = Ok d' →
  d' = datetime.mk (datetime.wall d + delta) (datetime.utcoffset d).
Proof. unfold datetime.add_delta. case_match; by intros [= <-]. Qed.

(** If the window test returns, it says whether the window of the
    contract contains the time. *)
Lemma in_window_Ok s t b :
  in_window s t = Ok b → b = bool_decide (window_contains t s).
Proof.
  unfold in_window, datetime.sub_delta. intros Hb.
  apply bind_Ok in Hb as (lo & Hlo & Hb).
  apply bind_Ok in Hb as (hi & Hhi & Hb).
  apply bind_Ok in Hb as (b1 & H1 & Hb).
  apply add_delta_Ok in Hlo, Hhi.
  assert (datetime.instant lo = datetime.instant (start_time s) - GRACE_BEFORE)
    as Elo.
  { subst lo. unfold datetime.instant; simpl.
    destruct (datetime.utcoffset (start_time s)); lia. }
  assert (datetime.instant hi =
          datetime.instant (default (start_time s) (end_time s)) + GRACE_AFTER)
    as Ehi.
  { subst hi. unfold datetime.instant; simpl.
    destruct (datetime.utcoffset (default (start_time s) (end_time s))); lia. }
  pose proof (datetime_facts.le_Ok _ _ _ H1) as Hk1.
  rewrite (datetime_facts.le_spec _ _ Hk1) in H1. injection H1 as <-.
  destruct (Z.leb_spec (datetime.instant lo) (datetime.instant t)).
  - pose proof (datetime_facts.le_Ok _ _ _ Hb) as Hk2.
    rewrite (datetime_facts.le_spec _ _ Hk2) in Hb. injection Hb as <-.
    destruct (Z.leb_spec (datetime.instant t) (datetime.instant hi)).
    + symmetry. apply bool_decide_eq_true. unfold window_contains. lia.
    + symmetry. apply bool_decide_eq_false. unfold window_contains. lia.
  - injection Hb as <-. symmetry. apply bool_decide_eq_false.
    unfold window_contains. lia.
Qed.

Lemma grace_label_Ok s t lbl : grace_label s t = Ok lbl → lbl = label_of t s.
Proof.
  unfold grace_label, label_of. intros Hb.
  apply bind_Ok in Hb as (b & Hlt & [= <-]).
  pose proof (datetime_facts.lt_Ok _ _ _ Hlt) as Hk.
  rewrite (datetime_facts.lt_spec _ _ Hk) in Hlt. injection Hlt as <-.
  destruct (Z.ltb_spec (datetime.instant t) (datetime.instant (start_time s)));
    [by rewrite bool_decide_eq_true_2 | by rewrite bool_decide_eq_false_2 by lia].
Qed.

(** The inner loop, when it returns, has attached the event to the
    first session whose window contains its time and to no other. *)
Lemma attach_first_returned r t h ss res :
  attach_first r t h ss = Ok res →
  res = match list_find (window_contains t) ss with
        | Some (i, s) => (tag r (label_of t s) h, <[i := append_event r s]> ss)
        | None => (h, ss)
        end.
Proof.
  revert res. induction ss as [|s rest IH]; simpl; intros res Hb.
  - by injection Hb as <-.
  - apply bind_Ok in Hb as (b & Hw & Hb).
    apply in_window_Ok in Hw as ->.
    destruct (decide (window_contains t s)) as [Hw|Hw]; simpl.
    + rewrite bool_decide_eq_true_2 in Hb by done.
      apply bind_Ok in Hb as (lbl & Hl & [= <-]).
      by apply grace_label_Ok in Hl as ->.
    + rewrite bool_decide_eq_false_2 in Hb by done.
      apply bind_Ok in Hb as (hs & Hr & [= <-]).
      rewrite (IH _ Hr).
      by destruct (list_find (window_contains t) rest) as [[i s']|].
Qed.

Lemma grace_event_returned r h ss res :
  grace_event r (h, ss) = Ok res →
  res = match time_of h r with
        | Some t =>
            match list_find (window_contains t) ss with
            | Some (i, s) =>
                (tag r (label_of t s) h, <[i := append_event r s]> ss)
            | None => (h, ss)
            end
        | None => (h, ss)
        end.
Proof.
  unfold grace_event, time_of; simpl.
  destruct (h !! r) as [e|]; simpl; [|by intros [= <-]].
  destruct (parsed_time e) as [t|]; [|by intros [= <-]].
  apply attach_first_returned.
Qed.

(** The first window that contains a time is found by the times of the
    sessions alone. *)
Lemma first_window_extends P t ss ss' :
  Forall2 (extends_by P) ss ss' →
  match list_find (window_contains t) ss with
  | Some (i, s) =>
      ∃ s', list_find (window_contains t) ss' = Some (i, s') ∧
            start_time s' = start_time s
  | None => list_find (window_contains t) ss' = None
  end.
Proof.
  induction 1 as [|s s' k k' Hs _ IH]; simpl; [done|].
  assert (window_contains t s ↔ window_contains t s') as Hw.
  { destruct Hs as (Hst & Hen & _). unfold window_contains. by rewrite Hst, Hen. }
  destruct (decide (window_contains t s)) as [Hc|Hc].
  - rewrite decide_True by tauto. exists s'. split; [done|]. by destruct Hs.
  - rewrite decide_False by tauto.
    destruct (list_find (window_contains t) k) as [[i s0]|]; simpl.
    + destruct IH as (s0' & -> & Hst). by exists s0'.
    + by rewrite IH.
Qed.

Lemma first_window_extends_r P t ss ss' j s' :
  Forall2 (extends_by P) ss ss' →
  list_find (window_contains t) ss' = Some (j, s') →
  ∃ s, list_find (window_contains t) ss = Some (j, s).
Proof.
  intros Hss Hf. pose proof (first_window_extends P t ss ss' Hss) as Hw.
  destruct (list_find (window_contains t) ss) as [[i s]|].
  - destruct Hw as (s0 & Hf' & _). rewrite Hf in Hf'. injection Hf' as -> _.
    by exists s.
  - by rewrite Hf in Hw.
Qed.

(** One iteration of the grace pass, seen from a record [r] with time
    [t]: [r] is appended to the session at [j] exactly if the iteration
    is the one of [r] and [j] is the first session whose window contains
    [t], and the tag of [r] is then the label of that session. *)
Lemma grace_event_first_window x h0 ss0 h' ss' r e t :
  grace_event x (h0, ss0) = Ok (h', ss') →
  h0 !! r = Some e → parsed_time e = Some t →
  (∀ j b b', ss0 !! j = Some b → ss' !! j = Some b' →
     ∃ add, events b' = events b ++ add ∧
            (r ∈ add ↔
             x = r ∧ ∃ s, list_find (window_contains t) ss0 = Some (j, s))) ∧
  match list_find (window_contains t) ss0 with
  | Some (i, s) =>
      if decide (x = r)
      then h' !! r = Some (set_correlation (label_of t s) e)
      else h' !! r = Some e
  | None => h' !! r = Some e
  end.
Proof.
  intros Hstep He Ht. apply grace_event_returned in Hstep.
  assert (∀ j b b', ss0 !! j = Some b → ss0 !! j = Some b' →
            ∃ add, events b' = events b ++ add ∧
                   (r ∈ add ↔ False)) as Hsame.
  { intros j b b' Hb Hb'. rewrite Hb in Hb'. injection Hb' as <-.
    exists []. rewrite app_nil_r. split; [done|]. by rewrite elem_of_nil. }
  destruct (decide (x = r)) as [->|Hne].
  - unfold time_of in Hstep. rewrite He in Hstep. simpl in Hstep.
    rewrite Ht in Hstep.
    destruct (list_find (window_contains t) ss0) as [[i s]|] eqn:Hf;
      injection Hstep as -> ->.
    + apply list_find_Some in Hf as (Hi & _ & _). split.
      * intros j b b' Hb Hb'. destruct (decide (j = i)) as [->|Hji].
        -- rewrite list_lookup_insert_eq in Hb' by (by eapply lookup_lt_Some).
           injection Hb' as <-. rewrite Hi in Hb. injection Hb as <-.
           exists [r]. split; [done|]. split; [by eauto|].
           intros _. apply list_elem_of_here.
        -- rewrite list_lookup_insert_ne in Hb' by done.
           destruct (Hsame j b b' Hb Hb') as (add & Hadd & Hiff).
           exists add. split; [done|]. rewrite Hiff. split; [done|].
           intros (_ & s0 & [= ? _]). done.
      * unfold tag. by rewrite list_lookup_alter_eq, He.
    + split; [|done]. intros j b b' Hb Hb'.
      destruct (Hsame j b b' Hb Hb') as (add & Hadd & Hiff).
      exists add. split; [done|]. rewrite Hiff. split; [done|].
      by intros (_ & s0 & ?).
  - assert (h' !! r = Some e ∧
            ∀ j b b', ss0 !! j = Some b → ss' !! j = Some b' →
              ∃ add, events b' = events b ++ add ∧ (r ∈ add ↔ False))
      as [Hh Hss].
    { destruct (time_of h0 x) as [tx|]; [|by injection Hstep as -> ->].
      destruct (list_find (window_contains tx) ss0) as [[i s]|] eqn:Hf;
        injection Hstep as -> ->; [|done].
      apply list_find_Some in Hf as (Hi & _ & _). split.
      - unfold tag. by rewrite list_lookup_alter_ne.
      - intros j b b' Hb Hb'. destruct (decide (j = i)) as [->|Hji].
        + rewrite list_lookup_insert_eq in Hb' by (by eapply lookup_lt_Some).
          injection Hb' as <-. rewrite Hi in Hb. injection Hb as <-.
          exists [x]. split; [done|]. rewrite list_elem_of_singleton.
          split; [by intros ->|done].
        + rewrite list_lookup_insert_ne in Hb' by done.
          by apply Hsame with j. }
    split.
    + intros j b b' Hb Hb'. destruct (Hss j b b' Hb Hb') as (add & Hadd & Hiff).
      exists add. split; [done|]. rewrite Hiff. split; [done|]. by intros [? _].
    + by destruct (list_find (window_contains t) ss0) as [[i s]|].
Qed.

(** The grace pass, when it returns: a record [r] of time [t] has been
    appended to the session at [j] exactly if the pass has looked at [r]
    and [j] is the first session whose window contains [t]; in that case
    [r] carries the label of that session, and in any other its
    dictionary is as it was. *)
Lemma grace_loop_first_window D h0 ss0 h1 ss1 r e t :
  for_each grace_event D (h0, ss0) = ((h1, ss1), None) →
  h0 !! r = Some e → parsed_time e = Some t →
  (∀ j b s, ss0 !! j = Some b → ss1 !! j = Some s →
     ∃ added, events s = events b ++ added ∧
              (r ∈ added ↔
               r ∈ D ∧ ∃ s', list_find (window_contains t) ss0 = Some (j, s'))) ∧
  match list_find (window_contains t) ss0 with
  | Some (i, s) =>
      if decide (r ∈ D)
      then _correlation <$> h1 !! r = Some (Some (label_of t s))
      else h1 !! r = Some e
  | None => h1 !! r = Some e
  end.
Proof.
  revert h0 ss0 e. induction D as [|x D IH]; intros h0 ss0 e Hrun He Ht.
  - injection Hrun as <- <-. split.
    + intros j b s Hb Hs. rewrite Hb in Hs. injection Hs as <-.
      exists []. rewrite app_nil_r. split; [done|]. rewrite elem_of_nil.
      split; [done|]. by intros [[] _].
    + destruct (list_find (window_contains t) ss0) as [[i s]|]; [|done].
      by rewrite decide_False by apply not_elem_of_nil.
  - simpl in Hrun.
    destruct (grace_event x (h0, ss0)) as [[h' ss']|] eqn:Hstep; [|done].
    destruct (grace_event_first_window _ _ _ _ _ r e t Hstep He Ht)
      as [Hmem Htag].
    destruct (grace_event_Ok _ _ _ _ _ Hstep) as [_ Hext].
    pose proof (first_window_extends _ t _ _ Hext) as Hfw.
    assert (∃ e', h' !! r = Some e' ∧ parsed_time e' = Some t) as (e' & He' & Ht').
    { destruct (list_find (window_contains t) ss0) as [[i s]|];
        [destruct (decide (x = r))|]; eauto. }
    destruct (IH _ _ _ Hrun He' Ht') as [IHmem IHtag]. split.
    + intros j b s Hb Hs.
      destruct (Forall2_lookup_l _ _ _ _ _ Hext Hb) as (b' & Hb' & _).
      destruct (Hmem j b b' Hb Hb') as (add & Hadd & Hiff).
      destruct (IHmem j b' s Hb' Hs) as (added & Hadded & Hiff').
      exists (add ++ added). rewrite Hadded, Hadd, app_assoc. split; [done|].
      rewrite elem_of_app, Hiff, Hiff', elem_of_cons. split.
      * intros [[-> Hj]|[Hr (s' & Hj)]]; [by auto|].
        split; [by right|]. by eapply first_window_extends_r.
      * intros [[->|Hr] (s' & Hj)]; [left; by eauto|].
        right. split; [done|]. rewrite Hj in Hfw.
        destruct Hfw as (s0 & ? & _). by exists s0.
    + destruct (list_find (window_contains t) ss0) as [[i s]|] eqn:Hf.
      * destruct Hfw as (s0 & Hf0 & Hst). rewrite Hf0 in IHtag.
        assert (label_of t s0 = label_of t s) as Hlbl
          by (unfold label_of; by rewrite Hst).
        rewrite Hlbl in IHtag.
        destruct (decide (r ∈ D)) as [Hin|Hnin].
        -- by rewrite decide_True by (by right).
        -- destruct (decide (x = r)) as [->|Hne].
           ++ rewrite decide_True by apply list_elem_of_here.
              rewrite IHtag. rewrite Htag in He'. by injection He' as <-.
           ++ rewrite decide_False by (by intros [->|?]%elem_of_cons).
              congruence.
      * rewrite Hfw in IHtag. congruence.
Qed.

(** A record the grace pass does not look at stays as it is. *)
Lemma grace_pass_leaves_other h tl ss r :
  is_dfir h r = false → (grace_pass h tl ss).1.1 !! r = h !! r.
Proof.
  intros Hr. unfold grace_pass.
  apply (for_each_preserves grace_event (λ hs, hs.1 !! r = h !! r)); [|done].
  intros x [h1 ss1] [h2 ss2] Hx Hh Hstep; simpl in *.
  apply list_elem_of_filter in Hx as [Hx _].
  assert (x ≠ r) as Hne by (intros ->; congruence).
  apply grace_event_returned in Hstep.
  destruct (time_of h1 x) as [tx|]; [|by injection Hstep as -> ->].
  destruct (list_find (window_contains tx) ss1) as [[i s]|];
    injection Hstep as -> ->; [|done].
  unfold tag. by rewrite list_lookup_alter_ne.
Qed.

(** ** The whole of [build_sessions] *)

(** *** The tag of a member of the session builder *)

(** The loop writes one tag, [in_session], and only on the event it is
    at. *)
Lemma interpret_heap r e t st :
  st_heap (interpret r e t st) = st_heap st ∨
  st_heap (interpret r e t st) = tag r "in_session" (st_heap st).
Proof. unfold interpret. repeat case_match; simpl; auto. Qed.

Lemma session_step_heap r st st' :
  session_step r st = Ok st' →
  st_heap st' = st_heap st ∨ st_heap st' = tag r "in_session" (st_heap st).
Proof.
  unfold session_step.
  destruct (st_heap st !! r) as [e|]; [|intros [= <-]; by left].
  destruct (parsed_time e) as [t|]; [|intros [= <-]; by left].
  intros Hb. apply bind_Ok in Hb as (st1 & H1 & [= <-]).
  apply inactivity_check_Ok in H1 as (<- & _). apply interpret_heap.
Qed.

Lemma tag_lookup r v h e :
  h !! r = Some e → _correlation <$> tag r v h !! r = Some (Some v).
Proof. intros He. unfold tag. by rewrite list_lookup_alter_eq, He. Qed.

Lemma tag_in_session_stays r' r h :
  _correlation <$> h !! r = Some (Some "in_session"%string) →
  _correlation <$> tag r' "in_session" h !! r = Some (Some "in_session"%string).
Proof.
  intros Hr. unfold tag. destruct (decide (r' = r)) as [->|Hne].
  - rewrite list_lookup_alter_eq. by destruct (h !! r).
  - by rewrite list_lookup_alter_ne.
Qed.

Lemma session_loop_in_session_stays tl st r :
  _correlation <$> st_heap st !! r = Some (Some "in_session"%string) →
  _correlation <$> st_heap (session_loop tl st).1 !! r
    = Some (Some "in_session"%string).
Proof.
  unfold session_loop.
  apply (for_each_preserves session_step
           (λ st', _correlation <$> st_heap st' !! r
                     = Some (Some "in_session"%string))).
  intros x s s' _ Hs Hstep.
  destruct (session_step_heap _ _ _ Hstep) as [-> | ->];
    [done | by apply tag_in_session_stays].
Qed.

(** [build_sessions] on a timeline split at one of its events. *)
Lemma build_sessions_split h self pre r post st st2 :
  timeline self = pre ++ r :: post →
  session_loop pre (initial_state h (sessions self)) = (st, None) →
  session_step r st = Ok st2 →
  (build_sessions (h, self)).1.1 =
    match session_loop post st2 with
    | (st3, Some _) => st_heap st3
    | (st3, None) =>
        (grace_pass (st_heap st3) (timeline self) (close_at_log_end st3)).1.1
    end.
Proof.
  intros Htl Hpre Hstep. unfold build_sessions. rewrite Htl at 1.
  unfold session_loop in *. rewrite for_each_app, Hpre. simpl. rewrite Hstep.
  destruct (for_each session_step post st2) as [st3 [ex|]]; [done|].
  by destruct (grace_pass _ _ _) as [[h' ss] [ex|]].
Qed.

(** The tag [in_session] of an event the grace pass does not look at is
    the tag the event has when [build_sessions] is done, returned or
    raised. *)
Lemma in_session_tag_lands h self pre r post st st2 e :
  timeline self = pre ++ r :: post →
  session_loop pre (initial_state h (sessions self)) = (st, None) →
  session_step r st = Ok st2 →
  st_heap st !! r = Some e → event_id e ∉ dfir_ids →
  _correlation <$> st_heap st2 !! r = Some (Some "in_session"%string) →
  _correlation <$> (build_sessions (h, self)).1.1 !! r
    = Some (Some "in_session"%string).
Proof.
  intros Htl Hpre Hstep He Hid Htag.
  rewrite (build_sessions_split h self pre r post st st2) by done.
  pose proof (session_loop_in_session_stays post st2 r Htag) as Hstay.
  pose proof (session_loop_retagged post st2) as Hre.
  destruct (session_loop post st2) as [st3 [ex|]]; simpl in *; [done|].
  rewrite grace_pass_leaves_other; [done|].
  rewrite (retagged_is_dfir (st_heap st) (st_heap st3))
    by (etrans; [by eapply session_step_retagged | done]).
  unfold is_dfir. rewrite He. by apply bool_decide_eq_false.
Qed.

Lemma closed_session_extends P s s' :
  extends_by P s s' → closed_session s → closed_session s'.
Proof.
  intros (Hs & He & _ & Hr & _) [Hend Hwhy]. unfold closed_session.
  by rewrite Hs, He, Hr.
Qed.

Lemma closed_sessions_extend P ss ss' :
  Forall2 (extends_by P) ss ss' → Forall closed_session ss →
  Forall closed_session ss'.
Proof.
  induction 1 as [|s s' k k' Hs _ IH]; [done|].
  intros [??]%Forall_cons.
  constructor; [by eapply closed_session_extends | by apply IH].
Qed.

Lemma close_at_log_end_prefix st : st_sessions st `prefix_of` close_at_log_end st.
Proof.
  unfold close_at_log_end. destruct (current_session st);
    [by apply prefix_app_r | done].
Qed.

Lemma close_at_log_end_closed st :
  loop_inv [] st → Forall closed_session (close_at_log_end st).
Proof.
  intros (_ & _ & Hcur & Hout). unfold close_at_log_end.
  destruct (current_session st) as [s|]; [|done].
  destruct (Hcur s eq_refl) as (l & -> & Hl).
  apply Forall_app. split; [done|]. constructor; [|done].
  apply closed_session_close; [done|]. unfold end_reasons. set_solver.
Qed.

(** On a sorted timeline [build_sessions] gets through the loop and
    hands the sessions, the open one closed, to the grace pass. *)
Lemma build_sessions_sorted h self :
  sorted_timeline h (timeline self) → Forall closed_session (sessions self) →
  ∃ st, session_loop (timeline self) (initial_state h (sessions self)) = (st, None) ∧
        loop_inv [] st ∧
        let g := grace_pass (st_heap st) (timeline self) (close_at_log_end st) in
        build_sessions (h, self) =
          ((g.1.1, Builder (raw_events self) (timeline self) g.1.2),
           match g.2 with None => Ok g.1.2 | Some e => Raise e end).
Proof.
  intros Hs Hss.
  destruct (session_loop_sorted (timeline self) [] (initial_state h (sessions self)))
    as (st & Hloop & Hinv).
  { rewrite app_nil_r. by apply loop_inv_initial. }
  exists st. split; [done|]. split; [done|].
  unfold build_sessions. rewrite Hloop. simpl.
  by destruct (grace_pass _ _ _) as [[h' ss] [e|]].
Qed.

(** A session found at a position of a list the grace pass starts from is
    found there afterwards, with events appended at most. *)
Lemma grace_pass_lookup h tl ss i s :
  ss !! i = Some s →
  ∃ s', (grace_pass h tl ss).1.2 !! i = Some s' ∧ extends_by (timed h) s s'.
Proof.
  intros Hi. destruct (grace_pass_frame h tl ss) as [_ Hf].
  by eapply Forall2_lookup_l.
Qed.

(** The session that is open in a state of the loop comes out at the
    position after the sessions closed so far. *)
Lemma open_session_lands rest st st' s :
  session_loop rest st = (st', None) → current_session st = Some s →
  ∃ s', close_at_log_end st' !! length (st_sessions st) = Some s' ∧
        start_time s' = start_time s ∧ events s `prefix_of` events s'.
Proof.
  unfold session_loop. revert st s.
  induction rest as [|r rest IH]; intros st s; simpl.
  - intros [= <-] Hc. unfold close_at_log_end. rewrite Hc.
    rewrite lookup_app_r, Nat.sub_diag by done. simpl. eauto.
  - destruct (session_step r st) as [st1|] eqn:Hstep; [|done].
    intros Hrest Hc.
    assert ((∃ s1, current_session st1 = Some s1 ∧
                   st_sessions st1 = st_sessions st ∧
                   start_time s1 = start_time s ∧
                   events s `prefix_of` events s1) ∨
            (∃ s1, st_sessions st1 !! length (st_sessions st) = Some s1 ∧
                   start_time s1 = start_time s ∧
                   events s `prefix_of` events s1)) as [Hopen|Hclosed].
    { revert Hstep. unfold session_step.
      destruct (st_heap st !! r) as [e|]; [|intros [= <-]; left; eauto].
      destruct (parsed_time e) as [t|]; [|intros [= <-]; left; eauto].
      intros Hb. apply bind_Ok in Hb as (st0 & H0 & [= <-]).
      apply inactivity_check_Ok in H0
        as (_ & _ & [[Hc0 Hs0]|(s0 & l & gap & Hc0 & _ & _ & _ & Hn0 & Hs0)]).
      - rewrite Hc in Hc0. unfold interpret. rewrite Hc0, Hs0.
        repeat case_match; simpl.
        + right. rewrite lookup_app_r, Nat.sub_diag by done. simpl. eauto.
        + right. rewrite lookup_app_r, Nat.sub_diag by done. simpl.
          eexists. split; [done|]. split; [done|]. by apply prefix_app_r.
        + left. eexists. split; [done|]. split; [done|]. split; [done|].
          by apply prefix_app_r.
      - right. rewrite Hc in Hc0. injection Hc0 as <-.
        exists (close (Some l) "inactivity_timeout" s). split; [|done].
        eapply prefix_lookup_Some; [|apply interpret_prefix].
        rewrite Hs0, lookup_app_r, Nat.sub_diag by done. done. }
    + destruct Hopen as (s1 & Hc1 & Hs1 & Hst & Hev).
      destruct (IH _ _ Hrest Hc1) as (s' & Hl & Hst' & Hev').
      exists s'. rewrite <- Hs1. split; [done|]. split; [congruence|]. by etrans.
    + destruct Hclosed as (s1 & Hl & Hst & Hev). exists s1. split; [|done].
      eapply prefix_lookup_Some; [|apply close_at_log_end_prefix].
      eapply prefix_lookup_Some; [exact Hl|].
      pose proof (session_loop_prefix rest st1) as Hp.
      unfold session_loop in Hp. by rewrite Hrest in Hp.
Qed.

(** The run of [build_sessions] seen from an event [r] of a sorted
    timeline: the loop reaches it without raising, gets past it and
    through the rest, and the sessions the method leaves are those of the
    grace pass on the final state. *)
Lemma build_sessions_through h self pre r post :
  sessions self = [] → timeline self = pre ++ r :: post →
  sorted_timeline h (timeline self) →
  ∃ st st2 st3,
    session_loop pre (initial_state h []) = (st, None) ∧
    retagged h (st_heap st) ∧
    session_step r st = Ok st2 ∧
    session_loop post st2 = (st3, None) ∧
    retagged h (st_heap st3) ∧
    sessions (build_sessions (h, self)).1.2 =
      (grace_pass (st_heap st3) (timeline self) (close_at_log_end st3)).1.2.
Proof.
  intros Hnil Htl Hsort.
  assert (loop_inv (pre ++ r :: post) (initial_state h [])) as Hinv.
  { rewrite <- Htl. by apply loop_inv_initial. }
  destruct (session_loop_sorted _ _ _ Hinv) as (st & Hpre & Hinv1).
  destruct (loop_inv_step _ _ _ Hinv1) as (st2 & Hstep & Hinv2).
  destruct (session_loop_sorted post [] st2) as (st3 & Hpost & _);
    [by rewrite app_nil_r|].
  assert (session_loop (timeline self) (initial_state h (sessions self))
          = (st3, None)) as Hall.
  { rewrite Htl, Hnil. unfold session_loop in *.
    rewrite for_each_app, Hpre. simpl. by rewrite Hstep. }
  exists st, st2, st3. split; [done|].
  pose proof (session_loop_retagged pre (initial_state h [])) as Hre1.
  rewrite Hpre in Hre1. split; [done|]. split; [done|]. split; [done|].
  pose proof (session_loop_retagged (timeline self)
                (initial_state h (sessions self))) as Hre3.
  rewrite Hall in Hre3. split; [done|].
  unfold build_sessions. rewrite Hall.
  by destruct (grace_pass _ _ _) as [[h' ss] [e|]].
Qed.

(** A session closed by the time the loop is past [r] is found at its
    position in the sessions the method leaves. *)
Lemma closed_session_stays tl st2 st3 post i s :
  session_loop post st2 = (st3, None) → st_sessions st2 !! i = Some s →
  ∃ s', (grace_pass (st_heap st3) tl (close_at_log_end st3)).1.2 !! i = Some s' ∧
        start_time s' = start_time s ∧ end_time s' = end_time s ∧
        end_reason s' = end_reason s ∧ events s `prefix_of` events s'.
Proof.
  intros Hpost Hi.
  pose proof (session_loop_prefix post st2) as Hp. rewrite Hpost in Hp.
  assert (close_at_log_end st3 !! i = Some s) as Hi3.
  { eapply prefix_lookup_Some; [|apply close_at_log_end_prefix].
    by eapply prefix_lookup_Some. }
  destruct (grace_pass_lookup (st_heap st3) tl _ _ _ Hi3)
    as (s' & Hs' & Hst & Hen & _ & Hre & _ & _ & added & Hadd & _).
  exists s'. repeat split; try done. rewrite Hadd. by apply prefix_app_r.
Qed.

(** The session open once the loop is past [r] is found at the position
    after the sessions closed by then. *)
Lemma open_session_stays tl st2 st3 post s :
  session_loop post st2 = (st3, None) → current_session st2 = Some s →
  ∃ s', (grace_pass (st_heap st3) tl (close_at_log_end st3)).1.2
          !! length (st_sessions st2) = Some s' ∧
        start_time s' = start_time s ∧ events s `prefix_of` events s'.
Proof.
  intros Hpost Hc.
  destruct (open_session_lands _ _ _ _ Hpost Hc) as (s1 & Hl & Hst & Hev).
  destruct (grace_pass_lookup (st_heap st3) tl _ _ _ Hl)
    as (s' & Hs' & Hst' & _ & _ & _ & _ & _ & added & Hadd & _).
  exists s'. split; [done|]. split; [congruence|].
  etrans; [exact Hev|]. rewrite Hadd. by apply prefix_app_r.
Qed.

(** *** Where the times of the sessions come from *)

(** The start and end times of the sessions are times of events of the
    timeline: what holds of the parsed times of the events holds of
    them. *)
Section times_of_sessions.
Variable Q : datetime → Prop.

Abbreviation timed_in := (timed_in Q).
Abbreviation session_in := (session_in Q).
Abbreviation state_in := (state_in Q).

Lemma timed_in_retagged h h' r : retagged h h' → timed_in h r → timed_in h' r.
Proof.
  intros Hre Hr e t He Ht.
  destruct (retagged_lookup_r _ _ _ _ Hre He) as (e0 & He0 & Hee).
  apply (Hr e0 t He0). rewrite <- Ht. symmetry. apply Hee.
Qed.

Lemma session_step_in r st st' :
  timed_in (st_heap st) r → state_in st →
  session_step r st = Ok st' → state_in st'.
Proof.
  intros Hr [Hop Hlast]. unfold session_step.
  destruct (st_heap st !! r) as [e|] eqn:He; [|by intros [= <-]].
  destruct (parsed_time e) as [t|] eqn:Ht; [|by intros [= <-]].
  specialize (Hr e t He Ht).
  intros Hb. apply bind_Ok in Hb as (st1 & H1 & [= <-]).
  assert (state_in st1) as [Hop1 Hlast1].
  { apply inactivity_check_Ok in H1
      as (_ & Hl1 & [[Hc1 Hs1]|(s & l & gap & Hc & Hl & _ & _ & Hc1 & Hs1)]).
    - unfold state_in, opened. by rewrite Hc1, Hs1, Hl1.
    - unfold state_in, opened in *. rewrite Hc1, Hs1, Hl1. split; [|done].
      rewrite Hc in Hop. simpl in *. rewrite app_nil_r.
      apply Forall_app in Hop as [Hout [Hs _]%Forall_cons].
      apply Forall_app. split; [done|]. constructor; [|done].
      destruct Hs as [Hs _]. split; [done|]. simpl. intros ? [= <-]. eauto. }
  split; [|rewrite interpret_last; by intros ? [= <-]].
  unfold opened, interpret in *.
  destruct (current_session st1) as [s|]; simpl in *;
    rewrite ?app_nil_r in *; repeat case_match; simpl; rewrite ?app_nil_r;
    try done;
    repeat match goal with
    | H : Forall _ (_ ++ _) |- _ => apply Forall_app in H as [? ?]
    | H : Forall _ [_] |- _ => apply Forall_singleton in H as [? ?]
    | |- Forall _ (_ ++ _) => apply Forall_app; split
    | |- Forall _ [_] => apply Forall_singleton
    | |- Forall _ (_ :: _) => constructor
    | |- session_in _ => split; simpl; [done|]; by intros ? [= <-]
    end; try done.
Qed.

Lemma session_loop_in h tl :
  Forall (timed_in h) tl → state_in (session_loop tl (initial_state h [])).1.
Proof.
  intros Htl. unfold session_loop.
  assert (retagged h (st_heap (for_each session_step tl (initial_state h [])).1)
          ∧ state_in (for_each session_step tl (initial_state h [])).1)
    as [_ ?]; [|done].
  apply (for_each_preserves session_step
           (λ st, retagged h (st_heap st) ∧ state_in st)).
  - intros r st st' Hin [Hre Hk] Hstep. split.
    + etrans; [exact Hre|]. by eapply session_step_retagged.
    + eapply session_step_in; [|exact Hk|exact Hstep].
      rewrite Forall_forall in Htl. eapply timed_in_retagged; eauto.
  - split; [reflexivity|]. split; [constructor | done].
Qed.

Lemma close_at_log_end_in st :
  state_in st → Forall session_in (close_at_log_end st).
Proof.
  intros [Hop Hlast]. unfold close_at_log_end, opened in *.
  destruct (current_session st) as [s|]; simpl in *;
    [|by rewrite app_nil_r in Hop].
  apply Forall_app in Hop as [? [[Hs _] _]%Forall_cons].
  apply Forall_app. split; [done|]. apply Forall_singleton. split; [done|].
  simpl. intros e He. by apply Hlast.
Qed.

Lemma session_in_default s : session_in s → Q (default (start_time s) (end_time s)).
Proof. intros [Hs He]. destruct (end_time s) as [e|]; simpl; auto. Qed.

End times_of_sessions.

(** The timed events of a sorted timeline are all naive or all aware. *)
Lemma sorted_timeline_one_kind h tl :
  sorted_timeline h tl → ∃ k, Forall (timed_in (of_kind k) h) tl.
Proof.
  intros Hs. destruct tl as [|r0 tl]; [by exists true|].
  exists (datetime.aware (sort_key h r0)).
  apply StronglySorted_inv in Hs as [_ Hr0]. constructor.
  - intros e t He Ht. unfold of_kind. by rewrite (sort_key_timed _ _ _ _ He Ht).
  - eapply Forall_impl; [exact Hr0|]. simpl. intros r Hle e t He Ht.
    apply datetime_facts.le_Ok in Hle. unfold of_kind.
    by rewrite Hle, (sort_key_timed _ _ _ _ He Ht).
Qed.

Lemma session_kinds_same_kind k t P ss ss' :
  Forall (session_in (of_kind k)) ss → Forall2 (extends_by P) ss ss' →
  datetime.aware t = k → Forall (same_kind t) ss'.
Proof.
  intros Hss Hext Ht. revert Hss.
  induction Hext as [|s s' l l' Hs _ IH]; [done|].
  intros [Hk ?]%Forall_cons. constructor; [|by apply IH].
  pose proof (session_in_default _ _ Hk) as Hd. destruct Hk as [Hk _].
  destruct Hs as (Es & Ee & _). unfold same_kind, of_kind in *.
  by rewrite Es, Ee, Ht.
Qed.

Lemma sessions_window_representable P ss ss' :
  Forall (session_in in_grace_range) ss → Forall2 (extends_by P) ss ss' →
  Forall window_representable ss'.
Proof.
  intros Hss Hext. revert Hss.
  induction Hext as [|s s' l l' Hs _ IH]; [done|].
  intros [Hr ?]%Forall_cons. constructor; [|by apply IH].
  pose proof (session_in_default _ _ Hr) as [Hd1 Hd2]. destruct Hr as [[Hr1 Hr2] _].
  destruct Hs as (Es & Ee & _). unfold window_representable.
  rewrite Es, Ee. unfold GRACE_BEFORE, GRACE_AFTER, datetime.minutes in *. lia.
Qed.

(** *** The method returns *)

(** The grace pass finishes when the times of the sessions and of the
    events are of one kind and in range. *)
Lemma grace_pass_returns k h tl ss :
  Forall (timed_in (of_kind k) h) tl →
  Forall (session_in (of_kind k)) ss →
  Forall (session_in in_grace_range) ss →
  (grace_pass h tl ss).2 = None.
Proof.
  intros Htl Hk Hrange. unfold grace_pass.
  assert (Forall (timed_in (of_kind k) h) (dfir_events h tl)) as Hd.
  { rewrite Forall_forall in Htl |- *. intros r Hr.
    apply list_elem_of_filter in Hr as [_ Hr]. by apply Htl. }
  destruct (for_each_invariant grace_event
              (λ rest hs, Forall (timed_in (of_kind k) h) rest ∧
                          retagged h hs.1 ∧
                          Forall2 (extends_by (λ _, True)) ss hs.2)
              ) with (xs := dfir_events h tl) (ys := @nil ref) (s := (h, ss))
    as (hs & -> & _); [| |done].
  - intros r rest [h1 ss1] ([Hr Hrest]%Forall_cons & Hre & Hext). simpl in *.
    assert (∃ hs', grace_event r (h1, ss1) = Ok hs') as [[h2 ss2] Hev].
    { unfold grace_event. simpl.
      destruct (h1 !! r) as [e|] eqn:He; [|eauto].
      destruct (parsed_time e) as [t|] eqn:Ht; [|eauto].
      rewrite attach_first_spec; [eauto|].
      assert (datetime.aware t = k) as Hkt
        by exact (timed_in_retagged _ _ _ _ Hre Hr e t He Ht).
      pose proof (session_kinds_same_kind _ _ _ _ _ Hk Hext Hkt) as Hsame.
      pose proof (sessions_window_representable _ _ _ Hrange Hext) as Hrep.
      assert (Forall (λ s, same_kind t s ∧ window_representable s) ss1) as Hall
        by (apply Forall_and; by split).
      unfold scanned. destruct (list_find _ _) as [[i ?]|]; [|done].
      by apply Forall_take. }
    exists (h2, ss2). split; [done|]. split; [done|].
    apply grace_event_Ok in Hev as [Hre' Hext']. split; [by etrans|].
    etrans; [exact Hext|]. eapply Forall2_impl; [exact Hext'|].
    intros s s'. by apply extends_by_impl.
  - rewrite app_nil_r. split; [done|]. split; reflexivity.
Qed.

(** On a sorted timeline whose times are in range [build_sessions]
    returns. *)
Lemma build_sessions_returns h self :
  sessions self = [] → sorted_timeline h (timeline self) →
  Forall (timed_in in_grace_range h) (timeline self) →
  ∃ ss, (build_sessions (h, self)).2 = Ok ss ∧
        sessions (build_sessions (h, self)).1.2 = ss.
Proof.
  intros Hnil Hsort Hrange.
  destruct (build_sessions_sorted h self) as (st & Hloop & _ & ->);
    [done | by rewrite Hnil |].
  rewrite Hnil in Hloop.
  destruct (sorted_timeline_one_kind _ _ Hsort) as [k Hk].
  pose proof (session_loop_retagged (timeline self) (initial_state h [])) as Hre.
  pose proof (session_loop_in _ h (timeline self) Hk) as Hstk.
  pose proof (session_loop_in _ h (timeline self) Hrange) as Hstr.
  rewrite Hloop in Hre, Hstk, Hstr. simpl in *.
  rewrite (grace_pass_returns k); eauto using close_at_log_end_in.
  eapply Forall_impl; [exact Hk|]. intros r. by apply timed_in_retagged.
Qed.

(** *** Members *)

Lemma members_app ss1 ss2 : members (ss1 ++ ss2) = members ss1 ++ members ss2.
Proof. unfold members. by rewrite map_app, concat_app. Qed.

Lemma members_close_at_log_end st :
  members (close_at_log_end st) = members (opened st).
Proof.
  unfold close_at_log_end, opened.
  destruct (current_session st); simpl; [|by rewrite app_nil_r].
  by rewrite !members_app.
Qed.

(** An iteration of the loop attaches its event once or not at all. *)
Lemma session_step_members r st st' :
  session_step r st = Ok st' →
  members (opened st') = members (opened st) ∨
  members (opened st') = members (opened st) ++ [r].
Proof.
  unfold session_step.
  destruct (st_heap st !! r) as [e|]; [|intros [= <-]; by left].
  destruct (parsed_time e) as [t|]; [|intros [= <-]; by left].
  intros Hb. apply bind_Ok in Hb as (st1 & H1 & [= <-]).
  assert (members (opened st1) = members (opened st)) as <-.
  { apply inactivity_check_Ok in H1
      as (_ & _ & [[Hc1 Hs1]|(s & l & gap & Hc & _ & _ & _ & Hc1 & Hs1)]);
      unfold opened; rewrite Hc1, Hs1.
    - done.
    - rewrite Hc. simpl. by rewrite app_nil_r, !members_app. }
  unfold interpret, opened.
  destruct (current_session st1) as [s|]; repeat case_match; simpl;
    rewrite ?app_nil_r, ?members_app; unfold members; simpl;
    rewrite ?app_nil_r, <- ?app_assoc; auto.
Qed.

(** The session builder on its own attaches no record twice: when the
    timeline lists each record once, the member lists of the sessions it
    hands to the grace pass share no record and repeat none. *)
Lemma session_loop_members tl st :
  NoDup tl → NoDup (members (opened st)) →
  (∀ r, r ∈ members (opened st) → r ∉ tl) →
  NoDup (members (close_at_log_end (session_loop tl st).1)).
Proof.
  rewrite members_close_at_log_end. unfold session_loop. revert st.
  induction tl as [|r tl IH]; intros st Htl Hst Hnew; simpl; [done|].
  apply NoDup_cons in Htl as [Hr Htl].
  destruct (session_step r st) as [st'|] eqn:Hstep; [|done].
  apply IH; [done| |];
    destruct (session_step_members _ _ _ Hstep) as [-> | ->]; try done.
  - apply NoDup_app. split; [done|]. split; [|apply NoDup_singleton].
    intros x Hx ->%list_elem_of_singleton. apply (Hnew _ Hx), list_elem_of_here.
  - intros x Hx Hin. apply (Hnew _ Hx). by apply list_elem_of_further.
  - intros x [Hx| ->%list_elem_of_singleton]%elem_of_app Hin; [|done].
    apply (Hnew _ Hx). by apply list_elem_of_further.
Qed.

(** * The specification, claim by claim *)

(** ** The sorter and mixed timestamps *)

(** The sort raises, and with [TypeError], as soon as the keys of two
    records are of different kinds. *)
Lemma build_timeline_mixed_raises fromisoformat h self i j r1 r2 :
  let h' := normalise fromisoformat h (raw_events self) in
  raw_events self !! i = Some r1 → raw_events self !! j = Some r2 → i ≠ j →
  datetime.aware (sort_key h' r1) ≠ datetime.aware (sort_key h' r2) →
  build_timeline fromisoformat (h, self) = ((h', self), Raise TypeError).
Proof.
  intros h' H1 H2 Hij Hk. unfold build_timeline. fold h'.
  destruct (sorted (sort_key h') (raw_events self)) as [tl|e] eqn:Hs.
  - destruct Hk. by eapply sorted_Ok_one_kind.
  - by rewrite (sorted_Raise _ _ _ Hs).
Qed.

(** It returns when the keys are all naive or all aware. *)
Lemma build_timeline_returns fromisoformat h self k :
  Forall (λ r, datetime.aware
                 (sort_key (normalise fromisoformat h (raw_events self)) r) = k)
         (raw_events self) →
  ∃ tl, (build_timeline fromisoformat (h, self)).2 = Ok tl.
Proof.
  intros Hk. unfold build_timeline.
  destruct (sorted_returns _ _ _ Hk) as [tl ->]. by exists tl.
Qed.

(** C3 (the code falls short of it): [build_timeline] raises on a
    collection that mixes a UTC timestamp with a missing one.  The key of
    the record without time is the naive [datetime.min], the key of the
    other is aware, and comparing them is a [TypeError]; no timeline is
    built and [build_sessions] is not reached. *)
Theorem build_timeline_raises_on_utc_and_missing :
  ∀ fromisoformat,
    (build_timeline fromisoformat (init sample.utc_and_missing)).2
      = Raise TypeError ∧
    (run fromisoformat sample.utc_and_missing).2 = Raise TypeError.
Proof. intros f. split; reflexivity. Qed.

(** ** Double attachment *)

(** C1 (the code falls short of it): an administratively significant
    event that the session builder attached as [in_session] is appended
    again by the grace pass.  In [21@00:00, 4732@00:03, 24@00:10] the
    record of the 4732 event is twice in the member list of the one
    session; in [21@00:00, 24@00:01, 21@00:02, 7045@00:03] the record of
    the 7045 event is in the member lists of both sessions. *)
Theorem grace_pass_attaches_member_again :
  ∀ fromisoformat,
    (∃ s, (run fromisoformat sample.group_add_in_session).2 = Ok [s] ∧
          events s = [0; 1; 2; 1]%nat) ∧
    (∃ s1 s2, (run fromisoformat sample.service_in_second_session).2 = Ok [s1; s2] ∧
          events s1 = [0; 1; 3]%nat ∧ events s2 = [2; 3]%nat).
Proof.
  intros f. split.
  - eexists. split; reflexivity.
  - do 2 eexists. split; [reflexivity|]. split; reflexivity.
Qed.

(** C2 (the code falls short of it): the tag of the 4732 event of
    [21@00:00, 4732@00:03, 24@00:10] is [in_session] when the loop of the
    session builder ends and [grace_after] when [build_sessions] returns:
    the grace pass overwrites it. *)
Theorem grace_pass_overwrites_in_session_tag :
  ∀ fromisoformat,
    let w := (build_timeline fromisoformat (init sample.group_add_in_session)).1 in
    _correlation <$>
      (st_heap (session_loop (timeline w.2) (initial_state w.1 [])).1 !! 1%nat)
      = Some (Some "in_session"%string) ∧
    _correlation <$> ((build_sessions w).1.1 !! 1%nat)
      = Some (Some "grace_after"%string) ∧
    _correlation <$> ((run fromisoformat sample.group_add_in_session).1.1 !! 1%nat)
      = Some (Some "grace_after"%string).
Proof. intros f. split; [|split]; reflexivity. Qed.

(** ** Well-formed sessions *)

(** C8: on a sorted timeline every session [build_sessions] leaves in
    [self.sessions], which is the list it returns, is closed and well
    formed: it has an end time, its start time is [<=] that end time, and
    its end reason is one of the four. *)
Theorem build_sessions_closed_sessions h self :
  sorted_timeline h (timeline self) → sessions self = [] →
  Forall closed_session (sessions (build_sessions (h, self)).1.2) ∧
  ∀ ss, (build_sessions (h, self)).2 = Ok ss → Forall closed_session ss.
Proof.
  intros Hsort Hnil.
  destruct (build_sessions_sorted h self) as (st & _ & Hinv & ->);
    [done | by rewrite Hnil |].
  pose proof (close_at_log_end_closed st Hinv) as Hclosed.
  destruct (grace_pass_frame (st_heap st) (timeline self) (close_at_log_end st))
    as [_ Hframe].
  assert (Forall closed_session
            (grace_pass (st_heap st) (timeline self) (close_at_log_end st)).1.2)
    as Hfin.
  { by eapply closed_sessions_extend. }
  simpl. split; [done|]. intros ss. destruct (grace_pass _ _ _).2; by intros [= <-].
Qed.

(** The session of [21@00:00, 4732@00:03, 24@00:10]. *)
Lemma build_sessions_closed_sessions_witness :
  let w := sample.in_order sample.group_add_in_session in
  sorted_timeline w.1 (timeline w.2) ∧
  Forall closed_session (sessions (build_sessions w).1.2) ∧
  ∃ s, (build_sessions w).2 = Ok [s] ∧ closed_session s.
Proof.
  intros w.
  assert (sorted_timeline w.1 (timeline w.2)) as Hs
    by (apply (bool_decide_unpack _); vm_compute; exact I).
  destruct (build_sessions_closed_sessions w.1 w.2 Hs eq_refl) as [Hall Hret].
  split; [exact Hs|]. split; [exact Hall|].
  eexists. split; [reflexivity|].
  exact (Forall_inv (Hret _ eq_refl)).
Defined.

(** ** The frame of the grace pass *)

(** C10: whatever the sessions and the events, and whether it finishes or
    raises, the grace pass leaves every session with the [start_time],
    [end_time], [start_reason], [end_reason], [user] and [source_ip] it
    had and a member list that is the old one with events appended, all
    of which have a parsed time; in the heap it changes correlation tags
    only. *)
Theorem grace_pass_only_appends h tl ss :
  let out := (grace_pass h tl ss).1 in
  Forall2 same_but_tag h out.1 ∧
  Forall2 (λ s s',
      start_time s' = start_time s ∧ end_time s' = end_time s ∧
      start_reason s' = start_reason s ∧ end_reason s' = end_reason s ∧
      user s' = user s ∧ source_ip s' = source_ip s ∧
      ∃ added, events s' = events s ++ added ∧
        Forall (λ r, ∃ e t, h !! r = Some e ∧ parsed_time e = Some t) added)
    ss out.2.
Proof. apply grace_pass_frame. Qed.

(** ** Stability and idempotence of the sorter *)

(** C9: when [build_timeline] returns, records none of which has a key
    before the key of another (equal times, or no time at all) are in the
    timeline in the order they had in the input, and running
    [build_timeline] again on the timeline returns the timeline and
    changes no event. *)
Theorem build_timeline_stable_idempotent fromisoformat h self w tl :
  build_timeline fromisoformat (h, self) = (w, Ok tl) →
  (∀ (P : ref → Prop) (dec : ∀ r, Decision (P r)),
      (∀ a b, P a → P b →
              datetime.lt (sort_key w.1 a) (sort_key w.1 b) = Ok false) →
      filter P tl = filter P (raw_events self)) ∧
  build_timeline fromisoformat (w.1, Builder tl (timeline w.2) (sessions w.2))
    = ((w.1, Builder tl tl (sessions w.2)), Ok tl).
Proof.
  intros Hb. pose proof Hb as Hb'. revert Hb'. unfold build_timeline at 1.
  destruct (sorted _ _) as [tl'|] eqn:Hs; [|done]. intros [= <- <-]. simpl.
  split.
  - intros P dec HP. by eapply sorted_stable.
  - rewrite normalise_settled_id.
    + by rewrite (sorted_fixed _ _ (sorted_sorted _ _ _ Hs)).
    + rewrite (sorted_perm _ _ _ Hs). apply normalise_settles.
Qed.

(** [24@00:10, 4624@?, 21@00:00, 4624@?]: the two records without time
    come first, in the order they had. *)
Lemma build_timeline_stable_idempotent_witness :
  let evs_naive := sample.naive_out_of_order in
  let w := (evs_naive, Builder [0; 1; 2; 3]%nat [1; 3; 2; 0]%nat []) in
  build_timeline sample.no_parse (init evs_naive) = (w, Ok [1; 3; 2; 0]%nat) ∧
  filter (λ r, evs_naive !! r ≫= parsed_time = None) [1; 3; 2; 0]%nat
    = filter (λ r, evs_naive !! r ≫= parsed_time = None) [0; 1; 2; 3]%nat ∧
  build_timeline sample.no_parse (evs_naive, Builder [1; 3; 2; 0]%nat [1; 3; 2; 0]%nat [])
    = ((evs_naive, Builder [1; 3; 2; 0]%nat [1; 3; 2; 0]%nat []), Ok [1; 3; 2; 0]%nat).
Proof.
  intros evs_naive w.
  destruct (build_timeline_stable_idempotent sample.no_parse evs_naive
              (Builder [0; 1; 2; 3]%nat [] []) w [1; 3; 2; 0]%nat eq_refl)
    as [Hstable Hidem].
  split; [reflexivity|]. split; [|exact Hidem].
  apply (Hstable (λ r, evs_naive !! r ≫= parsed_time = None) _).
  intros a b Ha Hb. unfold sort_key. simpl.
  destruct (evs_naive !! a) as [ea|], (evs_naive !! b) as [eb|]; simpl in *;
    rewrite ?Ha, ?Hb; reflexivity.
Defined.

(** ** Inactivity timeout *)

(** C5: on a sorted timeline, when the loop reaches an event with time
    [t] while a session [s] is open and [t] is more than 60 minutes after
    [last_event_time], the session is closed with [end_time] the last
    event time and [end_reason] [inactivity_timeout] and appended to
    [self.sessions], and the event is then interpreted in the state
    without open session; the closed session is in the list
    [build_sessions] leaves, at the position it was appended at. *)
Theorem inactivity_timeout_closes_session h self pre r post st s l e t gap :
  sessions self = [] → timeline self = pre ++ r :: post →
  sorted_timeline h (timeline self) →
  session_loop pre (initial_state h []) = (st, None) →
  current_session st = Some s → last_event_time st = Some l →
  st_heap st !! r = Some e → parsed_time e = Some t →
  datetime.sub t l = Ok gap → INACTIVITY_TIMEOUT < gap →
  let closed := close (Some l) "inactivity_timeout" s in
  session_step r st =
    Ok (interpret r e t
          (LoopState None (Some l) (st_heap st) (st_sessions st ++ [closed]))) ∧
  ∃ s', sessions (build_sessions (h, self)).1.2 !! length (st_sessions st) = Some s' ∧
        start_time s' = start_time s ∧ end_time s' = Some l ∧
        end_reason s' = Some "inactivity_timeout"%string ∧
        events s `prefix_of` events s'.
Proof.
  intros Hnil Htl Hsort Hpre Hc Hl He Ht Hgap Hlt closed.
  assert (session_step r st =
    Ok (interpret r e t
          (LoopState None (Some l) (st_heap st) (st_sessions st ++ [closed]))))
    as Hstep.
  { unfold session_step, inactivity_check. rewrite He, Ht, Hc, Hl, Hgap. simpl.
    apply Z.ltb_lt in Hlt. by rewrite Hlt. }
  split; [done|].
  destruct (build_sessions_through h self pre r post Hnil Htl Hsort)
    as (st' & st2 & st3 & Hpre' & _ & Hstep' & Hpost & _ & ->).
  rewrite Hpre in Hpre'. injection Hpre' as <-.
  rewrite Hstep in Hstep'. injection Hstep' as <-.
  destruct (closed_session_stays (timeline self) _ _ _
              (length (st_sessions st)) closed Hpost)
    as (s' & Hs' & Hst & Hen & Hre & Hev).
  { eapply prefix_lookup_Some; [|apply interpret_prefix]. simpl.
    by rewrite lookup_app_r, Nat.sub_diag. }
  exists s'. by repeat split.
Qed.

(** Scenario B: the session of [21@00:00, 4624@00:01] closes at 00:01
    with [inactivity_timeout] when the event at 02:00 arrives. *)
Lemma inactivity_timeout_closes_session_witness :
  let w := sample.in_order sample.scenario_B in
  sorted_timeline w.1 (timeline w.2) ∧
  ∃ s', sessions (build_sessions w).1.2 !! 0%nat = Some s' ∧
        start_time s' = sample.at_minute 0 ∧
        end_time s' = Some (sample.at_minute 1) ∧
        end_reason s' = Some "inactivity_timeout"%string ∧
        [0; 1]%nat `prefix_of` events s'.
Proof.
  intros w.
  assert (sorted_timeline w.1 (timeline w.2)) as Hs
    by (apply (bool_decide_unpack _); vm_compute; exact I).
  split; [exact Hs|].
  set (st := (session_loop [0; 1]%nat (initial_state w.1 [])).1).
  exact (proj2 (inactivity_timeout_closes_session w.1 w.2 [0; 1]%nat 2%nat [] st
           (Session (sample.at_minute 0) None "lsm_session_start" None None None
              [0; 1]%nat)
           (sample.at_minute 1) (sample.ev "4624" (Some (sample.at_minute 120)))
           (sample.at_minute 120) (datetime.minutes 119)
           eq_refl eq_refl Hs eq_refl eq_refl eq_refl eq_refl eq_refl eq_refl
           eq_refl)).
Defined.

(** ** Overlapping session start *)

(** C6: on a sorted timeline, when the loop reaches a start marker with
    time [t] while a session [s] is open that the inactivity check leaves
    open, [s] is closed with [end_time] [t] and [end_reason]
    [overlapping_session_start] and appended to [self.sessions], and a new
    session is opened with [start_time] [t] and the marker as its only
    member; the marker's [_correlation] is [in_session] after the step and
    still when [build_sessions] is done; both sessions are in the list
    [build_sessions] leaves, one after the other. *)
Theorem overlapping_start_closes_and_opens h self pre r post st s l e t gap :
  sessions self = [] → timeline self = pre ++ r :: post →
  sorted_timeline h (timeline self) →
  session_loop pre (initial_state h []) = (st, None) →
  current_session st = Some s → last_event_time st = Some l →
  st_heap st !! r = Some e → parsed_time e = Some t → event_id e = "21"%string →
  datetime.sub t l = Ok gap → gap ≤ INACTIVITY_TIMEOUT →
  let closed := close (Some t) "overlapping_session_start" s in
  let new := Session t None "lsm_session_start" None
               (extract_user (details e)) (extract_ip (details e)) [r] in
  (∃ st2, session_step r st = Ok st2 ∧
          st_sessions st2 = st_sessions st ++ [closed] ∧
          current_session st2 = Some new ∧
          st_heap st2 !! r = Some (set_correlation "in_session" e) ∧
          _correlation <$> st_heap st2 !! r = Some (Some "in_session"%string)) ∧
  (∃ s1 s2,
      sessions (build_sessions (h, self)).1.2 !! length (st_sessions st) = Some s1 ∧
      start_time s1 = start_time s ∧ end_time s1 = Some t ∧
      end_reason s1 = Some "overlapping_session_start"%string ∧
      events s `prefix_of` events s1 ∧
      sessions (build_sessions (h, self)).1.2 !! S (length (st_sessions st)) = Some s2 ∧
      start_time s2 = t ∧ [r] `prefix_of` events s2) ∧
  _correlation <$> (build_sessions (h, self)).1.1 !! r
    = Some (Some "in_session"%string).
Proof.
  intros Hnil Htl Hsort Hpre Hc Hl He Ht Hid Hgap Hle closed new.
  assert (session_step r st =
            Ok (LoopState (Some new) (Some t) (tag r "in_session" (st_heap st))
                  (st_sessions st ++ [closed]))) as Hstep.
  { unfold session_step, inactivity_check. rewrite He, Ht, Hc, Hl, Hgap. simpl.
    apply Z.ltb_ge in Hle. rewrite Hle. simpl.
    unfold interpret. by rewrite Hid, Hc. }
  split; [|split].
  - eexists. split; [exact Hstep|]. simpl. split; [done|]. split; [done|].
    split; [|by eapply tag_lookup].
    unfold tag. by rewrite list_lookup_alter_eq, He.
  - destruct (build_sessions_through h self pre r post Hnil Htl Hsort)
      as (st' & st2 & st3 & Hpre' & _ & Hstep' & Hpost & _ & ->).
    rewrite Hpre in Hpre'. injection Hpre' as <-.
    rewrite Hstep in Hstep'. injection Hstep' as <-.
    destruct (closed_session_stays (timeline self) _ _ _
                (length (st_sessions st)) closed Hpost)
      as (s1 & Hs1 & Hst1 & Hen1 & Hre1 & Hev1).
    { simpl. by rewrite lookup_app_r, Nat.sub_diag. }
    destruct (open_session_stays (timeline self) _ _ _ new Hpost eq_refl)
      as (s2 & Hs2 & Hst2 & Hev2).
    simpl in Hs2. rewrite length_app in Hs2. simpl in Hs2.
    rewrite Nat.add_1_r in Hs2.
    exists s1, s2. by repeat split.
  - eapply (in_session_tag_lands h self pre r post st);
      [exact Htl | by rewrite Hnil | exact Hstep | exact He |
      | by eapply tag_lookup].
    rewrite Hid. apply (bool_decide_unpack _). vm_compute. exact I.
Qed.

(** Scenario C: [21@00:00] then [21@00:05] gives two sessions, the first
    closed at 00:05 with [overlapping_session_start]; the second marker
    is tagged [in_session]. *)
Lemma overlapping_start_closes_and_opens_witness :
  let w := sample.in_order sample.scenario_C in
  sorted_timeline w.1 (timeline w.2) ∧
  length (sessions (build_sessions w).1.2) = 2%nat ∧
  (∃ s1 s2,
    sessions (build_sessions w).1.2 !! 0%nat = Some s1 ∧
    start_time s1 = sample.at_minute 0 ∧
    end_time s1 = Some (sample.at_minute 5) ∧
    end_reason s1 = Some "overlapping_session_start"%string ∧
    [0%nat] `prefix_of` events s1 ∧
    sessions (build_sessions w).1.2 !! 1%nat = Some s2 ∧
    start_time s2 = sample.at_minute 5 ∧ [1%nat] `prefix_of` events s2) ∧
  _correlation <$> (build_sessions w).1.1 !! 1%nat
    = Some (Some "in_session"%string).
Proof.
  intros w.
  assert (sorted_timeline w.1 (timeline w.2)) as Hs
    by (apply (bool_decide_unpack _); vm_compute; exact I).
  split; [exact Hs|]. split; [reflexivity|].
  set (st := (session_loop [0%nat] (initial_state w.1 [])).1).
  exact (proj2 (overlapping_start_closes_and_opens w.1 w.2 [0%nat] 1%nat [] st
           (Session (sample.at_minute 0) None "lsm_session_start" None None None
              [0%nat])
           (sample.at_minute 0) (sample.ev "21" (Some (sample.at_minute 5)))
           (sample.at_minute 5) (datetime.minutes 5)
           eq_refl eq_refl Hs eq_refl eq_refl eq_refl eq_refl eq_refl eq_refl
           eq_refl ltac:(vm_compute; discriminate))).
Defined.

(** ** Start markers *)




(** ** First window wins *)

(** C7 as it is written fails for a session that starts within five
    minutes of [datetime.min]: the window of the contract contains the
    time of the account creation, but its lower bound is no datetime; the
    grace pass raises and the event is attached nowhere. *)
Lemma grace_window_overflows_at_min :
  let w := sample.in_order sample.session_at_min in
  let st := (session_loop (timeline w.2) (initial_state w.1 [])).1 in
  let t := datetime.mk (datetime.minutes 2) None in
  sorted_timeline w.1 (timeline w.2) ∧
  dfir_events w.1 (timeline w.2) = [2%nat] ∧
  (∃ s, close_at_log_end st = [s] ∧ window_contains t s ∧ events s = [0; 1]%nat) ∧
  grace_event 2%nat (st_heap st, close_at_log_end st) = Raise OverflowError ∧
  (build_sessions w).2 = Raise OverflowError ∧
  map events (sessions (build_sessions w).1.2) = [[0; 1]%nat].
Proof.
  intros w st t. split; [|split; [|split; [|split; [|split]]]].
  - apply (bool_decide_unpack _). vm_compute. exact I.
  - reflexivity.
  - eexists. split; [reflexivity|]. split; [|reflexivity].
    apply (bool_decide_unpack _). vm_compute. exact I.
  - reflexivity.
  - reflexivity.
  - reflexivity.
Qed.

(** C7, amended: whenever [build_sessions] returns, whatever the
    timeline and the sessions the builder had, and for every
    administratively significant event of the timeline with parsed time
    [t]: the session list returned is the list the session builder built,
    session by session, with events appended; the grace pass has appended
    the event to the session at [j] exactly if that session is the first
    of the list whose window [start_time - 5 minutes, end_time + 15
    minutes] contains [t]; if there is such a session the event's
    [_correlation] is, when the method returns, [grace_before] if [t] is
    before the [start_time] of that session and [grace_after] if not; if
    no window contains [t] the event's dictionary is as the session
    builder left it. *)
Theorem grace_attaches_to_first_window h self ss r e t :
  (build_sessions (h, self)).2 = Ok ss →
  r ∈ timeline self → h !! r = Some e → event_id e ∈ dfir_ids →
  parsed_time e = Some t →
  let st := (session_loop (timeline self) (initial_state h (sessions self))).1 in
  let h' := (build_sessions (h, self)).1.1 in
  sessions (build_sessions (h, self)).1.2 = ss ∧
  Forall2 (extends_by (timed h)) (close_at_log_end st) ss ∧
  (∀ j b s, close_at_log_end st !! j = Some b → ss !! j = Some s →
     ∃ added, events s = events b ++ added ∧
              (r ∈ added ↔
               ∃ s', list_find (window_contains t) ss = Some (j, s'))) ∧
  match list_find (window_contains t) ss with
  | Some (i, s) => _correlation <$> h' !! r = Some (Some (label_of t s))
  | None => h' !! r = st_heap st !! r
  end.
Proof.
  intros Hret Hin He Hid Ht. cbv zeta. revert Hret. unfold build_sessions.
  pose proof (session_loop_retagged (timeline self)
                (initial_state h (sessions self))) as Hre.
  destruct (session_loop (timeline self) (initial_state h (sessions self)))
    as [st [ex|]] eqn:Hloop; simpl in *; [done|].
  pose proof (grace_pass_frame (st_heap st) (timeline self) (close_at_log_end st))
    as [_ Hframe].
  unfold grace_pass in *.
  destruct (for_each grace_event (dfir_events (st_heap st) (timeline self))
              (st_heap st, close_at_log_end st))
    as [[h1 ss1] [ex|]] eqn:Hg; simpl in *; [done|].
  intros [= ->].
  destruct (retagged_lookup _ _ _ _ Hre He) as (e0 & He0 & Hid0 & _ & _ & Ht0 & _).
  rewrite Ht in Ht0.
  assert (r ∈ dfir_events (st_heap st) (timeline self)) as HD.
  { apply list_elem_of_filter. split; [|done].
    unfold is_dfir. rewrite He0. apply bool_decide_eq_true. by rewrite Hid0. }
  destruct (grace_loop_first_window _ _ _ _ _ r e0 t Hg He0 Ht0) as [Hmem Htag].
  pose proof (first_window_extends _ t _ _ Hframe) as Hfw.
  split; [done|]. split; [|split].
  - eapply Forall2_impl; [exact Hframe|].
    intros s s'. apply extends_by_impl. intros r'. by apply timed_retagged.
  - intros j b s Hb Hs. destruct (Hmem j b s Hb Hs) as (added & Hadd & Hiff).
    exists added. split; [done|]. rewrite Hiff. split.
    + intros (_ & s' & Hj). rewrite Hj in Hfw.
      destruct Hfw as (s0 & ? & _). by exists s0.
    + intros (s' & Hj). split; [done|]. by eapply first_window_extends_r.
  - destruct (list_find (window_contains t) (close_at_log_end st))
      as [[i s]|].
    + destruct Hfw as (s0 & -> & Hst). rewrite decide_True in Htag by done.
      rewrite Htag. unfold label_of. by rewrite Hst.
    + rewrite Hfw. congruence.
Qed.

(** The group add three minutes before the session of
    [4732@00:07, 21@00:10, 24@00:20] becomes its last member, tagged
    [grace_before]. *)
Lemma grace_attaches_to_first_window_witness :
  let w := sample.in_order sample.group_add_before_session in
  let t := sample.at_minute 7 in
  ∃ s, (build_sessions w).2 = Ok [s] ∧
       list_find (window_contains t) [s] = Some (0%nat, s) ∧
       events s = [1; 2; 0]%nat ∧
       _correlation <$> (build_sessions w).1.1 !! 0%nat
         = Some (Some "grace_before"%string).
Proof.
  intros w t. eexists. split; [reflexivity|].
  split; [reflexivity|]. split; [reflexivity|].
  assert (0%nat ∈ timeline w.2) as Hin by apply list_elem_of_here.
  assert ("4732"%string ∈ dfir_ids) as Hid
    by (apply (bool_decide_unpack _); vm_compute; exact I).
  exact (proj2 (proj2 (proj2
           (grace_attaches_to_first_window w.1 w.2 _ 0%nat
              (sample.ev "4732" (Some t)) t eq_refl Hin eq_refl Hid eq_refl)))).
Defined.

(** A pass that raises stops where it is.  On
    [4720@00:00, 21@01:00, 24@01:10, 1102@01:20, 21@9999-12-31T23:50] the
    scan for the account creation goes past the first session to the
    second, whose upper window bound is no datetime, and raises: the log
    clearing, twenty minutes into the window of the first session, is
    never looked at and stays without session and without tag. *)
Lemma grace_pass_stops_at_first_raise :
  let w := sample.in_order more_samples.session_near_max in
  sorted_timeline w.1 (timeline w.2) ∧
  dfir_events w.1 (timeline w.2) = [0; 3]%nat ∧
  (build_sessions w).2 = Raise OverflowError ∧
  map events (sessions (build_sessions w).1.2) = [[1; 2]; [4]]%nat ∧
  (∃ s, sessions (build_sessions w).1.2 !! 0%nat = Some s ∧
        window_contains (sample.at_minute 80) s) ∧
  _correlation <$> (build_sessions w).1.1 !! 3%nat = Some None.
Proof.
  intros w. split; [|split; [|split; [|split; [|split]]]].
  - apply (bool_decide_unpack _). vm_compute. exact I.
  - reflexivity.
  - reflexivity.
  - reflexivity.
  - eexists. split; [reflexivity|].
    apply (bool_decide_unpack _). vm_compute. exact I.
  - reflexivity.
Qed.


(** * Further properties of the engine *)

(** ** The timeline sorter *)

Lemma sorted_Ok_kinds {A} (key : A → datetime) l l' :
  sorted key l = Ok l' →
  ∃ k, Forall (λ y, datetime.aware (key y) = k) l.
Proof.
  intros Hok. pose proof (sorted_sorted _ _ _ Hok) as Hs.
  pose proof (sorted_perm _ _ _ Hok) as Hp.
  destruct l' as [|x t].
  - apply Permutation_nil_l in Hp. subst. by exists true.
  - exists (datetime.aware (key x)). rewrite <- Hp.
    apply StronglySorted_inv in Hs as [_ Hx]. constructor; [done|].
    eapply Forall_impl; [exact Hx|]. simpl. intros y Hy.
    symmetry. by eapply datetime_facts.le_Ok.
Qed.

Lemma build_timeline_heap fromisoformat h self :
  (build_timeline fromisoformat (h, self)).1.1
    = normalise fromisoformat h (raw_events self).
Proof. unfold build_timeline. by destruct (sorted _ _). Qed.

Lemma sort_key_untimed h r : ¬ timed h r → sort_key h r = datetime.min.
Proof.
  intros Hr. unfold sort_key. destruct (h !! r) as [e|] eqn:He; [|done].
  destruct (parsed_time e) as [t|] eqn:Ht; [|done].
  destruct Hr. by exists e, t.
Qed.

(** X1: when [build_timeline] returns, the timeline it has stored holds
    the records of the input, all of them and no other, in the order of
    their keys; a record that stands before a record without parsed time
    has no parsed time either or one that is not after [datetime.min]. *)
Theorem build_timeline_keeps_all_in_order fromisoformat h self w tl :
  build_timeline fromisoformat (h, self) = (w, Ok tl) →
  timeline w.2 = tl ∧ raw_events w.2 = raw_events self ∧
  tl ≡ₚ raw_events self ∧ sorted_timeline w.1 tl ∧
  ∀ i j r1 r2 e1 t1,
    tl !! i = Some r1 → tl !! j = Some r2 → (i < j)%nat → ¬ timed w.1 r2 →
    w.1 !! r1 = Some e1 → parsed_time e1 = Some t1 →
    datetime.le t1 datetime.min = Ok true.
Proof.
  intros Hb. destruct (build_timeline_sorted _ _ _ _ _ Hb) as (-> & Hp & Hs).
  simpl in *. repeat split; try done.
  intros i j r1 r2 e1 t1 Hi Hj Hij Hr2 He1 Ht1.
  pose proof (StronglySorted_lookup_lt _ _ _ _ _ _ Hs Hi Hj Hij) as Hle.
  unfold key_le in Hle.
  by rewrite (sort_key_timed _ _ _ _ He1 Ht1), (sort_key_untimed _ _ Hr2) in Hle.
Qed.

(** [24@00:10, 4624@?, 21@00:00, 4624@?]: the records without time are
    the first two of the timeline. *)
Lemma build_timeline_keeps_all_in_order_witness :
  let w := (sample.naive_out_of_order,
            Builder [0; 1; 2; 3]%nat [1; 3; 2; 0]%nat []) in
  build_timeline sample.no_parse (init sample.naive_out_of_order)
    = (w, Ok [1; 3; 2; 0]%nat) ∧
  [1; 3; 2; 0]%nat ≡ₚ [0; 1; 2; 3]%nat ∧
  sorted_timeline w.1 [1; 3; 2; 0]%nat.
Proof.
  intros w.
  destruct (build_timeline_keeps_all_in_order sample.no_parse
              sample.naive_out_of_order (Builder [0; 1; 2; 3]%nat [] []) w
              [1; 3; 2; 0]%nat eq_refl) as (_ & _ & Hp & Hs & _).
  split; [reflexivity|]. split; [exact Hp | exact Hs].
Defined.

(** X2: [build_timeline] returns exactly when the sort keys of the
    normalised events are all aware or all naive (an event without
    parsed time counts as naive); if they are not it raises [TypeError],
    leaves [self.timeline] as it was and has normalised the events all
    the same. *)
Theorem build_timeline_returns_iff_one_kind fromisoformat h self :
  let h' := normalise fromisoformat h (raw_events self) in
  (one_kind h' (raw_events self) ∧
   ∃ tl, build_timeline fromisoformat (h, self)
           = ((h', Builder (raw_events self) tl (sessions self)), Ok tl))
  ∨ (¬ one_kind h' (raw_events self) ∧
     build_timeline fromisoformat (h, self) = ((h', self), Raise TypeError)).
Proof.
  intros h'. destruct (decide (one_kind h' (raw_events self))) as [Hk|Hk].
  - left. split; [done|]. unfold build_timeline. fold h'.
    destruct Hk as [Hk|Hk]; destruct (sorted_returns _ _ _ Hk) as [tl ->]; eauto.
  - right. split; [done|]. unfold build_timeline. fold h'.
    destruct (sorted (sort_key h') (raw_events self)) as [tl|e] eqn:Hs.
    + destruct Hk. destruct (sorted_Ok_kinds _ _ _ Hs) as [[] Hall];
        [by left | by right].
    + by rewrite (sorted_Raise _ _ _ Hs).
Qed.

(** *** The normalisation loop *)

Lemma normalised_event_idemp fromisoformat e :
  normalised_event fromisoformat (normalised_event fromisoformat e)
    = normalised_event fromisoformat e.
Proof.
  unfold normalised_event. destruct (parsed_time e) eqn:Hp; [by rewrite Hp|].
  simpl. by destruct (_parse_timestamp _ _).
Qed.

Lemma normalise_event_lookup fromisoformat h x r :
  normalise_event fromisoformat h x !! r =
  if decide (r = x) then normalised_event fromisoformat <$> h !! r else h !! r.
Proof.
  unfold normalise_event, normalised_event.
  destruct (decide (r = x)) as [->|Hne].
  - destruct (h !! x) as [e|] eqn:He; simpl; [|exact He].
    destruct (parsed_time e) eqn:Hp; [exact He|].
    by rewrite list_lookup_insert_eq by by eapply lookup_lt_Some.
  - destruct (h !! x) as [e|]; [|done].
    destruct (parsed_time e); [done|]. by rewrite list_lookup_insert_ne.
Qed.

Lemma normalise_lookup fromisoformat h raw r :
  normalise fromisoformat h raw !! r =
  if decide (r ∈ raw) then normalised_event fromisoformat <$> h !! r else h !! r.
Proof.
  unfold normalise. revert h. induction raw as [|x raw IH]; intros h; simpl.
  - destruct (decide (r ∈ [])) as [Hin|]; [|done]. by apply elem_of_nil in Hin.
  - rewrite IH, normalise_event_lookup.
    destruct (decide (r ∈ x :: raw)) as [Hin|Hin].
    + destruct (decide (r = x)) as [->|Hne].
      * destruct (decide (x ∈ raw)); [|done].
        destruct (h !! x); simpl; [|done]. by rewrite normalised_event_idemp.
      * apply elem_of_cons in Hin as [?|Hin]; [done|].
        by destruct (decide (r ∈ raw)).
    + destruct (decide (r = x)) as [->|Hne].
      * destruct Hin. apply list_elem_of_here.
      * destruct (decide (r ∈ raw)); [|done].
        destruct Hin. by apply list_elem_of_further.
Qed.

(** X3: whether or not the sort then raises, [build_timeline] leaves
    every event of the input with the parsed time it had, or, if it had
    none, with what [_parse_timestamp] makes of its raw timestamp, and
    with every other field as it was; events the input does not hold are
    not touched. *)
Theorem build_timeline_normalises fromisoformat h self r :
  (build_timeline fromisoformat (h, self)).1.1 !! r =
  if decide (r ∈ raw_events self)
  then normalised_event fromisoformat <$> h !! r
  else h !! r.
Proof. rewrite build_timeline_heap. apply normalise_lookup. Qed.

(** X4: the timeline does not depend on how the sort works: any
    arrangement of the input that is in the order of the keys and keeps
    the records none of which is before another in the order of the
    input is the timeline [build_timeline] returns. *)
Theorem build_timeline_unique fromisoformat h self w tl tl' :
  build_timeline fromisoformat (h, self) = (w, Ok tl) →
  tl' ≡ₚ raw_events self → sorted_timeline w.1 tl' →
  keeps_order (sort_key w.1) (raw_events self) tl' →
  tl' = tl.
Proof.
  intros Hb Hp Hs Hk. revert Hb. unfold build_timeline.
  destruct (sorted _ _) as [tl0|] eqn:Hok; [|done]. intros [= <- <-].
  by eapply sorted_unique.
Qed.

Lemma build_timeline_unique_witness :
  let w := (sample.naive_out_of_order,
            Builder [0; 1; 2; 3]%nat [1; 3; 2; 0]%nat []) in
  build_timeline sample.no_parse (init sample.naive_out_of_order)
    = (w, Ok [1; 3; 2; 0]%nat) ∧
  [1; 3; 2; 0]%nat ≡ₚ [0; 1; 2; 3]%nat ∧
  sorted_timeline w.1 [1; 3; 2; 0]%nat ∧
  [1; 3; 2; 0]%nat = [1; 3; 2; 0]%nat.
Proof.
  intros w.
  assert ([1; 3; 2; 0]%nat ≡ₚ [0; 1; 2; 3]%nat) as Hp
    by (apply (bool_decide_unpack _); vm_compute; exact I).
  assert (sorted_timeline w.1 [1; 3; 2; 0]%nat) as Hs
    by (apply (bool_decide_unpack _); vm_compute; exact I).
  split; [reflexivity|]. split; [exact Hp|]. split; [exact Hs|].
  apply (build_timeline_unique sample.no_parse sample.naive_out_of_order
           (Builder [0; 1; 2; 3]%nat [] []) w [1; 3; 2; 0]%nat
           [1; 3; 2; 0]%nat eq_refl Hp Hs).
  intros P dec HP. eapply (sorted_stable (sort_key w.1)); [exact HP|reflexivity].
Defined.

(** ** Who becomes a member, and with which tag *)

(** An iteration of the loop of the session builder either attaches
    nothing and leaves the heap alone, or attaches its event, which has a
    parsed time, as last member and tags it [in_session]. *)
Lemma session_step_attach r st st' :
  session_step r st = Ok st' →
  (members (opened st') = members (opened st) ∧ st_heap st' = st_heap st) ∨
  (members (opened st') = members (opened st) ++ [r] ∧
   st_heap st' = tag r "in_session" (st_heap st) ∧ timed (st_heap st) r).
Proof.
  unfold session_step.
  destruct (st_heap st !! r) as [e|] eqn:He; [|intros [= <-]; by left].
  destruct (parsed_time e) as [t|] eqn:Ht; [|intros [= <-]; by left].
  assert (timed (st_heap st) r) as Htimed by by exists e, t.
  intros Hb. apply bind_Ok in Hb as (st1 & H1 & [= <-]).
  assert (members (opened st1) = members (opened st) ∧ st_heap st1 = st_heap st)
    as [Hm Hh].
  { apply inactivity_check_Ok in H1
      as (Hh & _ & [[Hc1 Hs1]|(s & l & gap & Hc & _ & _ & _ & Hc1 & Hs1)]);
      (split; [|done]); unfold opened; rewrite Hc1, Hs1.
    - done.
    - rewrite Hc. simpl. by rewrite app_nil_r, !members_app. }
  rewrite <- Hm, <- Hh in *. clear Hm Hh.
  unfold interpret, opened.
  destruct (current_session st1) as [s|]; repeat case_match; simpl;
    rewrite ?app_nil_r, ?members_app; unfold members; simpl;
    rewrite ?app_nil_r, <- ?app_assoc;
    try (left; by split); try (right; by repeat split).
Qed.

Lemma grace_label_cases s t lbl :
  grace_label s t = Ok lbl →
  lbl = "grace_before"%string ∨ lbl = "grace_after"%string.
Proof.
  unfold grace_label. intros Hb. apply bind_Ok in Hb as ([] & _ & [= <-]); auto.
Qed.

Lemma attach_first_attach r t h ss h' ss' :
  attach_first r t h ss = Ok (h', ss') →
  (h' = h ∧ ss' = ss) ∨
  (∃ lbl, (lbl = "grace_before"%string ∨ lbl = "grace_after"%string) ∧
          h' = tag r lbl h ∧ members ss' ≡ₚ r :: members ss).
Proof.
  revert h' ss'. induction ss as [|s rest IH]; simpl; intros h' ss' Hb.
  - injection Hb as <- <-. by left.
  - apply bind_Ok in Hb as ([] & _ & Hb).
    + apply bind_Ok in Hb as (lbl & Hl & [= <- <-]). right. exists lbl.
      split; [by eapply grace_label_cases|]. split; [done|].
      unfold members. simpl. rewrite <- app_assoc. simpl.
      by rewrite <- Permutation_middle.
    + apply bind_Ok in Hb as ([h1 ss1] & H1 & [= <- <-]). simpl.
      destruct (IH _ _ H1) as [[-> ->]|(lbl & Hl & -> & Hp)]; [by left|].
      right. exists lbl. split; [done|]. split; [done|].
      unfold members in *. simpl. rewrite Hp. by rewrite <- Permutation_middle.
Qed.

(** An iteration of the grace pass either changes nothing, or attaches
    its event, which has a parsed time, to one session and tags it
    [grace_before] or [grace_after]. *)
Lemma grace_event_attach r h ss h' ss' :
  grace_event r (h, ss) = Ok (h', ss') →
  (h' = h ∧ ss' = ss) ∨
  (∃ lbl, (lbl = "grace_before"%string ∨ lbl = "grace_after"%string) ∧
          h' = tag r lbl h ∧ members ss' ≡ₚ r :: members ss ∧ timed h r).
Proof.
  unfold grace_event. simpl.
  destruct (h !! r) as [e|] eqn:He; [|intros [= <- <-]; by left].
  destruct (parsed_time e) as [t|] eqn:Ht; [|intros [= <- <-]; by left].
  intros Hb. apply attach_first_attach in Hb as [?|(lbl & ? & ? & ?)]; [by left|].
  right. exists lbl. repeat split; try done. by exists e, t.
Qed.

(** *** How often *)

Lemma occurrences_app x l1 l2 :
  occurrences x (l1 ++ l2) = (occurrences x l1 + occurrences x l2)%nat.
Proof. unfold occurrences. by rewrite filter_app, length_app. Qed.

Lemma occurrences_cons x y l :
  occurrences x (y :: l) =
  ((if decide (y = x) then 1 else 0) + occurrences x l)%nat.
Proof. unfold occurrences. rewrite filter_cons. by destruct (decide (y = x)). Qed.

Lemma occurrences_perm x l1 l2 : l1 ≡ₚ l2 → occurrences x l1 = occurrences x l2.
Proof. intros Hp. unfold occurrences. by rewrite Hp. Qed.

Lemma occurrences_not_in x l : x ∉ l → occurrences x l = 0%nat.
Proof.
  induction l as [|y l IH]; [done|]. intros [Hne Hl]%not_elem_of_cons.
  rewrite occurrences_cons, decide_False by done. by apply IH.
Qed.

Lemma occurrences_NoDup x l : NoDup l → (occurrences x l ≤ 1)%nat.
Proof.
  induction 1 as [|y l Hy _ IH]; [unfold occurrences; simpl; lia|].
  rewrite occurrences_cons.
  destruct (decide (y = x)) as [->|]; [|done].
  by rewrite occurrences_not_in.
Qed.

Lemma grace_loop_occurrences x D hs :
  (occurrences x (members (for_each grace_event D hs).1.2)
   ≤ occurrences x (members hs.2) + occurrences x D)%nat.
Proof.
  revert hs. induction D as [|r D IH]; intros [h ss]; simpl; [lia|].
  destruct (grace_event r (h, ss)) as [[h' ss']|] eqn:Hev; simpl; [|lia].
  etrans; [apply IH|]. simpl. rewrite occurrences_cons.
  apply grace_event_attach in Hev as [[-> ->]|(lbl & _ & _ & Hp & _)]; [lia|].
  rewrite (occurrences_perm _ _ _ Hp), occurrences_cons. lia.
Qed.

Lemma members_prefix ss1 ss2 :
  ss1 `prefix_of` ss2 → members ss1 `prefix_of` members ss2.
Proof. intros [k ->]. rewrite members_app. by apply prefix_app_r. Qed.

Lemma occurrences_prefix x l1 l2 :
  l1 `prefix_of` l2 → (occurrences x l1 ≤ occurrences x l2)%nat.
Proof. intros [k ->]. rewrite occurrences_app. lia. Qed.

(** X5: when the timeline lists every record once, no record is a member
    more than twice in all the sessions [build_sessions] leaves, and a
    record that is not an administratively significant event is a member
    at most once. *)
Theorem build_sessions_member_at_most_twice h self x :
  sessions self = [] → NoDup (timeline self) →
  (occurrences x (members (sessions (build_sessions (h, self)).1.2))
   ≤ if is_dfir h x then 2 else 1)%nat.
Proof.
  intros Hnil Htl. unfold build_sessions. rewrite Hnil.
  pose proof (session_loop_members (timeline self) (initial_state h []) Htl)
    as Hnd.
  rewrite members_close_at_log_end in Hnd.
  pose proof (session_loop_retagged (timeline self) (initial_state h [])) as Hre.
  destruct (session_loop (timeline self) (initial_state h [])) as [st [e|]];
    simpl in *.
  - assert (occurrences x (members (st_sessions st)) ≤ 1)%nat; [|case_match; lia].
    etrans; [|apply (occurrences_NoDup x), Hnd; [constructor | by intros ? ?%elem_of_nil]].
    apply occurrences_prefix, members_prefix. unfold opened. by apply prefix_app_r.
  - unfold grace_pass.
    pose proof (grace_loop_occurrences x (dfir_events (st_heap st) (timeline self))
                  (st_heap st, close_at_log_end st)) as Hocc.
    destruct (for_each grace_event _ _) as [[h' ss] [e|]]; simpl in *.
    all: rewrite members_close_at_log_end in Hocc.
    all: assert (occurrences x (members (opened st)) ≤ 1)%nat as H1
      by (apply occurrences_NoDup, Hnd; [constructor | by intros ? ?%elem_of_nil]).
    all: assert (occurrences x (dfir_events (st_heap st) (timeline self))
                 ≤ if is_dfir h x then 1 else 0)%nat as H2.
    1, 3: destruct (is_dfir h x) eqn:Hx;
      [apply occurrences_NoDup; by apply NoDup_filter|];
      rewrite occurrences_not_in; [done|];
      intros [Hd _]%list_elem_of_filter;
      rewrite (retagged_is_dfir _ _ _ Hre) in Hd; congruence.
    all: destruct (is_dfir h x); lia.
Qed.

(** The group add of [21@00:00, 4732@00:03, 24@00:10] is a member twice,
    the other two records once. *)
Lemma build_sessions_member_at_most_twice_witness :
  let w := sample.in_order sample.group_add_in_session in
  NoDup (timeline w.2) ∧
  (occurrences 1 (members (sessions (build_sessions w).1.2)) ≤ 2)%nat ∧
  occurrences 1 (members (sessions (build_sessions w).1.2)) = 2%nat ∧
  (occurrences 0 (members (sessions (build_sessions w).1.2)) ≤ 1)%nat.
Proof.
  intros w.
  assert (NoDup (timeline w.2)) as Hnd
    by (apply (bool_decide_unpack _); vm_compute; exact I).
  split; [exact Hnd|]. split; [|split; [reflexivity|]].
  - exact (build_sessions_member_at_most_twice w.1 w.2 1%nat eq_refl Hnd).
  - exact (build_sessions_member_at_most_twice w.1 w.2 0%nat eq_refl Hnd).
Defined.

(** *** Which records *)

Lemma Forall_members_prefix (Q : ref → Prop) ss1 ss2 :
  ss1 `prefix_of` ss2 → Forall Q (members ss2) → Forall Q (members ss1).
Proof.
  intros [k ->]. rewrite members_app. by intros [??]%Forall_app.
Qed.

Lemma session_loop_members_timed h tl :
  let st := (session_loop tl (initial_state h [])).1 in
  retagged h (st_heap st) ∧
  Forall (λ x, x ∈ tl ∧ timed h x) (members (opened st)).
Proof.
  unfold session_loop.
  apply (for_each_preserves session_step
           (λ st, retagged h (st_heap st) ∧
                  Forall (λ x, x ∈ tl ∧ timed h x) (members (opened st)))).
  - intros r st st' Hin [Hre Hall] Hstep. split.
    + etrans; [exact Hre|]. by eapply session_step_retagged.
    + apply session_step_attach in Hstep as [[-> _]|(-> & _ & Ht)]; [done|].
      apply Forall_app. split; [done|]. apply Forall_singleton.
      split; [done|]. by eapply timed_retagged.
  - split; [reflexivity | constructor].
Qed.

Lemma grace_pass_members_timed h0 h tl ss :
  retagged h0 h → Forall (λ x, x ∈ tl ∧ timed h0 x) (members ss) →
  Forall (λ x, x ∈ tl ∧ timed h0 x) (members (grace_pass h tl ss).1.2).
Proof.
  intros Hre Hall. unfold grace_pass.
  assert (retagged h0 (for_each grace_event (dfir_events h tl) (h, ss)).1.1 ∧
          Forall (λ x, x ∈ tl ∧ timed h0 x)
            (members (for_each grace_event (dfir_events h tl) (h, ss)).1.2))
    as [_ ?]; [|done].
  apply (for_each_preserves grace_event
           (λ hs, retagged h0 hs.1 ∧
                  Forall (λ x, x ∈ tl ∧ timed h0 x) (members hs.2))); [|done].
  intros r [h1 ss1] [h2 ss2] Hin [Hre1 Hall1] Hev. simpl in *.
  apply list_elem_of_filter in Hin as [_ Hin].
  apply grace_event_attach in Hev as [[-> ->]|(lbl & _ & -> & Hp & Ht)]; [done|].
  split; [etrans; [exact Hre1|]; apply tag_retagged|].
  rewrite Hp. constructor; [|done]. split; [done|]. by eapply timed_retagged.
Qed.

(** X6: on whatever timeline, and whether it returns or raises, every
    member of every session [build_sessions] leaves is an event of the
    timeline that has a parsed time: an event without parsed time is
    never attached, neither by the session builder nor by the grace
    pass. *)
Theorem build_sessions_members_are_timed_events h self x :
  sessions self = [] →
  x ∈ members (sessions (build_sessions (h, self)).1.2) →
  x ∈ timeline self ∧ timed h x.
Proof.
  intros Hnil. unfold build_sessions. rewrite Hnil.
  destruct (session_loop_members_timed h (timeline self)) as [Hre Hall].
  destruct (session_loop (timeline self) (initial_state h [])) as [st [e|]];
    simpl in *.
  - intros Hx.
    assert (Forall (λ x, x ∈ timeline self ∧ timed h x) (members (st_sessions st)))
      as Hpre.
    { eapply Forall_members_prefix; [|exact Hall]. unfold opened.
      by apply prefix_app_r. }
    rewrite Forall_forall in Hpre. by apply Hpre.
  - rewrite <- members_close_at_log_end in Hall.
    pose proof (grace_pass_members_timed h (st_heap st) (timeline self)
                  (close_at_log_end st) Hre Hall) as Hfin.
    rewrite Forall_forall in Hfin.
    destruct (grace_pass _ _ _) as [[h' ss] [e|]]; simpl in *;
      intros Hx; by apply Hfin.
Qed.

(** In [24@00:10, 4624@?, 21@00:00, 4624@?], taken in that order, the
    start marker is the one member of the one session. *)
Lemma build_sessions_members_are_timed_events_witness :
  let w := sample.in_order sample.naive_out_of_order in
  members (sessions (build_sessions w).1.2) = [2%nat] ∧
  2%nat ∈ timeline w.2 ∧ timed w.1 2%nat.
Proof.
  intros w. split; [reflexivity|].
  apply (build_sessions_members_are_timed_events w.1 w.2 2%nat eq_refl).
  apply list_elem_of_here.
Defined.

(** *** Which tags *)

Lemma tags_follow_members_attach h0 h mem mem' r v :
  tags_follow_members h0 h mem → timed h r → mem' ≡ₚ r :: mem →
  v = "in_session"%string ∨ v = "grace_before"%string ∨ v = "grace_after"%string →
  tags_follow_members h0 (tag r v h) mem'.
Proof.
  intros Hinv (e & t & He & _) Hp Hv x. unfold tag, tagged.
  destruct (decide (x = r)) as [->|Hne].
  - split.
    + intros _. exists (set_correlation v e).
      rewrite list_lookup_alter_eq, He. split; [done|]. simpl.
      destruct Hv as [-> | [-> | ->]]; auto.
    + intros []. rewrite Hp. apply list_elem_of_here.
  - rewrite list_lookup_alter_ne by done. rewrite Hp, elem_of_cons.
    destruct (Hinv x) as [H1 H2]. split.
    + intros [?|?]; [done|]. by apply H1.
    + intros Hx. apply H2. intros ?. apply Hx. by right.
Qed.

Lemma session_loop_tags h tl :
  let st := (session_loop tl (initial_state h [])).1 in
  tags_follow_members h (st_heap st) (members (opened st)).
Proof.
  unfold session_loop.
  apply (for_each_preserves session_step
           (λ st, tags_follow_members h (st_heap st) (members (opened st)))).
  - intros r st st' _ Hinv Hstep.
    apply session_step_attach in Hstep as [[-> ->]|(-> & -> & Ht)]; [done|].
    eapply tags_follow_members_attach; eauto.
    by rewrite <- Permutation_cons_append.
  - intros r. split; [by intros ?%elem_of_nil | done].
Qed.

Lemma grace_pass_tags h0 h tl ss :
  tags_follow_members h0 h (members ss) →
  tags_follow_members h0 (grace_pass h tl ss).1.1
    (members (grace_pass h tl ss).1.2).
Proof.
  intros Hinv. unfold grace_pass.
  apply (for_each_preserves grace_event
           (λ hs, tags_follow_members h0 hs.1 (members hs.2))); [|done].
  intros r [h1 ss1] [h2 ss2] _ Hinv1 Hev. simpl in *.
  apply grace_event_attach in Hev as [[-> ->]|(lbl & Hl & -> & Hp & Ht)]; [done|].
  eapply tags_follow_members_attach; eauto.
Qed.

(** X7: on a sorted timeline, when [build_sessions] is done (returned or
    raised in the grace pass) the events differ from what they were in
    their correlation tag at most; every member of a session carries one
    of [in_session], [grace_before], [grace_after]; and an event that is
    a member of no session is exactly as it was. *)
Theorem build_sessions_tags_members_only h self :
  sessions self = [] → sorted_timeline h (timeline self) →
  let w' := (build_sessions (h, self)).1 in
  retagged h w'.1 ∧
  ∀ r, (r ∈ members (sessions w'.2) → tagged w'.1 r) ∧
       (r ∉ members (sessions w'.2) → w'.1 !! r = h !! r).
Proof.
  intros Hnil Hsort.
  destruct (build_sessions_sorted h self) as (st & Hloop & _ & ->);
    [done | by rewrite Hnil |].
  rewrite Hnil in Hloop. simpl.
  pose proof (session_loop_retagged (timeline self) (initial_state h [])) as Hre.
  pose proof (session_loop_tags h (timeline self)) as Htags.
  rewrite Hloop in Hre, Htags. simpl in *.
  rewrite <- members_close_at_log_end in Htags. split.
  - etrans; [exact Hre|]. apply grace_pass_frame.
  - by apply grace_pass_tags.
Qed.

(** In [4732@00:07, 21@00:10, 24@00:20] all three events are members and
    tagged; in [21@?] the start marker is no member and is as it was. *)
Lemma build_sessions_tags_members_only_witness :
  let w := sample.in_order sample.group_add_before_session in
  let v := sample.in_order sample.start_without_time in
  sorted_timeline w.1 (timeline w.2) ∧
  tagged (build_sessions w).1.1 0%nat ∧
  sorted_timeline v.1 (timeline v.2) ∧
  (build_sessions v).1.1 !! 0%nat = v.1 !! 0%nat.
Proof.
  intros w v.
  assert (sorted_timeline w.1 (timeline w.2)) as Hw
    by (apply (bool_decide_unpack _); vm_compute; exact I).
  assert (sorted_timeline v.1 (timeline v.2)) as Hv
    by (apply (bool_decide_unpack _); vm_compute; exact I).
  split; [exact Hw|]. split; [|split; [exact Hv|]].
  - apply (build_sessions_tags_members_only w.1 w.2 eq_refl Hw).
    apply (bool_decide_unpack _). vm_compute. exact I.
  - apply (build_sessions_tags_members_only v.1 v.2 eq_refl Hv).
    apply (bool_decide_unpack _). vm_compute. exact I.
Defined.

(** ** Sessions and start markers *)

Lemma retagged_marker_sig h h' r : retagged h h' → marker_sig h' r = marker_sig h r.
Proof.
  intros Hh. unfold marker_sig. destruct (h !! r) as [e|] eqn:He.
  - destruct (retagged_lookup _ _ _ _ Hh He)
      as (e' & -> & Hid & _ & _ & Ht & _ & Hd).
    by rewrite Hid, Ht, Hd.
  - destruct (h' !! r) as [e'|] eqn:He'; [|done].
    destruct (retagged_lookup_r _ _ _ _ Hh He') as (e & ? & _). congruence.
Qed.

Lemma session_sig_append r s :
  events s ≠ [] → session_sig (append_event r s) = session_sig s.
Proof.
  intros Hne. unfold session_sig. simpl. destruct (events s); [done|]. done.
Qed.

Lemma session_step_sig r st st' :
  session_step r st = Ok st' →
  Forall (λ s, events s ≠ []) (opened st) →
  map session_sig (opened st') =
    map session_sig (opened st) ++ option_list (marker_sig (st_heap st) r) ∧
  Forall (λ s, events s ≠ []) (opened st').
Proof.
  unfold session_step, marker_sig.
  destruct (st_heap st !! r) as [e|] eqn:He;
    [|intros [= <-] ?; by rewrite app_nil_r].
  destruct (parsed_time e) as [t|] eqn:Ht;
    [|intros [= <-] ?; by rewrite app_nil_r].
  intros Hb Hne. apply bind_Ok in Hb as (st1 & H1 & [= <-]).
  assert (map session_sig (opened st1) = map session_sig (opened st) ∧
          Forall (λ s, events s ≠ []) (opened st1)) as [<- Hne1].
  { apply inactivity_check_Ok in H1
      as (_ & _ & [[Hc1 Hs1]|(s & l & gap & Hc & _ & _ & _ & Hc1 & Hs1)]);
      unfold opened in *; rewrite Hc1, Hs1.
    - done.
    - rewrite Hc in *. simpl in *. rewrite app_nil_r. split.
      + by rewrite !map_app.
      + apply Forall_app in Hne as [? [? _]%Forall_cons].
        apply Forall_app. split; [done|]. by apply Forall_singleton. }
  clear Hne H1. unfold interpret, opened in *.
  destruct (current_session st1) as [s|]; simpl in *;
    rewrite ?app_nil_r in *.
  - apply Forall_app in Hne1 as [Hout [Hs _]%Forall_cons].
    destruct (String.eqb (event_id e) "21"); simpl.
    + rewrite !map_app. simpl. split; [done|].
      rewrite !Forall_app, !Forall_singleton. done.
    + rewrite app_nil_r. case_match; simpl; rewrite ?app_nil_r, !map_app; simpl;
        (split; [do 2 f_equal; apply (session_sig_append r s Hs)|]);
        rewrite Forall_app, Forall_singleton; (split; [done|]); simpl;
        by destruct (events s).
  - destruct (String.eqb (event_id e) "21"); simpl; rewrite ?app_nil_r.
    + rewrite map_app. simpl. split; [done|].
      rewrite Forall_app, Forall_singleton. done.
    + done.
Qed.

Lemma session_loop_sig tl st st' :
  session_loop tl st = (st', None) →
  Forall (λ s, events s ≠ []) (opened st) →
  map session_sig (opened st') =
    map session_sig (opened st) ++ omap (marker_sig (st_heap st)) tl ∧
  Forall (λ s, events s ≠ []) (opened st').
Proof.
  unfold session_loop. revert st.
  induction tl as [|r tl IH]; intros st; simpl.
  - intros [= <-] ?. by rewrite app_nil_r.
  - destruct (session_step r st) as [st1|] eqn:Hstep; [|done].
    intros Hrest Hne.
    destruct (session_step_sig _ _ _ Hstep Hne) as [E1 Hne1].
    destruct (IH _ Hrest Hne1) as [E2 Hne2]. split; [|done].
    rewrite E2, E1, <- app_assoc. f_equal.
    rewrite (list_omap_ext _ (marker_sig (st_heap st)) tl tl).
    + by destruct (marker_sig (st_heap st) r).
    + apply Forall_Forall2_diag, Forall_forall. intros x _.
      apply retagged_marker_sig. by eapply session_step_retagged.
Qed.

Lemma session_sig_extends P ss ss' :
  Forall2 (extends_by P) ss ss' → Forall (λ s, events s ≠ []) ss →
  map session_sig ss' = map session_sig ss.
Proof.
  induction 1 as [|s s' l l' Hs _ IH]; [done|].
  intros [Hne Hl]%Forall_cons. simpl. rewrite (IH Hl). f_equal.
  destruct Hs as (E1 & _ & E2 & _ & E3 & E4 & added & E5 & _).
  unfold session_sig. rewrite E1, E2, E3, E4, E5. by destruct (events s).
Qed.

Lemma close_at_log_end_sig st :
  map session_sig (close_at_log_end st) = map session_sig (opened st) ∧
  (Forall (λ s, events s ≠ []) (opened st) →
   Forall (λ s, events s ≠ []) (close_at_log_end st)).
Proof.
  unfold close_at_log_end, opened. destruct (current_session st) as [s|]; simpl.
  - rewrite !map_app. split; [done|].
    rewrite !Forall_app, !Forall_singleton. done.
  - by rewrite app_nil_r.
Qed.

(** X8: on a sorted timeline the sessions [build_sessions] leaves are,
    one for one and in the order of the timeline, the start markers that
    have a parsed time: the session has the time of its marker as
    [start_time], [lsm_session_start] as [start_reason], the user and the
    address the candidate keys of the marker's details yield, and the
    marker as first member.  No session comes from anything else. *)
Theorem build_sessions_one_session_per_start_marker h self :
  sessions self = [] → sorted_timeline h (timeline self) →
  map session_sig (sessions (build_sessions (h, self)).1.2)
    = omap (marker_sig h) (timeline self).
Proof.
  intros Hnil Hsort.
  destruct (build_sessions_sorted h self) as (st & Hloop & _ & ->);
    [done | by rewrite Hnil |].
  rewrite Hnil in Hloop. simpl.
  destruct (session_loop_sig _ _ _ Hloop) as [Hsig Hne]; [constructor|].
  destruct (close_at_log_end_sig st) as [Hsig' Hne'].
  destruct (grace_pass_frame (st_heap st) (timeline self) (close_at_log_end st))
    as [_ Hframe].
  rewrite (session_sig_extends _ _ _ Hframe (Hne' Hne)), Hsig', Hsig. done.
Qed.

(** The session of [21@00:00 (User, Address), 4624@00:01] carries the
    user and the address of its marker. *)
Lemma build_sessions_one_session_per_start_marker_witness :
  let w := sample.in_order more_samples.named_session in
  sorted_timeline w.1 (timeline w.2) ∧
  map session_sig (sessions (build_sessions w).1.2)
    = [(sample.at_minute 0, "lsm_session_start"%string,
        Some "CORP\\alice"%string, Some "10.0.0.7"%string, Some 0%nat)].
Proof.
  intros w.
  assert (sorted_timeline w.1 (timeline w.2)) as Hs
    by (apply (bool_decide_unpack _); vm_compute; exact I).
  split; [exact Hs|].
  exact (eq_trans
           (build_sessions_one_session_per_start_marker w.1 w.2 eq_refl Hs)
           eq_refl).
Defined.

(** ** Explicit logoff, late events, end of the log *)

(** X9: on a sorted timeline, when the loop reaches a disconnect (24) or
    logoff (4634) event with time [t] while a session is open that the
    inactivity check leaves open, the event becomes the last member the
    session builder gives the session, the session is closed with
    [end_time] [t] and [end_reason] [explicit_logoff], and no session is
    open afterwards; the event's [_correlation] is [in_session] after the
    step and still when [build_sessions] is done; the closed session is
    in the list [build_sessions] leaves. *)
Theorem explicit_logoff_closes_session h self pre r post st s l e t gap :
  sessions self = [] → timeline self = pre ++ r :: post →
  sorted_timeline h (timeline self) →
  session_loop pre (initial_state h []) = (st, None) →
  current_session st = Some s → last_event_time st = Some l →
  st_heap st !! r = Some e → parsed_time e = Some t →
  event_id e = "24"%string ∨ event_id e = "4634"%string →
  datetime.sub t l = Ok gap → gap ≤ INACTIVITY_TIMEOUT →
  let closed := close (Some t) "explicit_logoff" (append_event r s) in
  session_step r st =
    Ok (LoopState None (Some t) (tag r "in_session" (st_heap st))
          (st_sessions st ++ [closed])) ∧
  _correlation <$> tag r "in_session" (st_heap st) !! r
    = Some (Some "in_session"%string) ∧
  (∃ s', sessions (build_sessions (h, self)).1.2 !! length (st_sessions st) = Some s' ∧
         start_time s' = start_time s ∧ end_time s' = Some t ∧
         end_reason s' = Some "explicit_logoff"%string ∧
         (events s ++ [r]) `prefix_of` events s') ∧
  _correlation <$> (build_sessions (h, self)).1.1 !! r
    = Some (Some "in_session"%string).
Proof.
  intros Hnil Htl Hsort Hpre Hc Hl He Ht Hid Hgap Hle closed.
  assert (session_step r st =
            Ok (LoopState None (Some t) (tag r "in_session" (st_heap st))
                  (st_sessions st ++ [closed]))) as Hstep.
  { unfold session_step, inactivity_check. rewrite He, Ht, Hc, Hl, Hgap. simpl.
    apply Z.ltb_ge in Hle. rewrite Hle. simpl.
    unfold interpret. rewrite Hc. by destruct Hid as [-> | ->]. }
  split; [done|]. split; [by eapply tag_lookup|]. split.
  - destruct (build_sessions_through h self pre r post Hnil Htl Hsort)
      as (st' & st2 & st3 & Hpre' & _ & Hstep' & Hpost & _ & ->).
    rewrite Hpre in Hpre'. injection Hpre' as <-.
    rewrite Hstep in Hstep'. injection Hstep' as <-.
    destruct (closed_session_stays (timeline self) _ _ _
                (length (st_sessions st)) closed Hpost)
      as (s' & Hs' & Hst & Hen & Hre & Hev).
    { simpl. by rewrite lookup_app_r, Nat.sub_diag. }
    exists s'. by repeat split.
  - eapply (in_session_tag_lands h self pre r post st);
      [exact Htl | by rewrite Hnil | exact Hstep | exact He |
      | by eapply tag_lookup].
    destruct Hid as [-> | ->]; apply (bool_decide_unpack _); vm_compute; exact I.
Qed.

(** Scenario A: one session from 00:00 to 00:10, [explicit_logoff]; the
    disconnect is tagged [in_session]. *)
Lemma explicit_logoff_closes_session_witness :
  let w := sample.in_order more_samples.scenario_A in
  sorted_timeline w.1 (timeline w.2) ∧
  length (sessions (build_sessions w).1.2) = 1%nat ∧
  (∃ s', sessions (build_sessions w).1.2 !! 0%nat = Some s' ∧
         start_time s' = sample.at_minute 0 ∧
         end_time s' = Some (sample.at_minute 10) ∧
         end_reason s' = Some "explicit_logoff"%string ∧
         [0; 1; 2]%nat `prefix_of` events s') ∧
  _correlation <$> (build_sessions w).1.1 !! 2%nat
    = Some (Some "in_session"%string).
Proof.
  intros w.
  assert (sorted_timeline w.1 (timeline w.2)) as Hs
    by (apply (bool_decide_unpack _); vm_compute; exact I).
  split; [exact Hs|]. split; [reflexivity|].
  set (st := (session_loop [0; 1]%nat (initial_state w.1 [])).1).
  exact (proj2 (proj2 (explicit_logoff_closes_session w.1 w.2 [0; 1]%nat 2%nat
           [] st
           (Session (sample.at_minute 0) None "lsm_session_start" None None None
              [0; 1]%nat)
           (sample.at_minute 1) (sample.ev "24" (Some (sample.at_minute 10)))
           (sample.at_minute 10) (datetime.minutes 9)
           eq_refl eq_refl Hs eq_refl eq_refl eq_refl eq_refl eq_refl
           (or_introl eq_refl) eq_refl ltac:(vm_compute; discriminate)))).
Defined.

(** X10: on whatever timeline, an event that is no start marker and
    arrives more than 60 minutes after the last event while a session is
    open ends that session as [inactivity_timeout] at the time of the
    last event and is itself dropped: it gets no tag, becomes no member,
    and no session is open after it.  A logoff that comes so late is
    therefore not the end of the session. *)
Theorem late_event_is_dropped r st s l e t gap :
  current_session st = Some s → last_event_time st = Some l →
  st_heap st !! r = Some e → parsed_time e = Some t →
  event_id e ≠ "21"%string →
  datetime.sub t l = Ok gap → INACTIVITY_TIMEOUT < gap →
  session_step r st =
    Ok (LoopState None (Some t) (st_heap st)
          (st_sessions st ++ [close (Some l) "inactivity_timeout" s])).
Proof.
  intros Hc Hl He Ht Hid Hgap Hlt.
  unfold session_step, inactivity_check. rewrite He, Ht, Hc, Hl, Hgap. simpl.
  apply Z.ltb_lt in Hlt. rewrite Hlt. simpl. unfold interpret. simpl.
  apply String.eqb_neq in Hid. by rewrite Hid.
Qed.

(** [21@00:00, 4624@00:01, 24@02:00]: the disconnect comes too late; the
    session ends at 00:01 and has two members. *)
Lemma late_event_is_dropped_witness :
  let h := [sample.ev "21" (Some (sample.at_minute 0));
            sample.ev "4624" (Some (sample.at_minute 1));
            sample.ev "24" (Some (sample.at_minute 120))] in
  let st := (session_loop [0; 1]%nat (initial_state h [])).1 in
  ∃ s', session_step 2%nat st
          = Ok (LoopState None (Some (sample.at_minute 120)) (st_heap st) [s']) ∧
        end_time s' = Some (sample.at_minute 1) ∧
        end_reason s' = Some "inactivity_timeout"%string ∧
        events s' = [0; 1]%nat ∧
        _correlation <$> st_heap st !! 2%nat = Some None.
Proof.
  intros h st. eexists. split.
  - exact (late_event_is_dropped 2%nat st
             (Session (sample.at_minute 0) None "lsm_session_start" None None None
                [0; 1]%nat)
             (sample.at_minute 1) (sample.ev "24" (Some (sample.at_minute 120)))
             (sample.at_minute 120) (datetime.minutes 119)
             eq_refl eq_refl eq_refl eq_refl ltac:(discriminate) eq_refl eq_refl).
  - repeat split; reflexivity.
Defined.

(** The last event time the loop ends with is the parsed time of the
    last event of the timeline that has one. *)
Lemma session_loop_last_event_time tl st st' :
  session_loop tl st = (st', None) →
  last_event_time st' =
    match last (omap (time_of (st_heap st)) tl) with
    | Some t => Some t
    | None => last_event_time st
    end.
Proof.
  unfold session_loop. revert st. induction tl as [|r tl IH]; intros st; simpl.
  - by intros [= <-].
  - destruct (session_step r st) as [st1|] eqn:Hstep; [|done].
    intros Hrest. rewrite (IH _ Hrest).
    assert (omap (time_of (st_heap st1)) tl = omap (time_of (st_heap st)) tl) as ->.
    { apply list_omap_ext, Forall_Forall2_diag, Forall_forall. intros x _.
      unfold time_of.
      pose proof (session_step_retagged _ _ _ Hstep) as Hre.
      destruct (st_heap st !! x) as [e|] eqn:He.
      - destruct (retagged_lookup _ _ _ _ Hre He) as (e' & -> & Hee).
        simpl. apply Hee.
      - destruct (st_heap st1 !! x) as [e'|] eqn:He'; [|done].
        destruct (retagged_lookup_r _ _ _ _ Hre He') as (? & ? & _). congruence. }
    unfold time_of at 2. revert Hstep. unfold session_step.
    destruct (st_heap st !! r) as [e|]; simpl; [|by intros [= <-]].
    destruct (parsed_time e) as [t|]; simpl; [|by intros [= <-]].
    intros Hb. apply bind_Ok in Hb as (st0 & _ & [= <-]).
    rewrite last_cons, interpret_last. by destruct (last _).
Qed.

(** X11: on a sorted timeline, a session still open when the loop ends
    is closed with [end_reason] [session_open_at_log_end] and, as
    [end_time], the parsed time of the last event of the whole timeline
    that has one, member of the session or not; it is the last session of
    the list [build_sessions] leaves. *)
Theorem open_session_closed_at_log_end h self st s :
  sessions self = [] → sorted_timeline h (timeline self) →
  session_loop (timeline self) (initial_state h []) = (st, None) →
  current_session st = Some s →
  ∃ t s', last (omap (time_of h) (timeline self)) = Some t ∧
          last (sessions (build_sessions (h, self)).1.2) = Some s' ∧
          start_time s' = start_time s ∧ end_time s' = Some t ∧
          end_reason s' = Some "session_open_at_log_end"%string ∧
          events s `prefix_of` events s'.
Proof.
  intros Hnil Hsort Hloop Hc.
  destruct (build_sessions_sorted h self) as (st' & Hloop' & Hinv & ->);
    [done | by rewrite Hnil |].
  rewrite Hnil, Hloop in Hloop'. injection Hloop' as <-. simpl.
  destruct Hinv as (_ & _ & Hcur & _).
  destruct (Hcur s Hc) as (t & Hl & _).
  pose proof (session_loop_last_event_time _ _ _ Hloop) as Hlast.
  simpl in Hlast. rewrite Hl in Hlast.
  destruct (last (omap (time_of h) (timeline self))) as [t'|] eqn:Ht'; [|done].
  injection Hlast as <-.
  assert (close_at_log_end st !! length (st_sessions st)
          = Some (close (Some t) "session_open_at_log_end" s)) as Hi.
  { unfold close_at_log_end. rewrite Hc, Hl.
    by rewrite lookup_app_r, Nat.sub_diag. }
  destruct (grace_pass_lookup (st_heap st) (timeline self) _ _ _ Hi)
    as (s' & Hs' & Hst & Hen & _ & Hre & _ & _ & added & Hadd & _).
  exists t, s'. split; [done|]. split.
  - rewrite last_lookup, <- Hs'. f_equal.
    destruct (grace_pass_frame (st_heap st) (timeline self) (close_at_log_end st))
      as [_ Hf].
    rewrite <- (Forall2_length _ _ _ Hf). unfold close_at_log_end. rewrite Hc.
    rewrite length_app. simpl. lia.
  - repeat split; try done. rewrite Hadd. by apply prefix_app_r.
Qed.

(** [21@00:00 (User, Address), 4624@00:01]: the session is closed at
    00:01, the time of the last event. *)
Lemma open_session_closed_at_log_end_witness :
  let w := sample.in_order more_samples.named_session in
  sorted_timeline w.1 (timeline w.2) ∧
  ∃ s', last (sessions (build_sessions w).1.2) = Some s' ∧
        end_time s' = Some (sample.at_minute 1) ∧
        end_reason s' = Some "session_open_at_log_end"%string.
Proof.
  intros w.
  assert (sorted_timeline w.1 (timeline w.2)) as Hs
    by (apply (bool_decide_unpack _); vm_compute; exact I).
  split; [exact Hs|].
  destruct (open_session_closed_at_log_end w.1 w.2
              (session_loop (timeline w.2) (initial_state w.1 [])).1
              (Session (sample.at_minute 0) None "lsm_session_start" None
                 (Some "CORP\\alice"%string) (Some "10.0.0.7"%string)
                 [0; 1]%nat)
              eq_refl Hs eq_refl eq_refl)
    as (t & s' & Ht & Hlast & _ & Hen & Hre & _).
  injection Ht as <-. by exists s'.
Defined.

(** X12: on whatever timeline, and whether [build_sessions] returns or
    raises, a session with [end_reason] [session_open_at_log_end] is the
    last of the list: the sessions before it were closed by a logoff, by
    a new start marker or by the inactivity timeout. *)
Theorem only_last_session_open_at_log_end h self i s :
  sessions self = [] →
  sessions (build_sessions (h, self)).1.2 !! i = Some s →
  end_reason s = Some "session_open_at_log_end"%string →
  S i = length (sessions (build_sessions (h, self)).1.2).
Proof.
  intros Hnil. unfold build_sessions. rewrite Hnil.
  assert (Forall (λ s, end_reason s ≠ Some "session_open_at_log_end"%string)
            (st_sessions (session_loop (timeline self) (initial_state h [])).1))
    as Hclosed.
  { unfold session_loop.
    apply (for_each_preserves session_step
             (λ st, Forall (λ s, end_reason s ≠ Some "session_open_at_log_end"%string)
                      (st_sessions st))); [|constructor].
    intros r st st' _ Hall. unfold session_step.
    destruct (st_heap st !! r) as [e|]; [|by intros [= <-]].
    destruct (parsed_time e) as [t|]; [|by intros [= <-]].
    intros Hb. apply bind_Ok in Hb as (st1 & H1 & [= <-]).
    assert (Forall (λ s, end_reason s ≠ Some "session_open_at_log_end"%string)
              (st_sessions st1)) as Hall1.
    { apply inactivity_check_Ok in H1
        as (_ & _ & [[_ ->]|(s0 & l & gap & _ & _ & _ & _ & _ & ->)]); [done|].
      apply Forall_app. split; [done|]. by apply Forall_singleton. }
    unfold interpret. repeat case_match; simpl; try done;
      apply Forall_app; (split; [done|]); by apply Forall_singleton. }
  destruct (session_loop (timeline self) (initial_state h [])) as [st [e|]];
    simpl in *.
  - intros Hi Hr. rewrite Forall_forall in Hclosed.
    destruct (Hclosed s); [|done]. by eapply list_elem_of_lookup_2.
  - pose proof (grace_pass_frame (st_heap st) (timeline self) (close_at_log_end st))
      as [_ Hf].
    assert (∀ ss, Forall2 (extends_by (timed (st_heap st))) (close_at_log_end st) ss →
                  ss !! i = Some s →
                  end_reason s = Some "session_open_at_log_end"%string →
                  S i = length ss) as Hgen.
    { intros ss Hss Hi Hr.
      destruct (Forall2_lookup_r _ _ _ _ _ Hss Hi) as (s0 & Hi0 & Hext).
      rewrite <- (Forall2_length _ _ _ Hss).
      destruct Hext as (_ & _ & _ & Hr0 & _). rewrite Hr in Hr0.
      unfold close_at_log_end in *.
      destruct (current_session st) as [c|].
      - rewrite length_app. simpl.
        destruct (decide (i < length (st_sessions st))%nat) as [Hlt|Hge].
        + rewrite lookup_app_l in Hi0 by done. rewrite Forall_forall in Hclosed.
          destruct (Hclosed s0); [|done]. by eapply list_elem_of_lookup_2.
        + apply lookup_lt_Some in Hi0. rewrite length_app in Hi0. simpl in Hi0. lia.
      - rewrite Forall_forall in Hclosed.
        destruct (Hclosed s0); [|done]. by eapply list_elem_of_lookup_2. }
    destruct (grace_pass _ _ _) as [[h' ss] [e|]]; simpl in *; by apply Hgen.
Qed.

Lemma only_last_session_open_at_log_end_witness :
  let w := sample.in_order more_samples.named_session in
  ∃ s, sessions (build_sessions w).1.2 !! 0%nat = Some s ∧
       end_reason s = Some "session_open_at_log_end"%string ∧
       1%nat = length (sessions (build_sessions w).1.2).
Proof.
  intros w. eexists. split; [reflexivity|]. split; [reflexivity|].
  exact (only_last_session_open_at_log_end w.1 w.2 0%nat _ eq_refl eq_refl eq_refl).
Defined.

(** ** One session at a time *)

Lemma ended_by_trans l l' y :
  ended_by l y → datetime.le l l' = Ok true → ended_by l' y.
Proof.
  intros (e & He & Hle) Hl. exists e. split; [done|].
  by eapply datetime_facts.le_trans.
Qed.

Lemma StronglySorted_snoc {A} (R : relation A) l x :
  StronglySorted R l → Forall (λ y, R y x) l → StronglySorted R (l ++ [x]).
Proof.
  intros Hl Hx. apply StronglySorted_app. split; [|split; [done|]].
  - rewrite Forall_forall in Hx. intros y z Hy ->%list_elem_of_singleton. auto.
  - repeat constructor.
Qed.

Lemma seq_inv_step r rest st :
  loop_inv (r :: rest) st → seq_inv st →
  ∀ st', session_step r st = Ok st' → seq_inv st'.
Proof.
  intros (_ & Hlast & Hcur & _) (Hss & Hb & Hc & Hd) st'.
  unfold session_step.
  destruct (st_heap st !! r) as [e|] eqn:He; [|by intros [= <-]].
  destruct (parsed_time e) as [t|] eqn:Ht; [|by intros [= <-]].
  pose proof (sort_key_timed _ _ _ _ He Ht) as Hkey.
  (* what has ended has ended by the time of this event *)
  assert (Forall (ended_by t) (st_sessions st)) as Hbyt.
  { destruct (last_event_time st) as [l|] eqn:Hl; [|by rewrite Hd].
    specialize (Hlast l eq_refl). apply Forall_cons in Hlast as [Hlt _].
    rewrite Hkey in Hlt. eapply Forall_impl; [exact (Hc l eq_refl)|].
    intros y ?. by eapply ended_by_trans. }
  assert (∀ c, current_session st = Some c →
               datetime.le (start_time c) t = Ok true) as Hct.
  { intros c Hcc. destruct (Hcur c Hcc) as (l & Hl & Hsl).
    specialize (Hlast l Hl). apply Forall_cons in Hlast as [Hlt _].
    rewrite Hkey in Hlt. by eapply datetime_facts.le_trans. }
  intros Hbind. apply bind_Ok in Hbind as (st1 & H1 & [= <-]).
  (* after the inactivity check *)
  assert (StronglySorted ends_before (st_sessions st1) ∧
          (∀ c, current_session st1 = Some c →
                Forall (λ y, ends_before y c) (st_sessions st1) ∧
                datetime.le (start_time c) t = Ok true) ∧
          Forall (ended_by t) (st_sessions st1)) as (Hss1 & Hb1 & Hbyt1).
  { apply inactivity_check_Ok in H1
      as (_ & _ & [[Hc1 Hs1]|(c & l & gap & Hcc & Hl & _ & _ & Hc1 & Hs1)]);
      rewrite Hc1, Hs1.
    - split; [done|]. split; [|done]. intros c Hcc. split; auto.
    - split; [apply StronglySorted_snoc; [done | exact (Hb c Hcc)]|].
      split; [by intros ? ?|].
      apply Forall_app. split; [done|]. apply Forall_singleton.
      exists l. split; [done|].
      specialize (Hlast l Hl). apply Forall_cons in Hlast as [Hlt _].
      by rewrite Hkey in Hlt. }
  clear Hss Hb Hc Hd Hbyt Hct H1.
  assert (∀ c why, ended_by t (close (Some t) why c)) as Hclose.
  { intros c why. exists t. split; [done|]. apply datetime_facts.le_refl. }
  unfold seq_inv, interpret.
  destruct (current_session st1) as [c|] eqn:Hc1;
    [destruct (Hb1 c eq_refl) as [Hbc Hct]|];
    repeat case_match; simpl;
    repeat match goal with
    | |- _ ∧ _ => split
    | |- ∀ _, Some _ = Some _ → _ => intros ? [= <-]
    | |- ∀ _, None = Some _ → _ => by intros ? ?
    | |- Some _ = None → _ => by intros ?
    | |- StronglySorted _ (_ ++ [_]) => apply StronglySorted_snoc
    | |- Forall _ (_ ++ [_]) => apply Forall_app; split; [|apply Forall_singleton]
    | |- ended_by _ (close _ _ _) => apply Hclose
    | |- ends_before (close _ _ _) _ => apply Hclose
    end; try done.
Qed.

Lemma StronglySorted_ends_before_extends P ss ss' :
  Forall2 (extends_by P) ss ss' → StronglySorted ends_before ss →
  StronglySorted ends_before ss'.
Proof.
  induction 1 as [|s s' l l' Hs Hl IH]; [done|].
  intros [Hsl Hx]%StronglySorted_inv. constructor; [by apply IH|].
  clear IH Hsl. induction Hl as [|y y' k k' Hy _ IH]; [done|].
  apply Forall_cons in Hx as [(e & He & Hle) Hx]. constructor; [|by apply IH].
  destruct Hs as (_ & Ee & _), Hy as (Es & _).
  exists e. by rewrite Ee, Es.
Qed.

(** X13: on a sorted timeline the sessions [build_sessions] leaves do not
    overlap and are in chronological order: every session of the list
    has ended no later than any session after it starts. *)
Theorem build_sessions_sessions_in_sequence h self :
  sessions self = [] → sorted_timeline h (timeline self) →
  StronglySorted ends_before (sessions (build_sessions (h, self)).1.2).
Proof.
  intros Hnil Hsort.
  destruct (for_each_invariant session_step
              (λ rest st, loop_inv rest st ∧ seq_inv st))
    with (xs := timeline self) (ys := @nil ref) (s := initial_state h [])
    as (st & Hloop & Hinv & Hseq).
  { intros r rest st [Hinv Hseq].
    destruct (loop_inv_step _ _ _ Hinv) as (st' & Hstep & Hinv').
    exists st'. split; [done|]. split; [done|]. by eapply seq_inv_step. }
  { rewrite app_nil_r. split; [by apply loop_inv_initial|].
    by repeat split; try constructor. }
  unfold build_sessions. rewrite Hnil. unfold session_loop. rewrite Hloop.
  assert (StronglySorted ends_before (close_at_log_end st)) as Hend.
  { destruct Hseq as (Hss & Hb & _). unfold close_at_log_end.
    destruct (current_session st) as [c|]; [|done].
    apply StronglySorted_snoc; [done|]. exact (Hb c eq_refl). }
  destruct (grace_pass_frame (st_heap st) (timeline self) (close_at_log_end st))
    as [_ Hf].
  pose proof (StronglySorted_ends_before_extends _ _ _ Hf Hend) as Hfin.
  by destruct (grace_pass _ _ _) as [[h' ss] [e|]].
Qed.

(** [21@00:00, 24@00:10, 21@00:30, 4634@00:40]: the first session has
    ended at 00:10, before the second starts at 00:30. *)
Lemma build_sessions_sessions_in_sequence_witness :
  let w := sample.in_order more_samples.two_sessions in
  sorted_timeline w.1 (timeline w.2) ∧
  ∃ s1 s2, sessions (build_sessions w).1.2 = [s1; s2] ∧ ends_before s1 s2.
Proof.
  intros w.
  assert (sorted_timeline w.1 (timeline w.2)) as Hs
    by (apply (bool_decide_unpack _); vm_compute; exact I).
  split; [exact Hs|]. do 2 eexists. split; [reflexivity|].
  pose proof (build_sessions_sessions_in_sequence w.1 w.2 eq_refl Hs) as Hseq.
  apply StronglySorted_inv in Hseq as [_ Hx]. exact (Forall_inv Hx).
Defined.

(** ** When [build_sessions] returns *)

Lemma session_step_returns k r st :
  timed_in (of_kind k) (st_heap st) r → state_in (of_kind k) st →
  ∃ st', session_step r st = Ok st'.
Proof.
  intros Hr [Hop Hlast]. unfold session_step.
  destruct (st_heap st !! r) as [e|] eqn:He; [|eauto].
  destruct (parsed_time e) as [t|] eqn:Ht; [|eauto].
  unfold inactivity_check.
  destruct (current_session st) as [s|]; simpl; [|eauto].
  destruct (last_event_time st) as [l|] eqn:Hl; simpl; [|eauto].
  rewrite datetime_facts.sub_spec; simpl.
  - case_match; eauto.
  - rewrite (Hr e t He Ht). symmetry. by apply Hlast.
Qed.

(** X14: sorted or not, on a timeline whose parsed times are all naive
    or all aware and lie at least 5 minutes after the first and 15
    minutes before the last instant of the calendar, [build_sessions]
    raises nothing and returns [self.sessions]. *)
Theorem build_sessions_returns_on_one_kind k h self :
  sessions self = [] →
  Forall (timed_in (of_kind k) h) (timeline self) →
  Forall (timed_in in_grace_range h) (timeline self) →
  ∃ ss, (build_sessions (h, self)).2 = Ok ss ∧
        sessions (build_sessions (h, self)).1.2 = ss.
Proof.
  intros Hnil Hk Hrange.
  destruct (for_each_invariant session_step
              (λ rest st, Forall (timed_in (of_kind k) (st_heap st)) rest ∧
                          state_in (of_kind k) st))
    with (xs := timeline self) (ys := @nil ref) (s := initial_state h [])
    as (st & Hloop & _).
  { intros r rest st [[Hr Hrest]%Forall_cons Hst].
    destruct (session_step_returns k r st Hr Hst) as [st' Hstep].
    exists st'. split; [done|]. split.
    - eapply Forall_impl; [exact Hrest|]. intros x.
      apply timed_in_retagged. by eapply session_step_retagged.
    - by eapply session_step_in. }
  { rewrite app_nil_r. split; [done|]. split; [constructor | done]. }
  pose proof (session_loop_retagged (timeline self) (initial_state h [])) as Hre.
  pose proof (session_loop_in _ h (timeline self) Hk) as Hstk.
  pose proof (session_loop_in _ h (timeline self) Hrange) as Hstr.
  unfold build_sessions. rewrite Hnil. unfold session_loop in *.
  rewrite Hloop in *. simpl in *.
  pose proof (grace_pass_returns k (st_heap st) (timeline self)
                (close_at_log_end st)) as Hg.
  destruct (grace_pass _ _ _) as [[h' ss] err]. simpl in Hg.
  rewrite Hg; eauto using close_at_log_end_in.
  eapply Forall_impl; [exact Hk|]. intros r. by apply timed_in_retagged.
Qed.

(** [21@00:10, 4624@00:00], out of order: [build_sessions] returns, with
    a session that ends before it starts. *)
Lemma build_sessions_returns_on_one_kind_witness :
  let w := sample.in_order more_samples.unsorted_naive in
  ¬ sorted_timeline w.1 (timeline w.2) ∧
  ∃ s, (build_sessions w).2 = Ok [s] ∧
       start_time s = sample.naive_at_minute 10 ∧
       end_time s = Some (sample.naive_at_minute 0).
Proof.
  intros w. split.
  - apply (bool_decide_unpack _). vm_compute. exact I.
  - destruct (build_sessions_returns_on_one_kind false w.1 w.2 eq_refl)
      as (ss & Hret & _).
    + apply (bool_decide_unpack _). vm_compute. exact I.
    + apply (bool_decide_unpack _). vm_compute. exact I.
    + eexists. split; [reflexivity|]. split; reflexivity.
Defined.

(** ** Calling [build_sessions] again *)

(** X15: [build_sessions] does not reset [self.sessions].  Whatever the
    sessions the object holds when the method is called, they are the
    first of the list it leaves, with the times, reasons, user and
    address they had; at most the grace pass has appended events with
    parsed time to them.  The rebuilt sessions come after them. *)
Theorem build_sessions_keeps_old_sessions h self :
  Forall2 (extends_by (timed h)) (sessions self)
    (take (length (sessions self)) (sessions (build_sessions (h, self)).1.2)).
Proof.
  unfold build_sessions.
  pose proof (session_loop_prefix (timeline self)
                (initial_state h (sessions self))) as Hp.
  pose proof (session_loop_retagged (timeline self)
                (initial_state h (sessions self))) as Hre.
  destruct (session_loop _ _) as [st [e|]]; simpl in *.
  - destruct Hp as [k ->]. by rewrite take_app_length.
  - assert (sessions self `prefix_of` close_at_log_end st) as [k Hk]
      by (etrans; [exact Hp | apply close_at_log_end_prefix]).
    destruct (grace_pass_frame (st_heap st) (timeline self) (close_at_log_end st))
      as [_ Hf].
    assert (Forall2 (extends_by (timed h)) (sessions self)
              (take (length (sessions self))
                 (grace_pass (st_heap st) (timeline self) (close_at_log_end st)).1.2))
      as Hfin.
    { apply (Forall2_take _ _ _ (length (sessions self))) in Hf.
      rewrite Hk in Hf at 1. rewrite take_app_length in Hf.
      eapply Forall2_impl; [exact Hf|]. intros s s'. apply extends_by_impl.
      intros r. by apply timed_retagged. }
    by destruct (grace_pass _ _ _) as [[h' ss] [e|]].
Qed.

(** * Properties of the log reader *)

Lemma replace_Z_empty : replace_Z "" = ""%string.
Proof. reflexivity. Qed.

Lemma convert_time_parse_timestamp f :
  f ""%string = None → f "N/A"%string = None →
  ∀ ts, _convert_time f ts = _parse_timestamp f ts.
Proof.
  intros H1 H2 [s|]; [|done]. simpl.
  destruct (String.eqb_spec s "") as [->|_]; [by rewrite replace_Z_empty, H1|].
  destruct (String.eqb_spec s "N/A") as [->|_]; [|done].
  simpl. by rewrite H2.
Qed.

(** X16: the two timestamp parsers of the repository, [_convert_time]
    of the reader and [_parse_timestamp] of the timeline builder, give
    the same result on every timestamp, absent ones included, exactly
    when [fromisoformat] rejects the empty string and ["N/A"], the two
    values the reader does not hand to it. *)
Theorem convert_time_agrees_with_parse_timestamp f :
  (∀ ts, _convert_time f ts = _parse_timestamp f ts) ↔
  f ""%string = None ∧ f "N/A"%string = None.
Proof.
  split.
  - intros Hall. split.
    + symmetry. exact (Hall (Some ""%string)).
    + symmetry. exact (Hall (Some "N/A"%string)).
  - intros [H1 H2]. by apply convert_time_parse_timestamp.
Qed.

Lemma parse_record_as_read f strip src root e :
  parse_record f strip src root = Kept e → as_read f src e.
Proof.
  unfold parse_record. intros Hk.
  repeat case_match; try done; injection Hk as <-; by repeat split.
Qed.

Lemma parse_evtx_app f strip src a b evs :
  parse_evtx f strip src (a ++ b) evs =
    if (parse_evtx f strip src a evs).2
    then parse_evtx f strip src b (parse_evtx f strip src a evs).1
    else parse_evtx f strip src a evs.
Proof.
  revert evs. induction a as [|[root|] a IH]; intros evs; simpl; [done| |by apply IH].
  destruct (parse_record f strip src root); simpl; auto.
Qed.

Lemma parse_evtx_new f strip src records evs :
  ∃ new, (parse_evtx f strip src records evs).1 = evs ++ new ∧
         Forall (as_read f src) new ∧
         (length new ≤ length records)%nat.
Proof.
  revert evs. induction records as [|[root|] rest IH]; intros evs; simpl.
  - exists []. by rewrite app_nil_r.
  - destruct (parse_record f strip src root) as [|e|] eqn:Hr.
    + destruct (IH evs) as (new & -> & Hf & Hl). exists new. repeat split; [done|lia].
    + destruct (IH (evs ++ [e])) as (new & -> & Hf & Hl).
      exists (e :: new). rewrite <- app_assoc. repeat split; simpl; [|lia].
      constructor; [by eapply parse_record_as_read|done].
    + exists []. simpl. rewrite app_nil_r. repeat split; [done|lia].
  - destruct (IH evs) as (new & -> & Hf & Hl). exists new. repeat split; [done|lia].
Qed.

(** X17: whatever the records, [parse_evtx] only appends to
    [self.events], also when it fails: the events there stay, in their
    order, and each new one, at most one per record, has an id of the
    table with the table's name for it, the parsed time [_convert_time]
    gives for its raw timestamp, the source name of the call and no
    correlation tag. *)
Theorem parse_evtx_appends_relevant_events f strip src records evs :
  ∃ new, (parse_evtx f strip src records evs).1 = evs ++ new ∧
         Forall (as_read f src) new ∧
         (length new ≤ length records)%nat.
Proof. apply parse_evtx_new. Qed.

Lemma read_logs_as_read f strip logs :
  Forall (λ e, ∃ src, as_read f src e) (read_logs f strip logs).
Proof.
  unfold read_logs.
  assert (∀ evs, Forall (λ e, ∃ src, as_read f src e) evs →
            Forall (λ e, ∃ src, as_read f src e)
              (foldl (λ evs log, (parse_evtx f strip log.1 log.2 evs).1) evs logs))
    as Hgen; [|by apply Hgen].
  induction logs as [|[src recs] logs IH]; intros evs Hevs; simpl; [done|].
  apply IH.
  destruct (parse_evtx_new f strip src recs evs) as (new & -> & Hf & _).
  apply Forall_app. split; [done|].
  eapply Forall_impl; [exact Hf|]. intros e He. by exists src.
Qed.

Lemma normalise_event_read f h r :
  (∀ e, h !! r = Some e → parsed_time e = _parse_timestamp f (timestamp e)) →
  normalise_event f h r = h.
Proof.
  intros Hr. unfold normalise_event.
  destruct (h !! r) as [e|] eqn:He; [|done].
  destruct (parsed_time e) as [t|] eqn:Hp; [done|].
  rewrite <- (Hr e eq_refl), Hp.
  apply list_eq. intros i. destruct (decide (i = r)) as [->|Hne].
  - rewrite list_lookup_insert_eq by (by eapply lookup_lt_Some).
    rewrite He. f_equal. destruct e; simpl in *. by subst.
  - by rewrite list_lookup_insert_ne.
Qed.

Lemma normalise_read f h raw :
  Forall (λ e, parsed_time e = _parse_timestamp f (timestamp e)) h →
  normalise f h raw = h.
Proof.
  intros Hh. unfold normalise. induction raw as [|r raw IH]; simpl; [done|].
  rewrite normalise_event_read; [done|].
  intros e He. eapply (Forall_lookup_1 _ _ _ _ Hh He).
Qed.

(** X18: if [fromisoformat] rejects the empty string and ["N/A"], the
    events a reader has collected, over any logs and whether or not a
    call failed, are already what the timestamp normaliser would make of
    them: [build_timeline] leaves every event dictionary as the reader
    built it. *)
Theorem reader_events_need_no_normalising f strip logs :
  f ""%string = None → f "N/A"%string = None →
  (build_timeline f (init (read_logs f strip logs))).1.1 = read_logs f strip logs.
Proof.
  intros H1 H2. unfold init. rewrite build_timeline_heap. simpl.
  apply normalise_read.
  eapply Forall_impl; [apply (read_logs_as_read f strip logs)|].
  intros e (src & _ & Hp & _). rewrite Hp.
  by apply convert_time_parse_timestamp.
Qed.

(** The two events read from the sample log, one of which has its
    timestamp parsed by the reader. *)
Lemma reader_events_need_no_normalising_witness :
  let f := reader_samples.parse_known in
  let logs := [("LSM"%string, reader_samples.lsm_log)] in
  f ""%string = None ∧ f "N/A"%string = None ∧
  length (read_logs f id logs) = 2%nat ∧
  (build_timeline f (init (read_logs f id logs))).1.1 = read_logs f id logs.
Proof.
  intros f logs.
  split; [reflexivity|]. split; [reflexivity|]. split; [reflexivity|].
  apply (reader_events_need_no_normalising f id logs); reflexivity.
Defined.

Lemma engine_ids_relevant id :
  id ∈ engine_ids → is_Some (RDP_RELEVANT_EVENTS !! id).
Proof.
  unfold engine_ids, dfir_ids. intros Hid. set_unfold.
  destruct_or!; subst; by eexists.
Qed.

(** X19: the filter of the reader drops no event the engine reacts to.
    A record with a [System] element and an [EventID] whose text, once
    stripped, is a session marker (21, 24, 4634) or one of the ids of
    the grace pass is kept, under that id. *)
Theorem reader_keeps_engine_events f strip src root sys n txt :
  ET.find root (NS +:+ "System") = Some sys →
  ET.find sys (NS +:+ "EventID") = Some n →
  ET.text n = Some txt →
  strip txt ∈ engine_ids →
  ∃ e, parse_record f strip src root = Kept e ∧ event_id e = strip txt ∧
       source e = src.
Proof.
  intros Hsys Hn Htxt Hid.
  destruct (engine_ids_relevant _ Hid) as [name Hname].
  unfold parse_record. rewrite Hsys, Hn, Htxt, Hname.
  eexists. by repeat split.
Qed.

(** A service installation (7045). *)
Lemma reader_keeps_engine_events_witness :
  let root := reader_samples.record (Some "7045"%string) "2026-01-01T00:10:00Z"
                [("ServiceName", "updater")]%string in
  ∃ e, parse_record reader_samples.parse_known id "System" root = Kept e ∧
       event_id e = "7045"%string ∧ source e = "System"%string.
Proof.
  intros root.
  refine (reader_keeps_engine_events reader_samples.parse_known id "System" root
            _ _ "7045" _ _ _ _).
  - reflexivity.
  - reflexivity.
  - reflexivity.
  - apply (bool_decide_unpack _). vm_compute. exact I.
Defined.

(** X20: a record whose [EventID] element has no text makes [parse_evtx]
    fail: the events of the records before it are in [self.events], and
    no record after it is read, whatever it holds. *)
Theorem parse_evtx_stops_at_event_id_without_text
    f strip src pre root post evs sys n :
  ET.find root (NS +:+ "System") = Some sys →
  ET.find sys (NS +:+ "EventID") = Some n →
  ET.text n = None →
  parse_evtx f strip src (pre ++ Some root :: post) evs
    = ((parse_evtx f strip src pre evs).1, false).
Proof.
  intros Hsys Hn Htxt. rewrite parse_evtx_app.
  destruct (parse_evtx f strip src pre evs) as [evs' [|]]; simpl; [|done].
  unfold parse_record. by rewrite Hsys, Hn, Htxt.
Qed.

(** The sample log, a record with an empty [EventID], and a log-on that
    is lost. *)
Lemma parse_evtx_stops_at_event_id_without_text_witness :
  let f := reader_samples.parse_known in
  let bad := reader_samples.record None "2026-01-01T00:11:00Z" [] in
  let lost := reader_samples.record (Some "21"%string) "2026-01-01T00:12:00Z" [] in
  parse_evtx f id "LSM" (reader_samples.lsm_log ++ Some bad :: [Some lost]) []
    = (read_logs f id [("LSM"%string, reader_samples.lsm_log)], false).
Proof.
  intros f bad lost.
  refine (parse_evtx_stops_at_event_id_without_text f id "LSM"
            reader_samples.lsm_log bad [Some lost] [] _ _ _ _ _);
    reflexivity.
Defined.

Lemma set_detail_lookup k v d k' :
  set_detail k v d !! k' = if decide (k = k') then v else d !! k'.
Proof.
  unfold set_detail. destruct v as [x|], (decide (k = k')) as [->|Hne].
  - by rewrite lookup_insert_eq.
  - by rewrite lookup_insert_ne.
  - by rewrite lookup_delete_eq.
  - by rewrite lookup_delete_ne.
Qed.

(** X21: the value of a key in the details read from [EventData] is the
    text of the last child with that [Name], a child without [Name]
    counting under the empty key; the key is absent (or holds [None],
    which no reader of [details] tells apart) if there is no such child
    or that child has no text. *)
Theorem event_data_last_field_wins ed k :
  event_data_details ed !! k
    = last (filter (λ c, data_name c = k) (ET.children ed)) ≫= ET.text.
Proof.
  unfold event_data_details.
  induction (ET.children ed) as [|c cs IH] using rev_ind; [done|].
  rewrite foldl_app, filter_app. simpl.
  rewrite set_detail_lookup. fold (data_name c).
  rewrite filter_cons, filter_nil.
  destruct (decide (data_name c = k)) as [_|_].
  - by rewrite last_snoc.
  - by rewrite app_nil_r.
Qed.

(** * Properties of the loader *)






(** * Properties of the session features *)

(** Two lists of ids written out have no id in common. *)
Ltac ids_apart :=
  apply Forall_forall; apply (bool_decide_unpack _); vm_compute; exact I.

Lemma ids_apart_not_in (x : string) (A B : list string) :
  (∀ y, y ∈ A → y ∉ B) → x ∈ A → bool_decide (x ∈ B) = false.
Proof. intros Hd Hx. apply bool_decide_eq_false. by apply Hd. Qed.

Lemma has_id_app h A B r :
  ml.has_id h (A ++ B) r = ml.has_id h A r || ml.has_id h B r.
Proof.
  unfold ml.has_id. destruct (h !! r) as [e|]; [|done].
  rewrite <- bool_decide_or. apply bool_decide_ext. apply elem_of_app.
Qed.

Lemma count_ids_cons h ids r evs :
  ml.count_ids h ids (r :: evs)
    = ((if ml.has_id h ids r then 1 else 0) + ml.count_ids h ids evs)%nat.
Proof.
  unfold ml.count_ids. rewrite filter_cons.
  destruct (ml.has_id h ids r); by case_decide.
Qed.

Lemma count_ids_disjoint h A B evs :
  (∀ x, x ∈ A → x ∉ B) →
  (ml.count_ids h A evs + ml.count_ids h B evs = ml.count_ids h (A ++ B) evs)%nat.
Proof.
  intros Hd. induction evs as [|r evs IH]; [done|].
  rewrite !count_ids_cons, has_id_app, <- IH.
  destruct (ml.has_id h A r) eqn:Ha, (ml.has_id h B r) eqn:Hb; simpl; try lia.
  unfold ml.has_id in *. destruct (h !! r) as [e|]; [|done].
  apply bool_decide_eq_true in Ha, Hb. by destruct (Hd _ Ha).
Qed.

Lemma count_ids_length h ids evs : (ml.count_ids h ids evs ≤ length evs)%nat.
Proof. apply length_filter. Qed.

Lemma size_add_le (x : string) (T : gset string) :
  (size ({[ x ]} ∪ T) ≤ 1 + size T)%nat.
Proof.
  rewrite size_union_alt, size_singleton.
  assert (size (T ∖ {[ x ]}) ≤ size T)%nat; [|lia].
  apply subseteq_size. intros y Hy. by apply elem_of_difference in Hy as [? _].
Qed.

Lemma collect_sizes h evs acc :
  (size (foldl (ml.collect h) acc evs).1
     ≤ size acc.1 + ml.count_ids h ["4698"; "129"]%string evs)%nat ∧
  (size (foldl (ml.collect h) acc evs).2
     ≤ size acc.2 + ml.count_ids h ["7045"]%string evs)%nat.
Proof.
  revert acc. induction evs as [|r evs IH]; intros acc; simpl; [lia|].
  rewrite !count_ids_cons.
  destruct (IH (ml.collect h acc r)) as [IH1 IH2].
  unfold ml.collect, ml.has_id in *.
  destruct (h !! r) as [e|]; [|lia].
  destruct (bool_decide (event_id e ∈ ["4698"; "129"]%string)) eqn:Ht.
  - simpl in *. pose proof (size_add_le (ml.task_name (details e)) acc.1).
    apply bool_decide_eq_true in Ht.
    rewrite (ids_apart_not_in _ ["4698"; "129"]%string) by (ids_apart || done).
    lia.
  - destruct (String.eqb_spec (event_id e) "7045") as [Heq|Hne].
    + simpl in *. pose proof (size_add_le (ml.service_name (details e)) acc.2).
      rewrite Heq. simpl. lia.
    + assert (bool_decide (event_id e ∈ ["7045"]%string) = false) as ->; [|lia].
      apply bool_decide_eq_false. by intros H7%list_elem_of_singleton.
Qed.

(** X25: the seven counting features of a session count disjoint
    classes of its members (failed log-ons, successful log-ons, distinct
    tasks, distinct services, group adds, created users, cleared logs),
    so their sum is at most [total_events], the length of the member
    list. *)
Theorem counting_features_within_total
    {float} (total_seconds : timedelta → float) h s ft :
  ml._extract_features total_seconds h s = Ok ft →
  (ml.failed_logons ft + ml.successful_logons ft + ml.unique_tasks ft +
   ml.unique_services ft + ml.admin_added ft + ml.user_created ft +
   ml.logs_cleared ft ≤ ml.total_events ft)%nat ∧
  ml.total_events ft = length (events s).
Proof.
  unfold ml._extract_features. intros Hb.
  apply bind_Ok in Hb as (d & _ & [= <-]). simpl. split; [|done].
  destruct (collect_sizes h (events s) (∅, ∅)) as [Ht Hsv].
  cbn [fst snd] in Ht, Hsv. rewrite size_empty in Ht, Hsv.
  pose proof (count_ids_disjoint h ["4698"; "129"] ["7045"] (events s)
                ltac:(ids_apart))%string as H6.
  pose proof (count_ids_disjoint h ["1102"] (["4698"; "129"] ++ ["7045"])
                (events s) ltac:(ids_apart))%string as H5.
  pose proof (count_ids_disjoint h ["4720"]
                (["1102"] ++ ["4698"; "129"] ++ ["7045"])
                (events s) ltac:(ids_apart))%string as H4.
  pose proof (count_ids_disjoint h ["4732"]
                (["4720"] ++ ["1102"] ++ ["4698"; "129"] ++ ["7045"])
                (events s) ltac:(ids_apart))%string as H3.
  pose proof (count_ids_disjoint h ["4624"; "1149"]
                (["4732"] ++ ["4720"] ++ ["1102"] ++ ["4698"; "129"] ++ ["7045"])
                (events s) ltac:(ids_apart))%string as H2.
  pose proof (count_ids_disjoint h ["4625"]
                (["4624"; "1149"] ++ ["4732"] ++ ["4720"] ++ ["1102"] ++
                 ["4698"; "129"] ++ ["7045"])
                (events s) ltac:(ids_apart))%string as H1.
  pose proof (count_ids_length h
                (["4625"] ++ ["4624"; "1149"] ++ ["4732"] ++ ["4720"] ++
                 ["1102"] ++ ["4698"; "129"] ++ ["7045"])
                (events s))%string as Hlen.
  lia.
Qed.

(** A session that holds its group add twice, as the grace pass leaves
    it: the add is counted twice.  (The duration is left in
    microseconds.) *)
Lemma counting_features_within_total_witness :
  let h := sample.group_add_in_session in
  let s := Session (sample.at_minute 0) (Some (sample.at_minute 10))
             "lsm_session_start"
             (Some "explicit_logoff"%string) None None [0; 1; 2; 1]%nat in
  let microseconds := λ d : timedelta, d in
  ∃ ft, ml._extract_features microseconds h s = Ok ft ∧
        ml.admin_added ft = 2%nat ∧ ml.total_events ft = 4%nat ∧
        (ml.failed_logons ft + ml.successful_logons ft + ml.unique_tasks ft +
         ml.unique_services ft + ml.admin_added ft + ml.user_created ft +
         ml.logs_cleared ft ≤ ml.total_events ft)%nat.
Proof.
  intros h s microseconds. eexists. split; [reflexivity|].
  split; [reflexivity|]. split; [reflexivity|].
  exact (proj1 (counting_features_within_total microseconds h s _ eq_refl)).
Defined.
